(** * The homomorphism searcher of the Glasgow subgraph solver

    A shallow embedding of [src/homomorphism_searcher.cc]: the restarting
    backtracking search, its value orderings, the unit-propagation loop and
    the less-than propagator, together with the properties of them that the
    specification states. *)

From Stdlib Require Import ZArith NArith Lia Bool Ascii.
From stdpp Require Import base list sorting gmap pretty.

Local Open Scope N_scope.

(** ** Bitsets *)

(** Modelled from the spec: the bitset class of the solver (its header is
    not part of the searcher's translation unit).  A bitset over target
    vertices is the number whose binary digits are the membership bits; the
    operations are the ones the searcher calls: [test], [set], [reset],
    [count], [find_first], [any], intersection and intersection with a
    complement.  [find_first] answers [None] where the class answers
    [npos]. *)
Module SVOBitset.

Definition t := N.

Fixpoint pos_find_first (p : positive) : N :=
  match p with
  | xO q => N.succ (pos_find_first q)
  | _ => 0
  end.

Fixpoint pos_count (p : positive) : N :=
  match p with
  | xH => 1
  | xO q => pos_count q
  | xI q => N.succ (pos_count q)
  end.

(** The answer of [find_first] on an empty bitset, as an unsigned number. *)
Definition npos : N := 4294967295.

Definition empty : t := 0.
Definition test (s : t) (i : N) : bool := N.testbit s i.
Definition set (s : t) (i : N) : t := N.setbit s i.
Definition reset (s : t) (i : N) : t := N.clearbit s i.
Definition any (s : t) : bool := negb (s =? 0).
Definition intersect (s r : t) : t := N.land s r.
Definition intersect_with_complement (s r : t) : t := N.ldiff s r.

Definition count (s : t) : N :=
  match s with
  | N0 => 0
  | Npos p => pos_count p
  end.

Definition find_first (s : t) : option N :=
  match s with
  | N0 => None
  | Npos p => Some (pos_find_first p)
  end.

(** The idiom [for (v = s.find_first(); v != npos; v = s.find_first())
    { s.reset(v); body(v); }] over a scratch copy [s]: the loop removes one
    member per round, so [count s] rounds exhaust it. *)
Fixpoint drain {A : Type} (rounds : nat) (s : t) (body : N -> A -> A) (acc : A) : A :=
  match rounds with
  | O => acc
  | S rounds' =>
      match find_first s with
      | None => acc
      | Some i => drain rounds' (reset s i) body (body i acc)
      end
  end.

Definition for_each {A : Type} (s : t) (body : N -> A -> A) (acc : A) : A :=
  drain (N.to_nat (count s)) s body acc.

End SVOBitset.

(** ** Data model *)

(** A pair (pattern vertex, target vertex). *)
Record HomomorphismAssignment := {
  pattern_vertex : N;
  target_vertex : N
}.

(** One entry of the trail (TrailEntry in the specification). *)
Record HomomorphismAssignmentInformation := {
  assignment : HomomorphismAssignment;
  is_decision : bool;
  discrepancy_count : Z;
  choice_count : Z
}.

(** The trail [assignments.values], oldest entry first. *)
Abbreviation HomomorphismAssignments := (list HomomorphismAssignmentInformation).

Record HomomorphismDomain := {
  v : N;
  values : SVOBitset.t;
  count : N;
  fixed : bool
}.

Abbreviation Domains := (list HomomorphismDomain).

Abbreviation VertexToVertexMapping := (gmap Z Z).

Definition NamedVertex : Type := Z * list Byte.byte.

Inductive SearchResult :=
| Aborted
| Unsatisfiable
| UnsatisfiableAndBackjumpUsingLackey
| Satisfiable
| SatisfiableButKeepGoing
| Restart.

Inductive Injectivity := Injective | LocallyInjective | NonInjective.
Inductive ValueOrdering := Degree | AntiDegree | Biased | Random.
Inductive PropagateUsingLackey := Never | RootAndBackjump | Always.

(** The queries of the immutable model that the searcher consumes. *)
Record HomomorphismModel := {
  pattern_size : N;
  target_size : N;
  max_graphs : N;
  pattern_link_count : N;
  pattern_degree : N -> N -> N;
  target_degree : N -> N -> N;
  largest_target_degree : N;
  pattern_graph_row : N -> N -> SVOBitset.t;
  target_graph_row : N -> N -> SVOBitset.t;
  forward_target_graph_row : N -> SVOBitset.t;
  reverse_target_graph_row : N -> SVOBitset.t;
  pattern_adjacency_bits : N -> N -> N;
  has_edge_labels : bool;
  pattern_edge_label : N -> N -> Z;
  target_edge_label : N -> N -> Z;
  has_less_thans : bool;
  pattern_less_thans_in_convenient_order : list (N * N);
  directed : bool;
  check_extra_bigraph_constraints : VertexToVertexMapping -> bool;
  pattern_vertex_for_proof : N -> NamedVertex;
  target_vertex_for_proof : N -> NamedVertex
}.

Section Branching.

Variable model : HomomorphismModel.

(** The test of the scan: [d] replaces the current [result]. *)
Definition replaces (d : HomomorphismDomain) (result : option (nat * HomomorphismDomain)) : bool :=
  match result with
  | None => true
  | Some (_, r) =>
      (count d <? count r)
      || ((count d =? count r)
          && (pattern_degree model 0 (v r) <? pattern_degree model 0 (v d)))
  end.

(** The scan of [find_branch_domain]; the pointer [result] is the position
    of the domain in the collection, kept together with the domain it
    points to. *)
Fixpoint find_branch_domain_from (i : nat) (domains : Domains)
    (result : option (nat * HomomorphismDomain)) : option (nat * HomomorphismDomain) :=
  match domains with
  | [] => result
  | d :: rest =>
      find_branch_domain_from (S i) rest
        (if negb (fixed d) && replaces d result then Some (i, d) else result)
  end.

Definition find_branch_domain (domains : Domains) : option (nat * HomomorphismDomain) :=
  find_branch_domain_from 0 domains None.

End Branching.

(** ** Machine integers *)

(** The value of a mathematical integer stored in a signed [bits]-wide
    two's-complement integer. *)
Definition wrap_signed (bits : Z) (z : Z) : Z :=
  ((z + 2 ^ (bits - 1)) mod 2 ^ bits - 2 ^ (bits - 1))%Z.

Definition int (z : Z) : Z := wrap_signed 32 z.
Definition long_long (z : Z) : Z := wrap_signed 64 z.

(** [unsigned(z)] of a 32-bit unsigned integer. *)
Definition unsigned (z : Z) : N := Z.to_N (z mod 2 ^ 32).

(** [++n] on an [unsigned long long] counter. *)
Definition increment_counter (n : N) : N := (n + 1) mod 2 ^ 64.

(** ** Value ordering *)

(** The random source [global_rand] as the searcher uses it: drawing from
    [uniform_int_distribution<long long>(a, b)] and [std::shuffle] of a
    range. *)
Record RandomSource (RandT : Type) := {
  uniform_int_distribution : Z -> Z -> RandT -> Z * RandT;
  shuffle : list N -> RandT -> list N * RandT
}.
Arguments uniform_int_distribution {RandT}.
Arguments shuffle {RandT}.

Section StableSort.

Context {A : Type}.
Variable comp : A -> A -> bool.

(** Insertion of [val] behind an already ordered range, which is given
    last element first: [val] moves towards the front past every element
    [y] for which [comp val y] holds and stops at the first one for
    which it does not. *)
Fixpoint linear_insert (val : A) (ordered_backwards : list A) : list A :=
  match ordered_backwards with
  | [] => [val]
  | y :: before =>
      if comp val y then y :: linear_insert val before
      else val :: y :: before
  end.

(** [std::stable_sort(first, last, comp)] as the standard library runs it:
    the elements are taken in their original order, and a later element
    is placed in front of an earlier one exactly when [comp later earlier]
    answers true. *)
Definition stable_sort (range : list A) : list A :=
  reverse (fold_left (fun ordered val => linear_insert val ordered) range []).

End StableSort.

Section ValueOrdering.

Variable model : HomomorphismModel.

(** The comparator handed to [stable_sort] by [degree_sort]. *)
Definition degree_sort_comp (reverse : bool) (a b : N) : bool :=
  xorb (target_degree model 0 b <=? target_degree model 0 a) reverse.

(** [degree_sort(branch_v, branch_v_end, reverse)]; the list is the range
    [branch_v[0 .. branch_v_end)] of candidates. *)
Definition degree_sort (branch_v : list N) (reverse : bool) : list N :=
  stable_sort (degree_sort_comp reverse) branch_v.

(** [numeric_limits<long long>::digits - 18] *)
Definition sufficient_space_for_adding_up : Z := 63 - 18.

Definition expish (degree : Z) : Z :=
  let shift :=
    Z.max (int (degree - Z.of_N (largest_target_degree model)
                + sufficient_space_for_adding_up)) 0 in
  long_long (Z.shiftl 1 shift).

Definition weight (x : N) : Z := expish (Z.of_N (target_degree model 0 x)).

(** The scan "go over the list until we hit the score": [from] is the
    range [branch_v[select_element .. branch_v_end)]; the scan moves on
    only while [select_element + 1 < branch_v_end]. *)
Fixpoint select_from (from : list N) (select_element : nat) (select_score : Z) : nat :=
  match from with
  | x :: ((_ :: _) as rest) =>
      let select_score := long_long (select_score - weight x) in
      if (select_score <=? 0)%Z then select_element
      else select_from rest (S select_element) select_score
  | _ => select_element
  end.

Definition swap (branch_v : list N) (i j : nat) : list N :=
  <[i := branch_v !!! j]> (<[j := branch_v !!! i]> branch_v).

Section WithRandom.

Context {RandT : Type}.
Variable random : RandomSource RandT.

(** The rounds [start, start + 1, ...] of [softmax_shuffle].  A
    distribution over [1 .. total] with [total < 1] has no value to
    draw: the shuffle is undefined there and answers [None]. *)
Fixpoint softmax_rounds (rounds start : nat) (total : Z) (branch_v : list N)
    (global_rand : RandT) : option (list N * RandT) :=
  match rounds with
  | O => Some (branch_v, global_rand)
  | S rounds' =>
      if (total <? 1)%Z then None
      else
        let '(select_score, global_rand) :=
          uniform_int_distribution random 1 total global_rand in
        let select_element := select_from (drop start branch_v) start select_score in
        let total := long_long (total - weight (branch_v !!! select_element)) in
        softmax_rounds rounds' (S start) total (swap branch_v select_element start)
          global_rand
  end.

Definition softmax_total (branch_v : list N) : Z :=
  fold_left (fun total x => long_long (total + weight x)) branch_v 0%Z.

Definition softmax_shuffle (branch_v : list N) (global_rand : RandT)
    : option (list N * RandT) :=
  softmax_rounds (length branch_v) 0 (softmax_total branch_v) branch_v global_rand.

(** The [switch] on [params.value_ordering_heuristic]. *)
Definition order_values (heuristic : ValueOrdering) (branch_v : list N)
    (global_rand : RandT) : option (list N * RandT) :=
  match heuristic with
  | Degree => Some (degree_sort branch_v false, global_rand)
  | AntiDegree => Some (degree_sort branch_v true, global_rand)
  | Biased => softmax_shuffle branch_v global_rand
  | Random => Some (shuffle random branch_v global_rand)
  end.

End WithRandom.

End ValueOrdering.


(** ** Parameters and collaborators *)

(** The configuration consumed by the searcher.  [might_have_watches] is the
    value of the helper of that name on these parameters; the optional
    collaborators ([lackey], [proof]) are part of the search state below. *)
Record HomomorphismParams := {
  injectivity : Injectivity;
  induced : bool;
  bigraph : bool;
  count_solutions : bool;
  value_ordering_heuristic : ValueOrdering;
  propagate_using_lackey : PropagateUsingLackey;
  send_partials_to_lackey : bool;
  enumerate_callback : bool;
  might_have_watches : bool
}.

Record Nogood := { literals : list HomomorphismAssignment }.

(** The calls the searcher makes on the proof logger. *)
Inductive ProofEvent :=
| guessing (depth : Z) (branch_v val : NamedVertex)
| propagation_failure (decisions : list (Z * Z)) (branch_v val : NamedVertex)
| unit_propagating (var val : NamedVertex)
| start_level (level : Z)
| back_up_to_level (level : Z)
| forget_level (level : Z)
| incorrect_guess (decisions : list (Z * Z)) (failure : bool)
| post_solution (solution : list (NamedVertex * NamedVertex))
| out_of_guesses (decisions : list (Z * Z))
| post_restart_nogood (decisions : list (Z * Z))
| back_up_to_top.

(** What one call of the lackey's [check_solution] does when it is handed a
    deletion function: it may ask for deletions, seeing the answer to each,
    before it gives its verdict and is left in a new state. *)
Inductive LackeyRun (LackeyT : Type) :=
| Verdict (ok : bool) (after : LackeyT)
| Deletion (p t : Z) (next : bool -> LackeyRun LackeyT).
Arguments Verdict {LackeyT}.
Arguments Deletion {LackeyT}.

Fixpoint run_lackey {LackeyT S : Type} (deletion : Z -> Z -> S -> bool * S)
    (run : LackeyRun LackeyT) (s : S) : bool * LackeyT * S :=
  match run with
  | Verdict ok after => (ok, after, s)
  | Deletion p t next =>
      let '(deleted, s) := deletion p t s in
      run_lackey deletion (next deleted) s
  end.

(** The collaborators outside the searcher, each with a state of its own:
    the timeout, the restarts schedule, the lackey, the watch table with its
    nogood store, the proof logger, the random source, and the cheap
    all-different propagator. *)
Record Collaborators (TimeoutT RestartsT LackeyT WatchesT ProofT RandT : Type) := {
  should_abort : TimeoutT -> bool * TimeoutT;
  did_a_backtrack : RestartsT -> RestartsT;
  should_restart : RestartsT -> bool * RestartsT;
  (* check_solution(mapping, partial, all_solutions, {}) *)
  check_solution :
    LackeyT -> VertexToVertexMapping -> bool -> bool -> bool * LackeyT;
  (* check_solution(mapping, partial, all_solutions, deletion) *)
  check_solution_deleting :
    LackeyT -> VertexToVertexMapping -> bool -> bool -> LackeyRun LackeyT;
  (* watches.post_nogood(nogood) *)
  watches_post_nogood : WatchesT -> Nogood -> WatchesT;
  (* watches.propagate(assignment, is_unassigned, on_unit): the literals
     handed to on_unit, in order, and the table afterwards *)
  watches_propagate :
    WatchesT -> HomomorphismAssignment -> (HomomorphismAssignment -> bool) ->
    list HomomorphismAssignment * WatchesT;
  log : ProofEvent -> ProofT -> ProofT;
  cheap_all_different : N -> Domains -> option ProofT -> bool * Domains * option ProofT;
  random : RandomSource RandT
}.
Arguments should_abort {_ _ _ _ _ _}.
Arguments did_a_backtrack {_ _ _ _ _ _}.
Arguments should_restart {_ _ _ _ _ _}.
Arguments check_solution {_ _ _ _ _ _}.
Arguments check_solution_deleting {_ _ _ _ _ _}.
Arguments watches_post_nogood {_ _ _ _ _ _}.
Arguments watches_propagate {_ _ _ _ _ _}.
Arguments log {_ _ _ _ _ _}.
Arguments cheap_all_different {_ _ _ _ _ _}.
Arguments random {_ _ _ _ _ _}.

(** Everything a search call can change besides the trail and its domains:
    the collaborators' states, the counters passed by reference, and the
    mappings handed to the enumeration callback so far. *)
Record SearchState (TimeoutT RestartsT LackeyT WatchesT ProofT RandT : Type) := {
  timeout : TimeoutT;
  restarts_schedule : RestartsT;
  lackey : option LackeyT;
  watches : WatchesT;
  proof : option ProofT;
  global_rand : RandT;
  nodes : N;
  propagations : N;
  solution_count : Z;
  enumerated : list VertexToVertexMapping
}.
Arguments timeout {_ _ _ _ _ _}.
Arguments restarts_schedule {_ _ _ _ _ _}.
Arguments lackey {_ _ _ _ _ _}.
Arguments watches {_ _ _ _ _ _}.
Arguments proof {_ _ _ _ _ _}.
Arguments global_rand {_ _ _ _ _ _}.
Arguments nodes {_ _ _ _ _ _}.
Arguments propagations {_ _ _ _ _ _}.
Arguments solution_count {_ _ _ _ _ _}.
Arguments enumerated {_ _ _ _ _ _}.

(** The variables local to one call of [restarting_search] that its loop
    over the candidate values updates. *)
Module Locals.
Record t := {
  discrepancy_count : Z;
  actually_hit_a_failure : bool;
  use_lackey_for_propagation : bool
}.
End Locals.

(** How one round of the loop over the candidate values ends. *)
Inductive Round :=
| Return (result : SearchResult)
| NextValue (locals : Locals.t).

(** ** The searcher *)

Section Searcher.

Context {TimeoutT RestartsT LackeyT WatchesT ProofT RandT : Type}.

Local Abbreviation State := (SearchState TimeoutT RestartsT LackeyT WatchesT ProofT RandT).

Variable model : HomomorphismModel.
Variable params : HomomorphismParams.
Variable env : Collaborators TimeoutT RestartsT LackeyT WatchesT ProofT RandT.

(** *** Updates of the search state *)

Definition set_timeout (x : TimeoutT) (st : State) : State :=
  {| timeout := x; restarts_schedule := restarts_schedule st; lackey := lackey st;
     watches := watches st; proof := proof st; global_rand := global_rand st;
     nodes := nodes st; propagations := propagations st;
     solution_count := solution_count st; enumerated := enumerated st |}.

Definition set_restarts_schedule (x : RestartsT) (st : State) : State :=
  {| timeout := timeout st; restarts_schedule := x; lackey := lackey st;
     watches := watches st; proof := proof st; global_rand := global_rand st;
     nodes := nodes st; propagations := propagations st;
     solution_count := solution_count st; enumerated := enumerated st |}.

Definition set_lackey (x : option LackeyT) (st : State) : State :=
  {| timeout := timeout st; restarts_schedule := restarts_schedule st; lackey := x;
     watches := watches st; proof := proof st; global_rand := global_rand st;
     nodes := nodes st; propagations := propagations st;
     solution_count := solution_count st; enumerated := enumerated st |}.

Definition set_watches (x : WatchesT) (st : State) : State :=
  {| timeout := timeout st; restarts_schedule := restarts_schedule st; lackey := lackey st;
     watches := x; proof := proof st; global_rand := global_rand st;
     nodes := nodes st; propagations := propagations st;
     solution_count := solution_count st; enumerated := enumerated st |}.

Definition set_proof (x : option ProofT) (st : State) : State :=
  {| timeout := timeout st; restarts_schedule := restarts_schedule st; lackey := lackey st;
     watches := watches st; proof := x; global_rand := global_rand st;
     nodes := nodes st; propagations := propagations st;
     solution_count := solution_count st; enumerated := enumerated st |}.

Definition set_global_rand (x : RandT) (st : State) : State :=
  {| timeout := timeout st; restarts_schedule := restarts_schedule st; lackey := lackey st;
     watches := watches st; proof := proof st; global_rand := x;
     nodes := nodes st; propagations := propagations st;
     solution_count := solution_count st; enumerated := enumerated st |}.

Definition set_nodes (x : N) (st : State) : State :=
  {| timeout := timeout st; restarts_schedule := restarts_schedule st; lackey := lackey st;
     watches := watches st; proof := proof st; global_rand := global_rand st;
     nodes := x; propagations := propagations st;
     solution_count := solution_count st; enumerated := enumerated st |}.

Definition set_propagations (x : N) (st : State) : State :=
  {| timeout := timeout st; restarts_schedule := restarts_schedule st; lackey := lackey st;
     watches := watches st; proof := proof st; global_rand := global_rand st;
     nodes := nodes st; propagations := x;
     solution_count := solution_count st; enumerated := enumerated st |}.

Definition set_solution_count (x : Z) (st : State) : State :=
  {| timeout := timeout st; restarts_schedule := restarts_schedule st; lackey := lackey st;
     watches := watches st; proof := proof st; global_rand := global_rand st;
     nodes := nodes st; propagations := propagations st;
     solution_count := x; enumerated := enumerated st |}.

Definition set_enumerated (x : list VertexToVertexMapping) (st : State) : State :=
  {| timeout := timeout st; restarts_schedule := restarts_schedule st; lackey := lackey st;
     watches := watches st; proof := proof st; global_rand := global_rand st;
     nodes := nodes st; propagations := propagations st;
     solution_count := solution_count st; enumerated := x |}.

(** [if (params.proof) params.proof->event(...)] *)
Definition proof_log (event : ProofEvent) (st : State) : State :=
  match proof st with
  | Some p => set_proof (Some (log env event p)) st
  | None => st
  end.

(** *** Trail helpers *)

Definition assignments_as_proof_decisions (assignments : HomomorphismAssignments)
    : list (Z * Z) :=
  map (fun a => (Z.of_N (pattern_vertex (assignment a)),
                 Z.of_N (target_vertex (assignment a))))
    (filter (fun a => is_decision a) assignments).

Definition solution_in_proof_form (assignments : HomomorphismAssignments)
    : list (NamedVertex * NamedVertex) :=
  fold_left
    (fun solution a =>
       if existsb (fun t => unsigned (fst (fst t)) =? pattern_vertex (assignment a)) solution
       then solution
       else solution ++ [(pattern_vertex_for_proof model (pattern_vertex (assignment a)),
                          target_vertex_for_proof model (target_vertex (assignment a)))])
    assignments [].

(** [mapping.emplace(key, value)]: an existing key keeps its value. *)
Definition emplace (key value : Z) (mapping : VertexToVertexMapping)
    : VertexToVertexMapping :=
  match mapping !! key with
  | Some _ => mapping
  | None => <[key := value]> mapping
  end.

Definition expand_to_full_result (assignments : HomomorphismAssignments)
    (mapping : VertexToVertexMapping) : VertexToVertexMapping :=
  fold_left
    (fun mapping a =>
       emplace (Z.of_N (pattern_vertex (assignment a)))
               (Z.of_N (target_vertex (assignment a))) mapping)
    assignments mapping.

(** [assignments.contains(a)] *)
Definition contains (assignments : HomomorphismAssignments) (a : HomomorphismAssignment)
    : bool :=
  existsb (fun e => (pattern_vertex (assignment e) =? pattern_vertex a)
                    && (target_vertex (assignment e) =? target_vertex a)) assignments.

(** The literals [post_nogood] collects: the decisions of the trail. *)
Definition decision_literals (assignments : HomomorphismAssignments)
    : list HomomorphismAssignment :=
  map assignment (filter (fun a => is_decision a) assignments).

Definition post_nogood (assignments : HomomorphismAssignments) (st : State) : State :=
  if negb (might_have_watches params) then st
  else
    let nogood := {| literals := decision_literals assignments |} in
    let st := set_watches (watches_post_nogood env (watches st) nogood) st in
    proof_log (post_restart_nogood (assignments_as_proof_decisions assignments)) st.

Definition post_solution_nogood (assignments : HomomorphismAssignments) (st : State)
    : State :=
  let limit :=
    unsigned (Z.of_N (pattern_size model) - Z.of_N (pattern_link_count model)) in
  let nogood :=
    {| literals :=
         map assignment
           (filter (fun a => is_decision a && (pattern_vertex (assignment a) <? limit))
                   assignments) |} in
  set_watches (watches_post_nogood env (watches st) nogood) st.

(** [assignments.values.resize(n)]: shrinking drops the newest entries;
    growing would append value-initialised ones. *)
Definition resize (n : nat) (assignments : HomomorphismAssignments)
    : HomomorphismAssignments :=
  take n assignments
  ++ replicate (n - length assignments)
       {| assignment := {| pattern_vertex := 0; target_vertex := 0 |};
          is_decision := false; discrepancy_count := 0; choice_count := 0 |}.

(** *** Domains *)

Definition set_values (x : SVOBitset.t) (d : HomomorphismDomain) : HomomorphismDomain :=
  {| v := v d; values := x; count := count d; fixed := fixed d |}.

Definition set_count (x : N) (d : HomomorphismDomain) : HomomorphismDomain :=
  {| v := v d; values := values d; count := x; fixed := fixed d |}.

Definition set_fixed (x : bool) (d : HomomorphismDomain) : HomomorphismDomain :=
  {| v := v d; values := values d; count := count d; fixed := x |}.

Fixpoint copy_nonfixed_domains_and_make_assignment (domains : Domains)
    (branch_v f_v : N) : Domains :=
  match domains with
  | [] => []
  | d :: rest =>
      if fixed d then copy_nonfixed_domains_and_make_assignment rest branch_v f_v
      else
        (if v d =? branch_v
         then set_count 1 (set_values (SVOBitset.set SVOBitset.empty f_v) d)
         else d)
        :: copy_nonfixed_domains_and_make_assignment rest branch_v f_v
  end.

(** *** Simple constraints *)

(** The rule shared by the graph-pair-0 cases of the adjacency filter:
    keep the neighbours of the target vertex when the pattern vertices are
    adjacent, and only the non-neighbours when they are not and the search
    is induced. *)
Definition filter_by_row (adjacent induced_ : bool) (row x : SVOBitset.t)
    : SVOBitset.t :=
  if adjacent then SVOBitset.intersect x row
  else if induced_ then SVOBitset.intersect_with_complement x row
  else x.

(** [for (unsigned g = 1 ; g < model.max_graphs ; ++g)] *)
Definition supplemental_graphs : list N :=
  map N.of_nat (seq 1 (N.to_nat (max_graphs model) - 1)).

(** The scan over a copy of [d.values] that resets every [c] whose edge
    label differs from the wanted one. *)
Definition filter_by_label (want : Z) (got : N -> Z) (x : SVOBitset.t) : SVOBitset.t :=
  SVOBitset.for_each x
    (fun c d_values => if (got c =? want)%Z then d_values else SVOBitset.reset d_values c)
    x.

Definition propagate_adjacency_constraints (directed_ has_edge_labels_ induced_ : bool)
    (d : HomomorphismDomain) (current_assignment : HomomorphismAssignment)
    : HomomorphismDomain :=
  let p := pattern_vertex current_assignment in
  let t := target_vertex current_assignment in
  let graph_pairs_to_consider := pattern_adjacency_bits model p (v d) in
  let reverse_edge_graph_pairs_to_consider := pattern_adjacency_bits model (v d) p in
  let x := values d in
  let x :=
    if negb directed_ then
      filter_by_row (N.testbit graph_pairs_to_consider 0) induced_
        (target_graph_row model 0 t) x
    else
      let x :=
        filter_by_row (N.testbit graph_pairs_to_consider 0) induced_
          (forward_target_graph_row model t) x in
      filter_by_row (N.testbit reverse_edge_graph_pairs_to_consider 0) induced_
        (reverse_target_graph_row model t) x in
  let x :=
    fold_left
      (fun x g =>
         if N.testbit graph_pairs_to_consider g
         then SVOBitset.intersect x (target_graph_row model g t) else x)
      supplemental_graphs x in
  let x :=
    if has_edge_labels_ then
      let x :=
        if N.testbit graph_pairs_to_consider 0
        then filter_by_label (pattern_edge_label model p (v d))
               (fun c => target_edge_label model t c) x
        else x in
      if N.testbit reverse_edge_graph_pairs_to_consider 0
      then filter_by_label (pattern_edge_label model (v d) p)
             (fun c => target_edge_label model c t) x
      else x
    else x in
  set_values x d.

Definition both_in_the_neighbourhood_of_some_vertex (x w : N) : bool :=
  SVOBitset.any
    (SVOBitset.intersect (pattern_graph_row model 0 x) (pattern_graph_row model 0 w)).

(** The body of the loop of [propagate_simple_constraints] for one domain
    that is not fixed, up to the recount. *)
Definition propagate_simple_constraints_on (d : HomomorphismDomain)
    (current_assignment : HomomorphismAssignment) : HomomorphismDomain :=
  let d :=
    match injectivity params with
    | Injective =>
        set_values (SVOBitset.reset (values d) (target_vertex current_assignment)) d
    | LocallyInjective =>
        if both_in_the_neighbourhood_of_some_vertex
             (pattern_vertex current_assignment) (v d)
        then set_values (SVOBitset.reset (values d) (target_vertex current_assignment)) d
        else d
    | NonInjective => d
    end in
  let d :=
    if negb (has_edge_labels model) then
      propagate_adjacency_constraints (directed model) false (induced params)
        d current_assignment
    else
      propagate_adjacency_constraints true true (induced params) d current_assignment in
  set_count (SVOBitset.count (values d)) d.

(** The result is the answer together with the domains as the call leaves
    them; a failure stops the loop at the domain that became empty. *)
Fixpoint propagate_simple_constraints (new_domains : Domains)
    (current_assignment : HomomorphismAssignment) : bool * Domains :=
  match new_domains with
  | [] => (true, [])
  | d :: rest =>
      if fixed d then
        let '(ok, rest) := propagate_simple_constraints rest current_assignment in
        (ok, d :: rest)
      else
        let d := propagate_simple_constraints_on d current_assignment in
        if count d =? 0 then (false, d :: rest)
        else
          let '(ok, rest) := propagate_simple_constraints rest current_assignment in
          (ok, d :: rest)
  end.

Definition propagate_hyperedge_constraints (new_domains : Domains)
    (current_assignment : HomomorphismAssignment) : bool * Domains :=
  (true, new_domains).

(** *** Less-than constraints *)

(** [vector<int> find_domain(model.pattern_size, -1)] after the loop that
    records, for each domain, its position under its pattern vertex. *)
Definition find_domain_table (new_domains : Domains) : list Z :=
  fold_left
    (fun find_domain '(i, d) => <[N.to_nat (v d) := Z.of_nat i]> find_domain)
    (imap (fun i d => (i, d)) new_domains)
    (replicate (N.to_nat (pattern_size model)) (-1)%Z).

(** [find_domain[a]] *)
Definition find_domain_at (find_domain : list Z) (a : N) : Z :=
  default (-1)%Z (find_domain !! N.to_nat a).

(** The domains of both ends of a pair with their positions, or [None]
    where the loops [continue]. *)
Definition both_domains (find_domain : list Z) (new_domains : Domains) (a b : N)
    : option (nat * HomomorphismDomain * (nat * HomomorphismDomain)) :=
  if (find_domain_at find_domain a =? -1)%Z || (find_domain_at find_domain b =? -1)%Z
  then None
  else
    let ia := Z.to_nat (find_domain_at find_domain a) in
    let ib := Z.to_nat (find_domain_at find_domain b) in
    match new_domains !! ia, new_domains !! ib with
    | Some a_domain, Some b_domain => Some (ia, a_domain, (ib, b_domain))
    | _, _ => None
    end.

(** [for (v = x.find_first(); v != npos; v = x.find_first())
    { if (v >= first_allowed_b) break; x.reset(v); }] *)
Fixpoint reset_below (rounds : nat) (x : SVOBitset.t) (first_allowed_b : N)
    : SVOBitset.t :=
  match rounds with
  | O => x
  | S rounds' =>
      match SVOBitset.find_first x with
      | None => x
      | Some w =>
          if first_allowed_b <=? w then x
          else reset_below rounds' (SVOBitset.reset x w) first_allowed_b
      end
  end.

(** The first loop over the pairs: the first value of [b] must be at least
    one after the first possible value of [a]. *)
Fixpoint less_thans_first_pass (find_domain : list Z) (pairs : list (N * N))
    (new_domains : Domains) : bool * Domains :=
  match pairs with
  | [] => (true, new_domains)
  | (a, b) :: rest =>
      match both_domains find_domain new_domains a b with
      | None => less_thans_first_pass find_domain rest new_domains
      | Some (_, a_domain, (ib, b_domain)) =>
          match SVOBitset.find_first (values a_domain) with
          | None => (false, new_domains)
          | Some first_a =>
              let first_allowed_b := first_a + 1 in
              if target_size model <=? first_allowed_b then (false, new_domains)
              else
                let b_values :=
                  reset_below (N.to_nat (SVOBitset.count (values b_domain)))
                    (values b_domain) first_allowed_b in
                let b_domain :=
                  set_count (SVOBitset.count b_values) (set_values b_values b_domain) in
                let new_domains := <[ib := b_domain]> new_domains in
                if count b_domain =? 0 then (false, new_domains)
                else less_thans_first_pass find_domain rest new_domains
          end
      end
  end.

(** The scan for [last_b]: it starts from [find_first] and keeps the last
    value that a copy of the bitset yields. *)
Definition last_set (x : SVOBitset.t) : N :=
  default SVOBitset.npos
    (SVOBitset.for_each x (fun w _ => Some w) (SVOBitset.find_first x)).

(** The second loop over the pairs: the last value of [a] must be at least
    one before the last possible value of [b]. *)
Fixpoint less_thans_second_pass (find_domain : list Z) (pairs : list (N * N))
    (new_domains : Domains) : bool * Domains :=
  match pairs with
  | [] => (true, new_domains)
  | (a, b) :: rest =>
      match both_domains find_domain new_domains a b with
      | None => less_thans_second_pass find_domain rest new_domains
      | Some (ia, a_domain, (_, b_domain)) =>
          let last_b := last_set (values b_domain) in
          if last_b =? 0 then (false, new_domains)
          else
            let last_allowed_a := last_b - 1 in
            let a_values :=
              SVOBitset.for_each (values a_domain)
                (fun w a_values =>
                   if last_allowed_a <? w then SVOBitset.reset a_values w else a_values)
                (values a_domain) in
            let a_domain :=
              set_count (SVOBitset.count a_values) (set_values a_values a_domain) in
            let new_domains := <[ia := a_domain]> new_domains in
            if count a_domain =? 0 then (false, new_domains)
            else less_thans_second_pass find_domain rest new_domains
      end
  end.

Definition propagate_less_thans (new_domains : Domains) : bool * Domains :=
  let find_domain := find_domain_table new_domains in
  let pairs := pattern_less_thans_in_convenient_order model in
  let '(ok, new_domains) := less_thans_first_pass find_domain pairs new_domains in
  if negb ok then (false, new_domains)
  else less_thans_second_pass find_domain pairs new_domains.

(** *** Unit propagation *)

(** The test of [find_unit_domain]. *)
Definition is_unit_domain (d : HomomorphismDomain) : bool :=
  negb (fixed d) && (count d =? 1).

(** [find_if] over the domains: the first unit domain and its position. *)
Definition find_unit_domain (new_domains : Domains) : option (nat * HomomorphismDomain) :=
  list_find (fun d => is_unit_domain d = true) new_domains.

(** The callback handed to [watches.propagate] for a nogood that became
    unit: the first domain that is not fixed and belongs to the pattern
    vertex of [a] loses the target vertex of [a]. *)
Fixpoint on_unit_nogood (a : HomomorphismAssignment) (new_domains : Domains) : Domains :=
  match new_domains with
  | [] => []
  | d :: rest =>
      if fixed d then d :: on_unit_nogood a rest
      else if v d =? pattern_vertex a
      then set_values (SVOBitset.reset (values d) (target_vertex a)) d :: rest
      else d :: on_unit_nogood a rest
  end.

Definition propagate_watches (current_assignment : HomomorphismAssignment)
    (new_domains : Domains) (assignments : HomomorphismAssignments) (st : State)
    : Domains * State :=
  if might_have_watches params then
    let '(units, w) :=
      watches_propagate env (watches st) current_assignment
        (fun a => negb (contains assignments a)) in
    (fold_left (fun new_domains a => on_unit_nogood a new_domains) units new_domains,
     set_watches w st)
  else (new_domains, st).

(** The entry pushed for a unit propagation. *)
Definition propagated_entry (current_assignment : HomomorphismAssignment)
    : HomomorphismAssignmentInformation :=
  {| assignment := current_assignment; is_decision := false;
     discrepancy_count := -1; choice_count := -1 |}.

(** The filters run after one unit assignment, in order; the first failure
    ends them. *)
Definition propagate_constraints (current_assignment : HomomorphismAssignment)
    (new_domains : Domains) (st : State) : bool * Domains * State :=
  let '(ok, new_domains) := propagate_simple_constraints new_domains current_assignment in
  if negb ok then (false, new_domains, st)
  else
    let '(ok, new_domains) :=
      if bigraph params then propagate_hyperedge_constraints new_domains current_assignment
      else (true, new_domains) in
    if negb ok then (false, new_domains, st)
    else
      let '(ok, new_domains) :=
        if has_less_thans model then propagate_less_thans new_domains
        else (true, new_domains) in
      if negb ok then (false, new_domains, st)
      else
        match injectivity params with
        | Injective =>
            let '(ok, new_domains, p) :=
              cheap_all_different env (target_size model) new_domains (proof st) in
            (ok, new_domains, set_proof p st)
        | _ => (true, new_domains, st)
        end.

(** The loop "whilst we've got a unit domain".  Each round fixes one domain,
    so the number of rounds is bounded by the number of domains that are not
    fixed; [rounds] is the number of rounds the loop may still take, and the
    answer is [None] only when it is used up. *)
Fixpoint propagate_units (rounds : nat) (new_domains : Domains)
    (assignments : HomomorphismAssignments) (st : State)
    : option (bool * Domains * HomomorphismAssignments * State) :=
  match find_unit_domain new_domains with
  | None => Some (true, new_domains, assignments, st)
  | Some (i, branch_domain) =>
      match rounds with
      | O => None
      | S rounds' =>
          let current_assignment :=
            {| pattern_vertex := v branch_domain;
               target_vertex :=
                 default SVOBitset.npos (SVOBitset.find_first (values branch_domain)) |} in
          let new_domains := <[i := set_fixed true branch_domain]> new_domains in
          let assignments := assignments ++ [propagated_entry current_assignment] in
          let st :=
            proof_log
              (unit_propagating
                 (pattern_vertex_for_proof model (pattern_vertex current_assignment))
                 (target_vertex_for_proof model (target_vertex current_assignment))) st in
          let '(new_domains, st) :=
            propagate_watches current_assignment new_domains assignments st in
          let '(ok, new_domains, st) :=
            propagate_constraints current_assignment new_domains st in
          if negb ok then Some (false, new_domains, assignments, st)
          else propagate_units rounds' new_domains assignments st
      end
  end.

(** *** Propagation by the lackey *)

(** [--d.count] on an unsigned counter. *)
Definition decrement (n : N) : N := (n + 2 ^ 32 - 1) mod 2 ^ 32.

(** The scan of the deletion function for the first domain of pattern
    vertex [p]: [Some] of the domains after the deletion and whether the
    count dropped to zero, or [None] when nothing is deleted. *)
Fixpoint delete_value (p t : N) (new_domains : Domains) : option (Domains * bool) :=
  match new_domains with
  | [] => None
  | d :: rest =>
      if v d =? p then
        if SVOBitset.test (values d) t then
          let d := set_values (SVOBitset.reset (values d) t) d in
          let d := set_count (decrement (count d)) d in
          Some (d :: rest, count d =? 0)
        else None
      else
        match delete_value p t rest with
        | Some (rest, zero) => Some (d :: rest, zero)
        | None => None
        end
  end.

(** The lambda [deletion] of [propagate]; its state is what it captures by
    reference: the domains, [wipeout] and [dcount]. *)
Definition deletion (p t : Z) (captured : Domains * bool * Z)
    : bool * (Domains * bool * Z) :=
  let '(new_domains, wipeout, dcount) := captured in
  if negb wipeout then
    match delete_value (unsigned p) (unsigned t) new_domains with
    | Some (new_domains, zero) => (true, (new_domains, zero, int (dcount + 1)))
    | None => (false, captured)
    end
  else (false, captured).

(** The part of [propagate] after the unit-propagation loop. *)
Definition propagate_lackey (new_domains : Domains) (assignments : HomomorphismAssignments)
    (propagate_using_lackey_ : bool) (st : State) : bool * Domains * State :=
  match lackey st with
  | Some l =>
      if propagate_using_lackey_ || send_partials_to_lackey params then
        let mapping := expand_to_full_result assignments ∅ in
        if propagate_using_lackey_ then
          let '(ok, l, (new_domains, wipeout, _)) :=
            run_lackey deletion (check_solution_deleting env l mapping true false)
              (new_domains, false, 0%Z) in
          (ok && negb wipeout, new_domains, set_lackey (Some l) st)
        else
          let '(ok, l) := check_solution env l mapping true false in
          (ok, new_domains, set_lackey (Some l) st)
      else (true, new_domains, st)
  | None => (true, new_domains, st)
  end.

(** [propagate]: the unit-propagation loop (at most one round per domain),
    then the lackey.  The answer carries the domains and the trail as the
    call leaves them, also on failure. *)
Definition propagate (new_domains : Domains)
    (assignments : HomomorphismAssignments) (propagate_using_lackey_ : bool) (st : State)
    : option (bool * Domains * HomomorphismAssignments * State) :=
  match propagate_units (length new_domains) new_domains assignments st with
  | None => None
  | Some (false, new_domains, assignments, st) =>
      Some (false, new_domains, assignments, st)
  | Some (true, new_domains, assignments, st) =>
      let '(ok, new_domains, st) :=
        propagate_lackey new_domains assignments propagate_using_lackey_ st in
      Some (ok, new_domains, assignments, st)
  end.

(** *** The restarting search *)

(** What a search call answers: its result, the trail and the search state
    as it leaves them. *)
Definition Answer : Type := SearchResult * HomomorphismAssignments * State.

(** The part of [restarting_search] that handles a full assignment (no
    branch domain is left). *)
Definition solution_found (assignments : HomomorphismAssignments) (st : State)
    : SearchResult * State :=
  if bigraph params
     && negb (check_extra_bigraph_constraints model (expand_to_full_result assignments ∅))
  then (Unsatisfiable, post_solution_nogood assignments st)
  else
    let '(ok, st) :=
      match lackey st with
      | Some l =>
          let '(ok, l) :=
            check_solution env l (expand_to_full_result assignments ∅) false
              (count_solutions params) in
          (ok, set_lackey (Some l) st)
      | None => (true, st)
      end in
    if negb ok then
      (match propagate_using_lackey params with
       | RootAndBackjump => UnsatisfiableAndBackjumpUsingLackey
       | _ => Unsatisfiable
       end, st)
    else
      let st := proof_log (post_solution (solution_in_proof_form assignments)) st in
      if count_solutions params then
        let st := set_solution_count (solution_count st + 1)%Z st in
        let st := if bigraph params then post_solution_nogood assignments st else st in
        let st :=
          if enumerate_callback params
          then set_enumerated (enumerated st ++ [expand_to_full_result assignments ∅]) st
          else st in
        (SatisfiableButKeepGoing, st)
      else (Satisfiable, st).

(** "pull out the remaining values in this domain for branching": the range
    [branch_v[0 .. branch_v_end)]. *)
Definition remaining_values (branch_domain : HomomorphismDomain) : list N :=
  SVOBitset.for_each (values branch_domain) (fun f_v branch_v => branch_v ++ [f_v]) [].

(** The decision pushed for candidate [f_v]. *)
Definition decision_entry (branch_domain : HomomorphismDomain) (f_v : N)
    (discrepancy_count_ : Z) (branch_v_end : nat) : HomomorphismAssignmentInformation :=
  {| assignment := {| pattern_vertex := v branch_domain; target_vertex := f_v |};
     is_decision := true;
     discrepancy_count := discrepancy_count_;
     choice_count := int (Z.of_nat branch_v_end) |}.

(** "post nogoods for everything we've done so far": for each candidate
    before the current one, push a marker decision, post the nogood of the
    trail, pop the marker. *)
Definition post_nogoods_for_tried (branch_domain : HomomorphismDomain) (tried : list N)
    (assignments : HomomorphismAssignments) (st : State)
    : HomomorphismAssignments * State :=
  fold_left
    (fun '(assignments, st) l =>
       let assignments :=
         assignments
         ++ [{| assignment := {| pattern_vertex := v branch_domain; target_vertex := l |};
                is_decision := true; discrepancy_count := -2; choice_count := -2 |}] in
       let st := post_nogood assignments st in
       (removelast assignments, st))
    tried (assignments, st).

(** The trail and the domains handed to [propagate] for candidate [f_v], and
    what [propagate] answers. *)
Definition decide_and_propagate (domains : Domains) (branch_domain : HomomorphismDomain)
    (branch_v_end : nat) (depth : Z) (f_v : N) (locals : Locals.t)
    (assignments : HomomorphismAssignments) (st : State)
    : option (bool * Domains * HomomorphismAssignments * State) :=
  let st :=
    proof_log
      (guessing depth (pattern_vertex_for_proof model (v branch_domain))
         (target_vertex_for_proof model f_v)) st in
  let assignments :=
    assignments
    ++ [decision_entry branch_domain f_v (Locals.discrepancy_count locals) branch_v_end] in
  let new_domains :=
    copy_nonfixed_domains_and_make_assignment domains (v branch_domain) f_v in
  let st := set_propagations (increment_counter (propagations st)) st in
  propagate new_domains assignments
    (Locals.use_lackey_for_propagation locals
     || match propagate_using_lackey params with Always => true | _ => false end)
    st.

Section Frame.

(** The recursive call, as the frame sees it; [None] stands for a call that
    was cut off. *)
Variable restarting_search_ :
  HomomorphismAssignments -> Domains -> Z -> State -> option Answer.

Variable domains : Domains.
Variable branch_domain : HomomorphismDomain.
Variable branch_v_end : nat.
Variable depth : Z.

(** One round of the loop "for each value remaining": [tried] are the
    candidates in front of the iterator, [f_v] is the one it points to. *)
Definition try_value (tried : list N) (f_v : N) (locals : Locals.t)
    (assignments : HomomorphismAssignments) (st : State)
    : option (Round * HomomorphismAssignments * State) :=
  let assignments_size := length assignments in
  match decide_and_propagate domains branch_domain branch_v_end depth f_v locals
          assignments st with
  | None => None
  | Some (false, _, assignments, st) =>
      let st :=
        proof_log
          (propagation_failure (assignments_as_proof_decisions assignments)
             (pattern_vertex_for_proof model (v branch_domain))
             (target_vertex_for_proof model f_v)) st in
      Some (NextValue
              {| Locals.discrepancy_count := Locals.discrepancy_count locals;
                 Locals.actually_hit_a_failure := true;
                 Locals.use_lackey_for_propagation :=
                   Locals.use_lackey_for_propagation locals |},
            resize assignments_size assignments, st)
  | Some (true, new_domains, assignments, st) =>
      let st := proof_log (start_level (int (depth + 2))) st in
      match restarting_search_ assignments new_domains (int (depth + 1)) st with
      | None => None
      | Some (search_result, assignments, st) =>
          let backtrack (failure : bool) (st : State) : State :=
            proof_log (forget_level (int (depth + 2)))
              (proof_log
                 (incorrect_guess (assignments_as_proof_decisions assignments) failure)
                 (proof_log (back_up_to_level (int (depth + 1))) st)) in
          match search_result with
          | Satisfiable => Some (Return Satisfiable, assignments, st)
          | Aborted => Some (Return Aborted, assignments, st)
          | Restart =>
              let assignments := resize assignments_size assignments in
              let '(assignments, st) :=
                post_nogoods_for_tried branch_domain tried assignments st in
              Some (Return Restart, assignments, st)
          | SatisfiableButKeepGoing =>
              Some (NextValue
                      {| Locals.discrepancy_count :=
                           int (Locals.discrepancy_count locals + 1);
                         Locals.actually_hit_a_failure :=
                           Locals.actually_hit_a_failure locals;
                         Locals.use_lackey_for_propagation :=
                           Locals.use_lackey_for_propagation locals |},
                    resize assignments_size assignments, backtrack false st)
          | UnsatisfiableAndBackjumpUsingLackey =>
              Some (NextValue
                      {| Locals.discrepancy_count :=
                           int (Locals.discrepancy_count locals + 1);
                         Locals.actually_hit_a_failure := true;
                         Locals.use_lackey_for_propagation := true |},
                    resize assignments_size assignments, backtrack true st)
          | Unsatisfiable =>
              Some (NextValue
                      {| Locals.discrepancy_count :=
                           int (Locals.discrepancy_count locals + 1);
                         Locals.actually_hit_a_failure := true;
                         Locals.use_lackey_for_propagation :=
                           Locals.use_lackey_for_propagation locals |},
                    resize assignments_size assignments, backtrack true st)
          end
      end
  end.

(** "no values remaining, backtrack, or possibly kick off a restart" *)
Definition out_of_values (locals : Locals.t) (assignments : HomomorphismAssignments)
    (st : State) : Answer :=
  let st := proof_log (out_of_guesses (assignments_as_proof_decisions assignments)) st in
  let st :=
    if Locals.actually_hit_a_failure locals
    then set_restarts_schedule (did_a_backtrack env (restarts_schedule st)) st
    else st in
  let '(restart, schedule) := should_restart env (restarts_schedule st) in
  let st := set_restarts_schedule schedule st in
  if restart then
    let st := proof_log back_up_to_top st in
    (Restart, assignments, post_nogood assignments st)
  else
    (if Locals.use_lackey_for_propagation locals
     then UnsatisfiableAndBackjumpUsingLackey else Unsatisfiable,
     assignments, st).

(** The loop over the candidates from the iterator on, then the code after
    the loop. *)
Fixpoint try_values (tried remaining : list N) (locals : Locals.t)
    (assignments : HomomorphismAssignments) (st : State) : option Answer :=
  match remaining with
  | [] => Some (out_of_values locals assignments st)
  | f_v :: rest =>
      match try_value tried f_v locals assignments st with
      | None => None
      | Some (Return result, assignments, st) => Some (result, assignments, st)
      | Some (NextValue locals, assignments, st) =>
          try_values (tried ++ [f_v]) rest locals assignments st
      end
  end.

End Frame.

(** [restarting_search]; [frames] bounds the number of nested calls (every
    call below the first works on domains of which at least one more is
    fixed).  [None] is the answer of a call that ran out of frames, or whose
    candidates could not be put in order because the biased shuffle is not
    defined on them. *)
Fixpoint restarting_search (frames : nat) (assignments : HomomorphismAssignments)
    (domains : Domains) (depth : Z) (st : State) : option Answer :=
  match frames with
  | O => None
  | S frames' =>
      let '(abort, t) := should_abort env (timeout st) in
      let st := set_timeout t st in
      if abort then Some (Aborted, assignments, st)
      else
        let st := set_nodes (increment_counter (nodes st)) st in
        match find_branch_domain model domains with
        | None =>
            let '(result, st) := solution_found assignments st in
            Some (result, assignments, st)
        | Some (_, branch_domain) =>
            match
              order_values model (random env) (value_ordering_heuristic params)
                (remaining_values branch_domain) (global_rand st)
            with
            | None => None
            | Some (branch_v, rand) =>
                let st := set_global_rand rand st in
                try_values (restarting_search frames') domains branch_domain
                  (length branch_v) depth [] branch_v
                  {| Locals.discrepancy_count := 0;
                     Locals.actually_hit_a_failure := false;
                     Locals.use_lackey_for_propagation := false |}
                  assignments st
            end
        end
  end.

End Searcher.

(** ** Notions used to state the properties *)

(** [r], found at position [k], is at least as good a choice as [e] at
    position [j]: no larger a count, on equal counts no smaller a pattern
    degree, and on equal counts and degrees no later a position. *)
Definition preferred (model : HomomorphismModel) (k : nat) (r : HomomorphismDomain) (j : nat) (e : HomomorphismDomain)
    : Prop :=
  count r <= count e
  /\ (count e = count r ->
      pattern_degree model 0 (v e) <= pattern_degree model 0 (v r))
  /\ (count e = count r ->
      pattern_degree model 0 (v e) = pattern_degree model 0 (v r) -> (k <= j)%nat).

(** What the scan has established once it has gone through [seen]. *)
Definition scanned (model : HomomorphismModel) (seen : Domains) (result : option (nat * HomomorphismDomain)) : Prop :=
  match result with
  | None => Forall (fun d => fixed d = true) seen
  | Some (k, r) =>
      seen !! k = Some r /\ fixed r = false
      /\ forall j e, seen !! j = Some e -> fixed e = false -> preferred model k r j e
  end.


(** Along the list the target degrees do not grow ([descending]), do not
    shrink ([ascending]). *)
Definition descending (model : HomomorphismModel) : list N -> Prop :=
  StronglySorted (fun x y => target_degree model 0 y <= target_degree model 0 x).
Definition ascending (model : HomomorphismModel) : list N -> Prop :=
  StronglySorted (fun x y => target_degree model 0 x <= target_degree model 0 y).

(** The sum of the weights of a range, as a mathematical integer. *)
Definition sum_of_weights (model : HomomorphismModel) (range : list N) : Z :=
  fold_right (fun x total => (weight model x + total)%Z) 0%Z range.

(** The model is consistent on a range of target vertices: none has a
    degree above [largest_target_degree]. *)
Definition degrees_bounded (model : HomomorphismModel) (range : list N) : Prop :=
  Forall (fun x => target_degree model 0 x <= largest_target_degree model) range.

(** The shape of a trail entry pushed by unit propagation. *)
Definition is_propagated (e : HomomorphismAssignmentInformation) : Prop :=
  is_decision e = false /\ discrepancy_count e = (-1)%Z /\ choice_count e = (-1)%Z.

(** The number of domains marked as fixed. *)
Definition fixed_count (domains : Domains) : nat :=
  length (filter (fun d => fixed d = true) domains).

(** The trail entry [e] is the unit assignment committed for the domain at
    position [i]: that domain was not fixed in [new_domains] and is fixed in
    [new_domains'], and [e] is a non-decision with both counts -1 that
    assigns the pattern vertex of the domain one of its values (or [npos],
    when the domain had run out of values under a count of 1). *)
Definition committed (new_domains new_domains' : Domains)
    (e : HomomorphismAssignmentInformation) (i : nat) : Prop :=
  exists d d',
    new_domains !! i = Some d /\ new_domains' !! i = Some d'
    /\ fixed d = false /\ fixed d' = true
    /\ is_propagated e
    /\ pattern_vertex (assignment e) = v d
    /\ (SVOBitset.test (values d) (target_vertex (assignment e)) = true
        \/ target_vertex (assignment e) = SVOBitset.npos).

Section FrameNotions.

Context {TimeoutT RestartsT LackeyT WatchesT ProofT RandT : Type}.

Local Abbreviation State := (SearchState TimeoutT RestartsT LackeyT WatchesT ProofT RandT).

(** A search call only appends to the trail it is given, and hands back
    that very trail unless it answers [Satisfiable] or [Aborted]. *)
Definition keeps_trail
    (search : HomomorphismAssignments -> Domains -> Z -> State ->
              option (SearchResult * HomomorphismAssignments * State)) : Prop :=
  forall assignments domains depth st result assignments' st',
    search assignments domains depth st = Some (result, assignments', st') ->
    exists extra,
      assignments' = assignments ++ extra
      /\ (result <> Satisfiable -> result <> Aborted -> extra = []).

End FrameNotions.

Section LoopNotions.

Context {TimeoutT RestartsT LackeyT WatchesT ProofT RandT : Type}.

Local Abbreviation State := (SearchState TimeoutT RestartsT LackeyT WatchesT ProofT RandT).

Variable model : HomomorphismModel.
Variable params : HomomorphismParams.
Variable env : Collaborators TimeoutT RestartsT LackeyT WatchesT ProofT RandT.

(** The state in which a call that branches enters the loop over its
    candidates: the timeout was asked, the node was counted and the random
    generator is as the ordering of the candidates left it. *)
Definition loop_entry (st : State) (rand : RandT) : State :=
  let st := set_timeout (should_abort env (timeout st)).2 st in
  let st := set_nodes (increment_counter (nodes st)) st in
  set_global_rand rand st.

Variable restarting_search_ :
  HomomorphismAssignments -> Domains -> Z -> State ->
  option (SearchResult * HomomorphismAssignments * State).
Variable domains : Domains.
Variable branch_domain : HomomorphismDomain.
Variable branch_v_end : nat.
Variable depth : Z.
Variable assignments0 : HomomorphismAssignments.
Variable st0 : State.

(** The states in which the loop over the candidate values of one call
    starts a round: [round_reached tried recursed locals assignments st]
    says that the loop, entered with trail [assignments0] in state [st0],
    has gone through the candidates [tried], of which [recursed] passed
    propagation (and so were searched below), and now holds [locals],
    [assignments] and [st]. *)
Inductive round_reached :
  list N -> nat -> Locals.t -> HomomorphismAssignments -> State -> Prop :=
| reached_first :
    round_reached [] 0
      {| Locals.discrepancy_count := 0;
         Locals.actually_hit_a_failure := false;
         Locals.use_lackey_for_propagation := false |}
      assignments0 st0
| reached_next tried recursed locals assignments st f_v
      ok new_domains assignments1 st1 locals' assignments' st' :
    round_reached tried recursed locals assignments st ->
    decide_and_propagate model params env domains branch_domain branch_v_end depth f_v
      locals assignments st = Some (ok, new_domains, assignments1, st1) ->
    try_value model params env restarting_search_ domains branch_domain branch_v_end
      depth tried f_v locals assignments st = Some (NextValue locals', assignments', st') ->
    round_reached (tried ++ [f_v]) (if ok then S recursed else recursed)
      locals' assignments' st'.

(** The lackey step of [propagate] the way the specification words it: when
    a lackey is configured and the frame asked for lackey propagation or
    partials are sent, [check_solution] is called with the deletion
    function. *)
Definition propagate_lackey_as_specified (new_domains : Domains)
    (assignments : HomomorphismAssignments) (propagate_using_lackey_ : bool) (st : State)
    : bool * Domains * State :=
  match lackey st with
  | Some l =>
      if propagate_using_lackey_ || send_partials_to_lackey params then
        let '(ok, l, (new_domains, wipeout, _)) :=
          run_lackey deletion
            (check_solution_deleting env l (expand_to_full_result assignments ∅) true false)
            (new_domains, false, 0%Z) in
        (ok && negb wipeout, new_domains, set_lackey (Some l) st)
      else (true, new_domains, st)
  | None => (true, new_domains, st)
  end.

End LoopNotions.

(** *** The less-than propagator in the words of the specification *)

(** The domain of pattern vertex [a] and its position, if it is present. *)
Definition domain_of (new_domains : Domains) (a : N) : option (nat * HomomorphismDomain) :=
  list_find (fun d => v d = a) new_domains.

(** [x] without every value less than or equal to [bound]. *)
Definition without_values_up_to (bound : N) (x : SVOBitset.t) : SVOBitset.t :=
  N.ldiff x (N.ones (N.succ bound)).

(** [x] without every value greater than [bound]. *)
Definition without_values_above (bound : N) (x : SVOBitset.t) : SVOBitset.t :=
  N.land x (N.ones (N.succ bound)).

(** The highest set value of a bitset that is not empty. *)
Definition highest_set (x : SVOBitset.t) : N := N.log2 x.

(** The domain with new values and the count updated. *)
Definition tightened (x : SVOBitset.t) (d : HomomorphismDomain) : HomomorphismDomain :=
  set_count (SVOBitset.count x) (set_values x d).

(** First pass, tighten b below: for each pair with both domains present,
    [first_a] is the first set value of a (fail if empty); every value less
    than or equal to [first_a] is removed from b; fail if b becomes
    empty.  Pairs with an absent end are skipped. *)
Fixpoint tighten_b_below (pairs : list (N * N)) (new_domains : Domains) : bool * Domains :=
  match pairs with
  | [] => (true, new_domains)
  | (a, b) :: rest =>
      match domain_of new_domains a, domain_of new_domains b with
      | Some (_, a_domain), Some (ib, b_domain) =>
          match SVOBitset.find_first (values a_domain) with
          | None => (false, new_domains)
          | Some first_a =>
              let b_values := without_values_up_to first_a (values b_domain) in
              let new_domains := <[ib := tightened b_values b_domain]> new_domains in
              if SVOBitset.count b_values =? 0 then (false, new_domains)
              else tighten_b_below rest new_domains
          end
      | _, _ => tighten_b_below rest new_domains
      end
  end.

(** Second pass, tighten a above: [last_b] is the highest set value of b;
    fail if it is 0; every value greater than [last_b - 1] is removed from
    a; fail if a becomes empty. *)
Fixpoint tighten_a_above (pairs : list (N * N)) (new_domains : Domains) : bool * Domains :=
  match pairs with
  | [] => (true, new_domains)
  | (a, b) :: rest =>
      match domain_of new_domains a, domain_of new_domains b with
      | Some (ia, a_domain), Some (_, b_domain) =>
          let last_b := highest_set (values b_domain) in
          if last_b =? 0 then (false, new_domains)
          else
            let a_values := without_values_above (last_b - 1) (values a_domain) in
            let new_domains := <[ia := tightened a_values a_domain]> new_domains in
            if SVOBitset.count a_values =? 0 then (false, new_domains)
            else tighten_a_above rest new_domains
      | _, _ => tighten_a_above rest new_domains
      end
  end.

Definition propagate_less_thans_as_specified (model : HomomorphismModel)
    (new_domains : Domains) : bool * Domains :=
  let pairs := pattern_less_thans_in_convenient_order model in
  let '(ok, new_domains) := tighten_b_below pairs new_domains in
  if negb ok then (false, new_domains) else tighten_a_above pairs new_domains.

(** The domains are those of distinct pattern vertices of the model, and
    their values are target vertices of the model. *)
Definition well_formed (model : HomomorphismModel) (new_domains : Domains) : Prop :=
  NoDup (map v new_domains)
  /\ Forall (fun d => v d < pattern_size model) new_domains
  /\ Forall (fun d => values d < 2 ^ target_size model) new_domains.

(** Every domain that is not empty in [new_domains] is still there, and
    still not empty, in [new_domains']. *)
Definition stays_nonempty (new_domains new_domains' : Domains) : Prop :=
  forall i d, new_domains !! i = Some d -> values d <> 0 ->
    exists d', new_domains' !! i = Some d' /\ values d' <> 0.

(** For every pair whose two domains are present, the domain of the upper
    end is not empty. *)
Definition upper_ends_nonempty (pairs : list (N * N)) (new_domains : Domains) : Prop :=
  forall a b, (a, b) ∈ pairs ->
    forall ia a_domain ib b_domain,
      domain_of new_domains a = Some (ia, a_domain) ->
      domain_of new_domains b = Some (ib, b_domain) ->
      values b_domain <> 0.

(** *** Notions for the filters of propagation *)

(** The count of a domain is the number of its values. *)
Definition count_matches (d : HomomorphismDomain) : Prop :=
  count d = SVOBitset.count (values d).

(** The target vertex [c] is allowed by a row of the target graph: it is in
    the row where the pattern vertices are adjacent, and it is not where
    they are not adjacent and the search is induced. *)
Definition allowed_by_row (adjacent induced_ : bool) (row : SVOBitset.t) (c : N) : Prop :=
  if adjacent then SVOBitset.test row c = true
  else if induced_ then SVOBitset.test row c = false
  else True.

(** Sending the pattern vertex [w] to the target vertex [c] agrees with the
    assignment [a] as far as adjacency goes: on the first graph pair (in
    both directions where edges are directed), on every further graph pair
    in which the pattern vertices are adjacent, and on the labels of the
    edges between them. *)
Definition adjacency_consistent (model : HomomorphismModel)
    (directed_ has_edge_labels_ induced_ : bool) (a : HomomorphismAssignment) (w c : N)
    : Prop :=
  let p := pattern_vertex a in
  let t := target_vertex a in
  (if directed_ then
     allowed_by_row (N.testbit (pattern_adjacency_bits model p w) 0) induced_
       (forward_target_graph_row model t) c
     /\ allowed_by_row (N.testbit (pattern_adjacency_bits model w p) 0) induced_
          (reverse_target_graph_row model t) c
   else
     allowed_by_row (N.testbit (pattern_adjacency_bits model p w) 0) induced_
       (target_graph_row model 0 t) c)
  /\ (forall g, 1 <= g < max_graphs model ->
        N.testbit (pattern_adjacency_bits model p w) g = true ->
        SVOBitset.test (target_graph_row model g t) c = true)
  /\ (has_edge_labels_ = true ->
      (N.testbit (pattern_adjacency_bits model p w) 0 = true ->
       target_edge_label model t c = pattern_edge_label model p w)
      /\ (N.testbit (pattern_adjacency_bits model w p) 0 = true ->
          target_edge_label model c t = pattern_edge_label model w p)).

(** Two pattern vertices have a common neighbour in the first pattern
    graph. *)
Definition share_a_neighbour (model : HomomorphismModel) (x w : N) : Prop :=
  exists u,
    SVOBitset.test (pattern_graph_row model 0 x) u = true
    /\ SVOBitset.test (pattern_graph_row model 0 w) u = true.

(** Sending [w] to [c] agrees with the assignment [a] under the injectivity
    asked for and as far as adjacency goes. *)
Definition simple_consistent (model : HomomorphismModel) (params : HomomorphismParams)
    (a : HomomorphismAssignment) (w c : N) : Prop :=
  match injectivity params with
  | Injective => c <> target_vertex a
  | LocallyInjective => share_a_neighbour model (pattern_vertex a) w -> c <> target_vertex a
  | NonInjective => True
  end
  /\ adjacency_consistent model
       (if has_edge_labels model then true else directed model)
       (has_edge_labels model) (induced params) a w c.

(** [new_domains'] are [new_domains] with values taken away: the same
    pattern vertices in the same order, and no domain with a value that it
    did not have. *)
Definition shrinks (new_domains new_domains' : Domains) : Prop :=
  Forall2
    (fun d d' =>
       v d' = v d
       /\ forall c, SVOBitset.test (values d') c = true -> SVOBitset.test (values d) c = true)
    new_domains new_domains'.

(** *** Notions for the answers of the search *)

Section AnswerNotions.

Context {TimeoutT RestartsT LackeyT WatchesT ProofT RandT : Type}.

Local Abbreviation State := (SearchState TimeoutT RestartsT LackeyT WatchesT ProofT RandT).

Variable params : HomomorphismParams.
Variable env : Collaborators TimeoutT RestartsT LackeyT WatchesT ProofT RandT.

(** What has to be the case for a search to give an answer: the timeout
    says abort in some state for [Aborted], the restarts schedule says
    restart in some state for [Restart], solutions are not counted for
    [Satisfiable] and are counted for [SatisfiableButKeepGoing], and
    backjumping with the lackey is asked for for
    [UnsatisfiableAndBackjumpUsingLackey]. *)
Definition answer_cause (result : SearchResult) : Prop :=
  match result with
  | Aborted => exists t, (should_abort env t).1 = true
  | Restart => exists s, (should_restart env s).1 = true
  | Satisfiable => count_solutions params = false
  | SatisfiableButKeepGoing => count_solutions params = true
  | UnsatisfiableAndBackjumpUsingLackey => propagate_using_lackey params = RootAndBackjump
  | Unsatisfiable => True
  end.

(** Nothing was counted or enumerated between [st] and [st']. *)
Definition keeps_tally (st st' : State) : Prop :=
  solution_count st' = solution_count st /\ enumerated st' = enumerated st.

(** Between [st] and [st'], [n] solutions were counted, and the enumeration
    callback was called for each of them if there is one. *)
Definition tally (st st' : State) (n : nat) : Prop :=
  solution_count st' = (solution_count st + Z.of_nat n)%Z
  /\ exists new,
       enumerated st' = enumerated st ++ new
       /\ length new = if enumerate_callback params then n else 0%nat.

End AnswerNotions.

(** *** Notions for the trail of a solution *)

(** The entry [e] of the trail assigns the pattern vertex of the domain [d]
    one of the values of [d]. *)
Definition entry_of (d : HomomorphismDomain) (e : HomomorphismAssignmentInformation)
    : Prop :=
  pattern_vertex (assignment e) = v d
  /\ SVOBitset.test (values d) (target_vertex (assignment e)) = true.

(** Every value of every domain that is not fixed agrees with every
    propagated assignment of the trail. *)
Definition respects (model : HomomorphismModel) (params : HomomorphismParams)
    (assignments : HomomorphismAssignments) (domains : Domains) : Prop :=
  forall e d c,
    e ∈ assignments -> is_decision e = false ->
    d ∈ domains -> fixed d = false -> SVOBitset.test (values d) c = true ->
    simple_consistent model params (assignment e) (v d) c.

(** Among the propagated entries of a trail, every later one agrees with
    every earlier one. *)
Definition later_agree (model : HomomorphismModel) (params : HomomorphismParams)
    (entries : HomomorphismAssignments) : Prop :=
  forall i j e1 e2,
    entries !! i = Some e1 -> entries !! j = Some e2 -> (i < j)%nat ->
    is_decision e1 = false -> is_decision e2 = false ->
    simple_consistent model params (assignment e1)
      (pattern_vertex (assignment e2)) (target_vertex (assignment e2)).

(** [new_domains'] are [new_domains] with values taken away and nothing
    else changed but the counts. *)
Definition narrows (new_domains new_domains' : Domains) : Prop :=
  Forall2
    (fun d d' =>
       v d' = v d /\ fixed d' = fixed d
       /\ forall c, SVOBitset.test (values d') c = true -> SVOBitset.test (values d) c = true)
    new_domains new_domains'.

(** [d'] is [d] with values taken away and possibly fixed since, by one of
    the entries [pushed]. *)
Definition fixed_by (pushed : HomomorphismAssignments) (d d' : HomomorphismDomain) : Prop :=
  v d' = v d
  /\ (forall c, SVOBitset.test (values d') c = true -> SVOBitset.test (values d) c = true)
  /\ (fixed d = true -> fixed d' = true)
  /\ (fixed d' = true ->
      fixed d = true \/ exists e, e ∈ pushed /\ is_decision e = false /\ entry_of d e).

(** *** Saving a result *)

(** The two fields of the result that [save_result] writes: the mapping and
    the lines of further statistics. *)
Record HomomorphismResult := {
  mapping : VertexToVertexMapping;
  extra_stats : list string
}.

(** [std::to_string] of an [int]: the decimal digits, after a minus sign
    for a negative number. *)
Definition to_string (z : Z) : string := pretty z.

(** The line of statistics for a trail: the discrepancy count and the
    choice count of every entry, oldest first. *)
Definition where_line (assignments : HomomorphismAssignments) : string :=
  fold_left
    (fun where_ a =>
       where_ +:+ (((" " +:+ to_string (discrepancy_count a)) +:+ "/")
                   +:+ to_string (choice_count a)))
    assignments "where =".

Definition save_result (assignments : HomomorphismAssignments)
    (result : HomomorphismResult) : HomomorphismResult :=
  {| mapping := expand_to_full_result assignments (mapping result);
     extra_stats := extra_stats result ++ [where_line assignments] |}.

(** *** Notions for the line of statistics *)

(** Every character of a string satisfies [P]. *)
Fixpoint all_chars (P : ascii -> Prop) (s : string) : Prop :=
  match s with
  | EmptyString => True
  | String c rest => P c /\ all_chars P rest
  end.

(** The characters of a rendered number. *)
Definition numeral_char (c : ascii) : Prop :=
  c <> " "%char /\ c <> "/"%char.

(** A string that is empty or starts with the character [c]. *)
Definition stops_at (c : ascii) (s : string) : Prop :=
  s = EmptyString \/ exists rest, s = String c rest.

(** What one entry of the trail adds to the line. *)
Definition where_piece (a : HomomorphismAssignmentInformation) : string :=
  ((" " +:+ to_string (discrepancy_count a)) +:+ "/") +:+ to_string (choice_count a).

(** What the entries of a trail add to the line. *)
Definition where_pieces (assignments : HomomorphismAssignments) : string :=
  foldr (fun a rest => where_piece a +:+ rest) EmptyString assignments.

(** ** Small instances

    Concrete models, parameters and collaborators on which the properties
    below are exercised. *)

Module Scenario.

(** A target graph on the vertices 0, 1, 2 with the single edge 1 - 2, and a
    pattern whose distinct vertices are pairwise adjacent ([adjacent]) or
    pairwise non-adjacent, with the given less-than pairs. *)
Definition model (adjacent : bool) (less_thans : list (N * N)) : HomomorphismModel :=
  {| pattern_size := 3;
     target_size := 3;
     max_graphs := 1;
     pattern_link_count := 0;
     pattern_degree := fun _ _ => if adjacent then 1 else 0;
     target_degree := fun _ t => if t =? 0 then 0 else 1;
     largest_target_degree := 1;
     pattern_graph_row := fun _ _ => 0;
     target_graph_row := fun _ t => if t =? 1 then 4 else if t =? 2 then 2 else 0;
     forward_target_graph_row := fun t => if t =? 1 then 4 else if t =? 2 then 2 else 0;
     reverse_target_graph_row := fun t => if t =? 1 then 4 else if t =? 2 then 2 else 0;
     pattern_adjacency_bits := fun p q => if adjacent && negb (p =? q) then 1 else 0;
     has_edge_labels := false;
     pattern_edge_label := fun _ _ => 0%Z;
     target_edge_label := fun _ _ => 0%Z;
     has_less_thans := match less_thans with [] => false | _ => true end;
     pattern_less_thans_in_convenient_order := less_thans;
     directed := false;
     check_extra_bigraph_constraints := fun _ => true;
     pattern_vertex_for_proof := fun p => (Z.of_N p, []);
     target_vertex_for_proof := fun t => (Z.of_N t, []) |}.

(** A cycle on [2 ^ 18] target vertices: every vertex has degree 2. *)
Definition cycle : HomomorphismModel :=
  {| pattern_size := 1;
     target_size := 262144;
     max_graphs := 1;
     pattern_link_count := 0;
     pattern_degree := fun _ _ => 0;
     target_degree := fun _ _ => 2;
     largest_target_degree := 2;
     pattern_graph_row := fun _ _ => 0;
     target_graph_row := fun _ _ => 0;
     forward_target_graph_row := fun _ => 0;
     reverse_target_graph_row := fun _ => 0;
     pattern_adjacency_bits := fun _ _ => 0;
     has_edge_labels := false;
     pattern_edge_label := fun _ _ => 0%Z;
     target_edge_label := fun _ _ => 0%Z;
     has_less_thans := false;
     pattern_less_thans_in_convenient_order := [];
     directed := false;
     check_extra_bigraph_constraints := fun _ => true;
     pattern_vertex_for_proof := fun p => (Z.of_N p, []);
     target_vertex_for_proof := fun t => (Z.of_N t, []) |}.

(** The [n] vertices from [first] on, in order. *)
Fixpoint vertices_from (n : nat) (first : N) : list N :=
  match n with
  | O => []
  | S n' => first :: vertices_from n' (N.succ first)
  end.

(** All the vertices of the cycle, in order. *)
Definition cycle_vertices : list N := vertices_from (N.to_nat 262144) 0.

(** Non-injective, non-induced search with the [AntiDegree] ordering. *)
Definition params (count_solutions_ send_partials_to_lackey_ : bool) : HomomorphismParams :=
  {| injectivity := NonInjective;
     induced := false;
     bigraph := false;
     count_solutions := count_solutions_;
     value_ordering_heuristic := AntiDegree;
     propagate_using_lackey := Never;
     send_partials_to_lackey := send_partials_to_lackey_;
     enumerate_callback := false;
     might_have_watches := true |}.

(** Collaborators that count their calls: the timeout says abort from its
    call number [abort_at] on, the restarts schedule says restart from its
    call number [restart_at] on (both counted from 0); the watch table is
    the list of the nogoods posted, oldest first, and never finds a unit
    nogood; the lackey accepts everything and, handed a deletion function,
    follows [script]; the all-different propagator does nothing. *)
Definition env (abort_at restart_at : nat) (script : LackeyRun unit)
    : Collaborators nat (nat * nat) unit (list Nogood) (list ProofEvent) unit :=
  {| should_abort := fun calls => ((abort_at <=? calls)%nat, S calls);
     did_a_backtrack := fun '(backtracks, calls) => (S backtracks, calls);
     should_restart :=
       fun '(backtracks, calls) => ((restart_at <=? calls)%nat, (backtracks, S calls));
     check_solution := fun l _ _ _ => (true, l);
     check_solution_deleting := fun _ _ _ _ => script;
     watches_post_nogood := fun w nogood => w ++ [nogood];
     watches_propagate := fun w _ _ => ([], w);
     log := fun event p => p ++ [event];
     cheap_all_different := fun _ new_domains p => (true, new_domains, p);
     random :=
       {| uniform_int_distribution := fun a _ rand => (a, rand);
          shuffle := fun range rand => (range, rand) |} |}.

Definition state_with (lackey_ : option unit) (timeout_ : nat) (restarts_ : nat * nat)
    (watches_ : list Nogood) (nodes_ propagations_ : N) (solution_count_ : Z)
    : SearchState nat (nat * nat) unit (list Nogood) (list ProofEvent) unit :=
  {| timeout := timeout_;
     restarts_schedule := restarts_;
     lackey := lackey_;
     watches := watches_;
     proof := None;
     global_rand := tt;
     nodes := nodes_;
     propagations := propagations_;
     solution_count := solution_count_;
     enumerated := [] |}.

(** The state before a search: nothing called, nothing counted. *)
Definition state (lackey_ : option unit)
    : SearchState nat (nat * nat) unit (list Nogood) (list ProofEvent) unit :=
  state_with lackey_ 0 (0%nat, 0%nat) [] 0 0 0.

Definition nogood (pairs : list (N * N)) : Nogood :=
  {| literals :=
       map (fun '(p, t) => {| pattern_vertex := p; target_vertex := t |}) pairs |}.

Definition locals (discrepancy_count_ : Z) (actually_hit_a_failure_ : bool) : Locals.t :=
  {| Locals.discrepancy_count := discrepancy_count_;
     Locals.actually_hit_a_failure := actually_hit_a_failure_;
     Locals.use_lackey_for_propagation := false |}.

(** A domain that is not fixed, with its count. *)
Definition domain (v_ : N) (values_ : SVOBitset.t) : HomomorphismDomain :=
  {| v := v_; values := values_; count := SVOBitset.count values_; fixed := false |}.

(** Never aborts, never restarts, a lackey without deletions. *)
Definition quiet := env 1000 1000 (Verdict true tt).

(** Two adjacent pattern vertices: 0 with the candidates 0 and 1, and 1 with
    the candidates 1 and 2. *)
Definition edge_domains : Domains := [domain 0 3; domain 1 6].

(** Three pattern vertices, each with the candidates 0 and 1. *)
Definition free_domains : Domains := [domain 0 3; domain 1 3; domain 2 3].

(** The trail entries of the runs below. *)
Definition decided (p t : N) (discrepancy_count_ choice_count_ : Z)
    : HomomorphismAssignmentInformation :=
  {| assignment := {| pattern_vertex := p; target_vertex := t |};
     is_decision := true;
     discrepancy_count := discrepancy_count_;
     choice_count := choice_count_ |}.

Definition propagated (p t : N) : HomomorphismAssignmentInformation :=
  {| assignment := {| pattern_vertex := p; target_vertex := t |};
     is_decision := false;
     discrepancy_count := -1;
     choice_count := -1 |}.

(** A lackey that, handed a deletion function, asks to delete target 1 from
    pattern vertex 0 and then accepts. *)
Definition deleting_script : LackeyRun unit :=
  Deletion 0 1 (fun _ => Verdict true tt).

End Scenario.

(** * Properties *)

(** ** Bitsets *)

Module SVOBitsetFacts.

Import SVOBitset.

Lemma pos_count_pos p : 1 <= pos_count p.
Proof. induction p; simpl; lia. Qed.

Lemma count_zero s : count s = 0 <-> s = 0.
Proof.
  destruct s as [|p]; simpl; [tauto|].
  pose proof (pos_count_pos p). split; [lia|discriminate].
Qed.

Lemma count_div2 s : count s = count (N.div2 s) + N.b2n (N.odd s).
Proof. destruct s as [|[p|p|]]; simpl; lia. Qed.

Lemma div2_clearbit_0 s : N.div2 (N.clearbit s 0) = N.div2 s.
Proof.
  apply N.bits_inj. intros n. rewrite !N.testbit_div2.
  apply N.clearbit_neq. lia.
Qed.

Lemma div2_clearbit_succ s i : N.div2 (N.clearbit s (N.succ i)) = N.clearbit (N.div2 s) i.
Proof.
  apply N.bits_inj. intros n. rewrite N.testbit_div2, !N.clearbit_eqb, N.testbit_div2.
  f_equal. f_equal. destruct (N.eqb_spec (N.succ i) (N.succ n)), (N.eqb_spec i n); lia.
Qed.

(** Resetting a member takes one off the count. *)
Lemma count_reset i : forall s, test s i = true -> count s = N.succ (count (reset s i)).
Proof.
  unfold test, reset. induction i as [|i IH] using N.peano_ind; intros s Hs.
  - rewrite N.bit0_odd in Hs.
    rewrite (count_div2 s), (count_div2 (N.clearbit s 0)), div2_clearbit_0, Hs.
    rewrite <- N.bit0_odd, N.clearbit_eq. simpl. lia.
  - rewrite <- N.testbit_div2 in Hs.
    rewrite (count_div2 s), (count_div2 (N.clearbit s (N.succ i))), div2_clearbit_succ.
    rewrite (IH _ Hs), <- !N.bit0_odd, N.clearbit_neq by lia. lia.
Qed.

Lemma find_first_None s : find_first s = None <-> s = 0.
Proof. destruct s; simpl; split; congruence. Qed.

Lemma pos_find_first_spec p :
  N.testbit (Npos p) (pos_find_first p) = true
  /\ forall j, j < pos_find_first p -> N.testbit (Npos p) j = false.
Proof.
  induction p as [p IH|p IH|]; simpl pos_find_first.
  - split; [reflexivity|]. intros j Hj. lia.
  - destruct IH as [IH1 IH2].
    change (Npos p~0) with (2 * Npos p). split.
    + now rewrite N.testbit_even_succ by lia.
    + intros j Hj. destruct (N.zero_or_succ j) as [->|[j' ->]].
      * apply N.testbit_even_0.
      * rewrite N.testbit_even_succ by lia. apply IH2. lia.
  - split; [reflexivity|]. intros j Hj. lia.
Qed.

(** [find_first] answers the least member. *)
Lemma find_first_Some s i :
  find_first s = Some i ->
  test s i = true /\ forall j, j < i -> test s j = false.
Proof.
  destruct s as [|p]; simpl; [discriminate|].
  intros [= <-]. apply pos_find_first_spec.
Qed.

Lemma test_reset s i j : test (reset s i) j = test s j && negb (i =? j).
Proof. apply N.clearbit_eqb. Qed.

(** A loop that resets the members below a bound, least first, removes
    exactly the members below the bound. *)
Lemma reset_below_spec rounds : forall s bound,
  (N.to_nat (count s) <= rounds)%nat ->
  forall j, test (reset_below rounds s bound) j = test s j && (bound <=? j).
Proof.
  induction rounds as [|rounds IH]; intros s bound Hr j; simpl.
  - assert (s = 0) as -> by (apply count_zero; lia).
    unfold test. now rewrite N.bits_0.
  - destruct (find_first s) as [w|] eqn:Hw.
    + apply find_first_Some in Hw as [Hw Hlow].
      destruct (N.leb_spec bound w) as [Hb|Hb].
      * destruct (N.leb_spec bound j); [now rewrite andb_true_r|].
        rewrite andb_false_r. apply Hlow. lia.
      * rewrite IH.
        -- rewrite test_reset.
           destruct (N.eqb_spec w j) as [->|Hne]; simpl; [|now rewrite andb_true_r].
           rewrite andb_false_r. simpl. symmetry.
           destruct (N.leb_spec bound j); [lia|apply andb_false_r].
        -- rewrite (count_reset w s Hw) in Hr. lia.
    + apply find_first_None in Hw as ->. unfold test. now rewrite N.bits_0.
Qed.

(** A loop over the members that resets those above a bound in another
    bitset removes from that bitset exactly the members above the bound. *)
Lemma drain_reset_above rounds bound : forall s x,
  (N.to_nat (count s) <= rounds)%nat ->
  forall j,
    test (drain rounds s (fun w x => if bound <? w then reset x w else x) x) j
    = test x j && negb (test s j && (bound <? j)).
Proof.
  induction rounds as [|rounds IH]; intros s x Hr j; simpl.
  - assert (s = 0) as -> by (apply count_zero; lia).
    unfold test. rewrite N.bits_0. simpl. now rewrite andb_true_r.
  - destruct (find_first s) as [w|] eqn:Hw.
    + apply find_first_Some in Hw as [Hw _].
      rewrite IH by (rewrite (count_reset w s Hw) in Hr; lia).
      rewrite test_reset.
      destruct (N.ltb_spec bound w) as [Hb|Hb].
      * rewrite test_reset.
        destruct (N.eqb_spec w j) as [->|Hne]; simpl.
        -- rewrite Hw, !andb_false_r. simpl.
           destruct (N.ltb_spec bound j); [|lia]. simpl. now rewrite andb_false_r.
        -- now rewrite !andb_true_r.
      * destruct (N.eqb_spec w j) as [->|Hne]; simpl.
        -- rewrite andb_false_r. simpl.
           destruct (N.ltb_spec bound j); [lia|]. now rewrite andb_false_r.
        -- now rewrite andb_true_r.
    + apply find_first_None in Hw as ->. unfold test. rewrite N.bits_0. simpl.
      now rewrite andb_true_r.
Qed.

(** A loop over the members that remembers the member it is at ends with
    the greatest member. *)
Lemma drain_last rounds : forall s acc,
  (N.to_nat (count s) <= rounds)%nat -> s <> 0 ->
  drain rounds s (fun w _ => Some w) acc = Some (N.log2 s).
Proof.
  induction rounds as [|rounds IH]; intros s acc Hr Hs; simpl.
  - exfalso. apply Hs, count_zero. lia.
  - destruct (find_first s) as [w|] eqn:Hw; [|now apply find_first_None in Hw].
    apply find_first_Some in Hw as [Hw Hlow].
    destruct (N.eq_dec (reset s w) 0) as [E|Hne].
    + (* [w] was the only member *)
      rewrite E. destruct rounds; simpl; f_equal; symmetry;
        (apply N.log2_bits_unique; [exact Hw|]);
        intros m Hm; unfold test, reset in *;
        (assert (N.testbit (N.clearbit s w) m = false) as Hc by (rewrite E; apply N.bits_0));
        rewrite N.clearbit_eqb in Hc;
        (destruct (N.eqb_spec w m); [lia|]); simpl in Hc; now rewrite andb_true_r in Hc.
    + rewrite IH; [|rewrite (count_reset w s Hw) in Hr; lia|exact Hne].
      f_equal. apply N.log2_bits_unique.
      * (* the greatest member of [s] is not [w], so it is still there *)
        unfold reset. rewrite N.clearbit_eqb, N.bit_log2 by (intros ->; now apply Hne).
        simpl. destruct (N.eqb_spec w (N.log2 s)) as [E|_]; [|reflexivity].
        exfalso. apply Hne. apply N.bits_inj_0. intros m. unfold reset.
        rewrite N.clearbit_eqb.
        destruct (N.eqb_spec w m) as [->|Hwm]; [apply andb_false_r|].
        rewrite andb_true_r.
        destruct (N.lt_trichotomy m w) as [Hlt|[->|Hgt]]; [now apply Hlow|lia|].
        apply N.bits_above_log2. lia.
      * intros m Hm. unfold reset. rewrite N.clearbit_eqb, N.bits_above_log2 by lia.
        reflexivity.
Qed.

End SVOBitsetFacts.



(** ** The branch domain *)

Section BranchingFacts.

Variable model : HomomorphismModel.

Lemma replaces_false_preferred k r j e :
  replaces model e (Some (k, r)) = false -> (k <= j)%nat -> preferred model k r j e.
Proof.
  unfold replaces, preferred. intros H Hkj.
  apply orb_false_iff in H as [Hlt Hand].
  apply N.ltb_ge in Hlt.
  repeat split; [lia| |lia].
  intros Heq. rewrite Heq, N.eqb_refl in Hand. simpl in Hand.
  apply N.ltb_ge in Hand. lia.
Qed.

Lemma replaces_true_preferred k r j e i d :
  preferred model k r j e -> replaces model d (Some (k, r)) = true -> (j <= i)%nat ->
  preferred model i d j e.
Proof.
  unfold replaces, preferred. intros (Hc & Hd & Hi) H Hji.
  apply orb_true_iff in H as [Hlt | Hand].
  - apply N.ltb_lt in Hlt. repeat split; lia.
  - apply andb_true_iff in Hand as [Heq Hdeg].
    apply N.eqb_eq in Heq. apply N.ltb_lt in Hdeg.
    split; [lia|split].
    + intros E. specialize (Hd ltac:(lia)). lia.
    + intros E E'. specialize (Hd ltac:(lia)). lia.
Qed.

Lemma scanned_step seen d result :
  scanned model seen result ->
  scanned model (seen ++ [d])
    (if negb (fixed d) && replaces model d result then Some (length seen, d) else result).
Proof.
  intros Hs. destruct (fixed d) eqn:Hfd; simpl.
  - (* a fixed domain never becomes the result *)
    destruct result as [[k r]|]; simpl in *.
    + destruct Hs as (Hk & Hfr & Hall). split; [|split]; auto.
      * apply lookup_app_l_Some; exact Hk.
      * intros j e Hj Hfe. apply lookup_app_Some in Hj as [Hj | [_ Hj]].
        -- eauto.
        -- apply list_lookup_singleton_Some in Hj as [_ <-]. congruence.
    + apply Forall_app. split; auto.
  - destruct (replaces model d result) eqn:Hrep.
    + (* [d] takes over *)
      simpl. split; [|split]; auto.
      * rewrite lookup_app_r by lia. now rewrite Nat.sub_diag.
      * intros j e Hj Hfe. apply lookup_app_Some in Hj as [Hj | [Hlen Hj]].
        -- pose proof (lookup_lt_Some _ _ _ Hj) as Hlt.
           destruct result as [[k r]|]; simpl in Hs.
           ++ destruct Hs as (_ & _ & Hall).
              eapply replaces_true_preferred; eauto. lia.
           ++ eapply Forall_lookup_1 in Hs; eauto. simpl in Hs. congruence.
        -- apply list_lookup_singleton_Some in Hj as [Hj <-].
           unfold preferred. repeat split; lia.
    + (* the result stays *)
      destruct result as [[k r]|]; simpl in *; [|discriminate].
      destruct Hs as (Hk & Hfr & Hall). split; [|split]; auto.
      * apply lookup_app_l_Some; exact Hk.
      * intros j e Hj Hfe. apply lookup_app_Some in Hj as [Hj | [Hlen Hj]].
        -- eauto.
        -- apply list_lookup_singleton_Some in Hj as [Hj <-].
           pose proof (lookup_lt_Some _ _ _ Hk) as Hlt.
           eapply replaces_false_preferred; eauto. lia.
Qed.

Lemma find_branch_domain_from_scanned domains : forall seen result,
  scanned model seen result ->
  scanned model (seen ++ domains) (find_branch_domain_from model (length seen) domains result).
Proof.
  induction domains as [|d rest IH]; intros seen result Hs; simpl.
  - now rewrite app_nil_r.
  - replace (seen ++ d :: rest) with ((seen ++ [d]) ++ rest)
      by now rewrite <- app_assoc.
    replace (S (length seen)) with (length (seen ++ [d]))
      by (rewrite length_app; simpl; lia).
    apply IH. now apply scanned_step.
Qed.

(** C6: [find_branch_domain] answers null exactly when every domain is
    fixed; otherwise it answers a domain of the collection that is not
    fixed, whose count is the smallest among the domains that are not
    fixed, whose pattern degree is the largest among those of that count,
    and which comes first among those that tie on both. *)
Theorem find_branch_domain_smallest_then_degree_then_first (domains : Domains) :
  (find_branch_domain model domains = None <-> Forall (fun d => fixed d = true) domains)
  /\ (forall i d, find_branch_domain model domains = Some (i, d) ->
        domains !! i = Some d /\ fixed d = false
        /\ forall j e, domains !! j = Some e -> fixed e = false ->
             count d <= count e
             /\ (count e = count d ->
                 pattern_degree model 0 (v e) <= pattern_degree model 0 (v d))
             /\ (count e = count d ->
                 pattern_degree model 0 (v e) = pattern_degree model 0 (v d) ->
                 (i <= j)%nat)).
Proof.
  pose proof (find_branch_domain_from_scanned domains [] None) as H.
  simpl in H. specialize (H (Forall_nil_2 _)).
  fold (find_branch_domain model domains) in H.
  split.
  - split.
    + intros E. now rewrite E in H.
    + intros Hall. destruct (find_branch_domain model domains) as [[k r]|]; [|reflexivity].
      destruct H as (Hk & Hfr & _).
      eapply Forall_lookup_1 in Hall; eauto. simpl in Hall. congruence.
  - intros i d E. rewrite E in H. exact H.
Qed.

End BranchingFacts.

(** ** Ordering by degree *)

Section StableSortFacts.

Context {A : Type}.
Variable comp : A -> A -> bool.

Lemma linear_insert_perm val ordered :
  linear_insert comp val ordered ≡ₚ val :: ordered.
Proof.
  induction ordered as [|y before IH]; simpl; [reflexivity|].
  destruct (comp val y); [|reflexivity].
  rewrite IH. apply Permutation_swap.
Qed.

Lemma insertions_perm range : forall ordered,
  fold_left (fun ordered val => linear_insert comp val ordered) range ordered
  ≡ₚ range ++ ordered.
Proof.
  induction range as [|x rest IH]; intros ordered; simpl; [reflexivity|].
  rewrite IH, linear_insert_perm. symmetry. apply Permutation_middle.
Qed.

Lemma stable_sort_perm range : stable_sort comp range ≡ₚ range.
Proof.
  unfold stable_sort. rewrite reverse_Permutation, insertions_perm.
  now rewrite app_nil_r.
Qed.

End StableSortFacts.

Lemma StronglySorted_reverse {A : Type} (R : A -> A -> Prop) (l : list A) :
  StronglySorted R l -> StronglySorted (fun x y => R y x) (reverse l).
Proof.
  induction 1 as [|x l Hl IH Hx]; [constructor|].
  rewrite reverse_cons. apply StronglySorted_app. split; [|split].
  - intros y z Hy Hz. rewrite elem_of_reverse in Hy.
    apply list_elem_of_singleton in Hz. subst z.
    rewrite Forall_forall in Hx. simpl. now apply Hx.
  - exact IH.
  - repeat constructor.
Qed.

Lemma StronglySorted_lookup_lt {A : Type} (R : A -> A -> Prop) (l : list A) :
  StronglySorted R l ->
  forall i j x y, l !! i = Some x -> l !! j = Some y -> (i < j)%nat -> R x y.
Proof.
  induction 1 as [|a l Hl IH Ha]; intros i j x y Hi Hj Hlt.
  - now rewrite lookup_nil in Hi.
  - destruct j as [|j]; [lia|]. simpl in Hj. destruct i as [|i].
    + injection Hi as <-. rewrite Forall_forall in Ha. apply Ha.
      eapply list_elem_of_lookup_2; exact Hj.
    + simpl in Hi. eapply IH; eauto. lia.
Qed.

Lemma filter_none {A : Type} (P : A -> Prop) `{forall x, Decision (P x)} (l : list A) :
  Forall (fun x => ~ P x) l -> filter P l = [].
Proof.
  induction 1 as [|x l Hx Hl IH]; [reflexivity|].
  now rewrite filter_cons_False.
Qed.

Section DegreeSortFacts.

Variable model : HomomorphismModel.

Local Abbreviation deg := (target_degree model 0).

Lemma degree_comp_false a b : degree_sort_comp model false a b = (deg b <=? deg a).
Proof. unfold degree_sort_comp. apply xorb_false_r. Qed.

Lemma degree_comp_true a b : degree_sort_comp model true a b = (deg a <? deg b).
Proof.
  unfold degree_sort_comp. rewrite xorb_true_r.
  destruct (N.leb_spec (deg b) (deg a)), (N.ltb_spec (deg a) (deg b)); simpl; lia.
Qed.

(** *** The comparator of [Degree] *)

Lemma insert_false_ascending val ordered :
  ascending model ordered ->
  ascending model (linear_insert (degree_sort_comp model false) val ordered).
Proof.
  unfold ascending. induction 1 as [|y before Hb IH Hy]; simpl.
  - repeat constructor.
  - rewrite degree_comp_false. destruct (N.leb_spec (deg y) (deg val)) as [Hle|Hlt].
    + constructor; [exact IH|].
      rewrite (linear_insert_perm _ val before). constructor; [exact Hle|exact Hy].
    + constructor; [now constructor|].
      constructor; [lia|]. eapply Forall_impl; [exact Hy|]. simpl. intros; lia.
Qed.

Lemma insert_false_filter d val ordered :
  ascending model ordered ->
  filter (fun x => deg x = d) (linear_insert (degree_sort_comp model false) val ordered)
  = filter (fun x => deg x = d) ordered ++ filter (fun x => deg x = d) [val].
Proof.
  unfold ascending. induction 1 as [|y before Hb IH Hy]; simpl.
  - reflexivity.
  - rewrite degree_comp_false. destruct (N.leb_spec (deg y) (deg val)) as [Hle|Hlt].
    + rewrite !(filter_cons _ y), IH. now destruct (decide (deg y = d)).
    + rewrite (filter_cons _ val), (filter_cons _ val []), filter_nil.
      destruct (decide (deg val = d)) as [E|E]; [|now rewrite app_nil_r].
      assert (filter (fun x => deg x = d) (y :: before) = []) as ->; [|reflexivity].
      apply filter_none. constructor; [lia|].
      eapply Forall_impl; [exact Hy|]. simpl. intros; lia.
Qed.

Lemma insertions_false d range : forall ordered,
  ascending model ordered ->
  let result :=
    fold_left (fun ordered val => linear_insert (degree_sort_comp model false) val ordered)
      range ordered in
  ascending model result
  /\ filter (fun x => deg x = d) result
     = filter (fun x => deg x = d) ordered ++ filter (fun x => deg x = d) range.
Proof.
  induction range as [|x rest IH]; intros ordered Hs; simpl.
  - now rewrite filter_nil, app_nil_r.
  - destruct (IH _ (insert_false_ascending x _ Hs)) as [Hs' Hf]. split; [exact Hs'|].
    rewrite Hf, insert_false_filter by exact Hs.
    now rewrite <- app_assoc, <- filter_app.
Qed.

(** Under [Degree] the candidates come out by descending degree... *)
Lemma degree_sort_descending branch_v :
  descending model (degree_sort model branch_v false).
Proof.
  unfold degree_sort, stable_sort, descending.
  apply (StronglySorted_reverse (fun x y => deg x <= deg y)).
  apply (insertions_false 0 branch_v []). constructor.
Qed.

(** ... so that a candidate of strictly larger degree precedes one of
    smaller degree... *)
Lemma degree_sort_larger_degree_first branch_v i j x y :
  degree_sort model branch_v false !! i = Some x ->
  degree_sort model branch_v false !! j = Some y ->
  deg y < deg x -> (i < j)%nat.
Proof.
  intros Hi Hj Hlt. pose proof (degree_sort_descending branch_v) as Hs.
  destruct (Nat.lt_trichotomy i j) as [H|[H|H]]; [exact H| |].
  - subst j. rewrite Hi in Hj. injection Hj as ->. lia.
  - exfalso.
    pose proof (StronglySorted_lookup_lt _ _ Hs j i y x Hj Hi H) as Hle.
    simpl in Hle. lia.
Qed.

(** ... but the candidates of one degree come out in the reverse of their
    original order. *)
Lemma degree_sort_ties_reversed branch_v d :
  filter (fun x => deg x = d) (degree_sort model branch_v false)
  = reverse (filter (fun x => deg x = d) branch_v).
Proof.
  unfold degree_sort, stable_sort. rewrite filter_reverse. f_equal.
  destruct (insertions_false d branch_v []) as [_ ->]; [constructor|].
  now rewrite filter_nil.
Qed.

Lemma degree_sort_perm branch_v reverse_ :
  degree_sort model branch_v reverse_ ≡ₚ branch_v.
Proof. apply stable_sort_perm. Qed.

(** *** The comparator of [AntiDegree] *)

Lemma insert_true_descending val ordered :
  descending model ordered ->
  descending model (linear_insert (degree_sort_comp model true) val ordered).
Proof.
  unfold descending. induction 1 as [|y before Hb IH Hy]; simpl.
  - repeat constructor.
  - rewrite degree_comp_true. destruct (N.ltb_spec (deg val) (deg y)) as [Hlt|Hle].
    + constructor; [exact IH|].
      rewrite (linear_insert_perm _ val before). constructor; [lia|exact Hy].
    + constructor; [now constructor|].
      constructor; [lia|]. eapply Forall_impl; [exact Hy|]. simpl. intros; lia.
Qed.

Lemma insert_true_filter d val ordered :
  filter (fun x => deg x = d) (linear_insert (degree_sort_comp model true) val ordered)
  = filter (fun x => deg x = d) [val] ++ filter (fun x => deg x = d) ordered.
Proof.
  induction ordered as [|y before IH]; simpl.
  - now rewrite app_nil_r.
  - rewrite degree_comp_true. destruct (N.ltb_spec (deg val) (deg y)) as [Hlt|Hle].
    + rewrite !(filter_cons _ y), IH, (filter_cons _ val []), filter_nil.
      destruct (decide (deg val = d)), (decide (deg y = d)); simpl; try reflexivity. lia.
    + now rewrite (filter_cons _ val (y :: before)), (filter_cons _ val []), filter_nil;
        destruct (decide (deg val = d)).
Qed.

Lemma insertions_true d range : forall ordered,
  descending model ordered ->
  let result :=
    fold_left (fun ordered val => linear_insert (degree_sort_comp model true) val ordered)
      range ordered in
  descending model result
  /\ filter (fun x => deg x = d) result
     = reverse (filter (fun x => deg x = d) range) ++ filter (fun x => deg x = d) ordered.
Proof.
  induction range as [|x rest IH]; intros ordered Hs; simpl.
  - split; [exact Hs|reflexivity].
  - destruct (IH _ (insert_true_descending x _ Hs)) as [Hs' Hf]. split; [exact Hs'|].
    rewrite Hf, insert_true_filter, (filter_cons _ x rest), (filter_cons _ x []), filter_nil.
    destruct (decide (deg x = d)); [|reflexivity].
    now rewrite reverse_cons, <- app_assoc.
Qed.

(** Under [AntiDegree] the sort is the stable one: ascending degrees, and
    the candidates of one degree in their original order. *)
Lemma anti_degree_sort_stable branch_v d :
  ascending model (degree_sort model branch_v true)
  /\ filter (fun x => deg x = d) (degree_sort model branch_v true)
     = filter (fun x => deg x = d) branch_v.
Proof.
  unfold degree_sort, stable_sort.
  destruct (insertions_true d branch_v []) as [Hs Hf]; [constructor|]. split.
  - apply (StronglySorted_reverse (fun x y => deg y <= deg x)). exact Hs.
  - rewrite filter_reverse, Hf, filter_nil, app_nil_r. apply reverse_involutive.
Qed.

(** C4 (the code departs from it): under the [Degree] ordering the
    candidates are a rearrangement of the branch candidates in descending
    order of target_degree(0, v), so that a candidate of strictly larger
    degree precedes one of smaller degree; but the candidates of one degree
    come out in the reverse of their original order, not in their original
    order: the comparator answers true on equal degrees, which
    [stable_sort] takes for "goes in front". *)
Theorem degree_sort_descending_ties_reversed branch_v :
  degree_sort model branch_v false ≡ₚ branch_v
  /\ descending model (degree_sort model branch_v false)
  /\ (forall i j x y,
        degree_sort model branch_v false !! i = Some x ->
        degree_sort model branch_v false !! j = Some y ->
        deg y < deg x -> (i < j)%nat)
  /\ (forall d,
        filter (fun x => deg x = d) (degree_sort model branch_v false)
        = reverse (filter (fun x => deg x = d) branch_v)).
Proof.
  split; [apply degree_sort_perm|]. split; [apply degree_sort_descending|].
  split; [apply degree_sort_larger_degree_first|apply degree_sort_ties_reversed].
Qed.

End DegreeSortFacts.

(** ** The softmax shuffle *)

Lemma long_long_small (z : Z) :
  (- 2 ^ 63 <= z < 2 ^ 63)%Z -> long_long z = z.
Proof.
  intros Hz. unfold long_long, wrap_signed.
  replace (64 - 1)%Z with 63%Z by reflexivity.
  replace (2 ^ 64)%Z with (2 * 2 ^ 63)%Z by reflexivity.
  rewrite Z.mod_small; lia.
Qed.

Lemma int_small (z : Z) :
  (- 2 ^ 31 <= z < 2 ^ 31)%Z -> int z = z.
Proof.
  intros Hz. unfold int, wrap_signed.
  replace (32 - 1)%Z with 31%Z by reflexivity.
  replace (2 ^ 32)%Z with (2 * 2 ^ 31)%Z by reflexivity.
  rewrite Z.mod_small; lia.
Qed.

Lemma long_long_add_l (a b : Z) : long_long (long_long a + b) = long_long (a + b).
Proof.
  unfold long_long, wrap_signed. f_equal.
  replace ((a + 2 ^ (64 - 1)) mod 2 ^ 64 - 2 ^ (64 - 1) + b + 2 ^ (64 - 1))%Z
    with ((a + 2 ^ (64 - 1)) mod 2 ^ 64 + b)%Z by lia.
  rewrite Zplus_mod_idemp_l. f_equal. lia.
Qed.

Lemma insert_head_perm {A : Type} (l : list A) : forall j y a,
  l !! j = Some y -> y :: <[j := a]> l ≡ₚ a :: l.
Proof.
  induction l as [|b t IH]; intros j y a Hj; [now rewrite lookup_nil in Hj|].
  destruct j as [|j]; simpl in *.
  - injection Hj as ->. apply Permutation_swap.
  - rewrite Permutation_swap, (IH _ _ _ Hj). apply Permutation_swap.
Qed.

Lemma exchange_perm {A : Type} (l : list A) : forall i j x y,
  l !! i = Some x -> l !! j = Some y -> <[i := y]> (<[j := x]> l) ≡ₚ l.
Proof.
  induction l as [|a t IH]; intros i j x y Hi Hj; [now rewrite lookup_nil in Hi|].
  destruct i as [|i], j as [|j]; simpl in *.
  - injection Hi as ->. injection Hj as ->. reflexivity.
  - injection Hi as ->. now apply insert_head_perm.
  - injection Hj as ->. now apply insert_head_perm.
  - now rewrite (IH _ _ _ _ Hi Hj).
Qed.

(** The total of [softmax_shuffle] is the sum of the weights as a
    [long long] holds it. *)
Lemma softmax_total_wraps (model : HomomorphismModel) range :
  softmax_total model range = long_long (sum_of_weights model range).
Proof.
  unfold softmax_total.
  assert (forall rest total,
            fold_left (fun total x => long_long (total + weight model x)) rest
              (long_long total)
            = long_long (total + sum_of_weights model rest)) as H.
  { induction rest as [|x rest IH]; intros total; simpl.
    - now rewrite Z.add_0_r.
    - rewrite long_long_add_l, IH. f_equal. lia. }
  apply (H range 0%Z).
Qed.

(** A round whose total is below 1 has nothing to draw from. *)
Lemma softmax_rounds_empty_range (model : HomomorphismModel) {RandT : Type}
    (random : RandomSource RandT) rounds start total branch_v global_rand :
  (total < 1)%Z -> rounds <> 0%nat ->
  softmax_rounds model random rounds start total branch_v global_rand = None.
Proof.
  intros Ht Hr. destruct rounds as [|rounds]; [congruence|]. simpl.
  destruct (Z.ltb_spec total 1); [reflexivity|lia].
Qed.

Section SoftmaxFacts.

Variable model : HomomorphismModel.

Hypothesis largest_fits_int : largest_target_degree model < 2 ^ 31.

Lemma weight_bounds x :
  target_degree model 0 x <= largest_target_degree model ->
  (1 <= weight model x <= 2 ^ 45)%Z.
Proof.
  intros Hx. unfold weight, expish, sufficient_space_for_adding_up.
  assert (2 ^ 31 = 2147483648) as E31 by reflexivity.
  rewrite int_small by lia.
  set (shift := Z.max _ 0).
  assert (0 <= shift <= 45)%Z as Hs by (unfold shift; lia).
  rewrite Z.shiftl_1_l.
  assert (1 <= 2 ^ shift)%Z by (apply (Z.pow_le_mono_r 2 0 shift); lia).
  assert (2 ^ shift <= 2 ^ 45)%Z by (apply Z.pow_le_mono_r; lia).
  rewrite long_long_small; lia.
Qed.

Lemma sum_of_weights_bounds range :
  degrees_bounded model range ->
  (Z.of_nat (length range) <= sum_of_weights model range
   <= 2 ^ 45 * Z.of_nat (length range))%Z.
Proof.
  induction 1 as [|x rest Hx Hrest IH]; simpl; [lia|].
  pose proof (weight_bounds x Hx). lia.
Qed.

Lemma sum_of_weights_perm l l' :
  l ≡ₚ l' -> sum_of_weights model l = sum_of_weights model l'.
Proof. induction 1; simpl; lia. Qed.

(** Below [2 ^ 18] candidates the running total never leaves the range of
    [long long]: it is the sum of the weights. *)
Lemma softmax_total_sum range :
  degrees_bounded model range -> (Z.of_nat (length range) < 2 ^ 18)%Z ->
  softmax_total model range = sum_of_weights model range.
Proof.
  intros Hb Hlen. unfold softmax_total.
  assert (forall rest total,
            degrees_bounded model rest ->
            (0 <= total)%Z ->
            (total + 2 ^ 45 * Z.of_nat (length rest) < 2 ^ 63)%Z ->
            fold_left (fun total x => long_long (total + weight model x)) rest total
            = (total + sum_of_weights model rest)%Z) as H.
  { induction rest as [|x rest IH]; intros total Hr Ht Hsum; simpl.
    - lia.
    - inversion Hr as [|? ? Hx Hrest]; subst.
      pose proof (weight_bounds x Hx).
      simpl length in Hsum. rewrite Nat2Z.inj_succ in Hsum.
      rewrite long_long_small by lia.
      rewrite IH; [lia|assumption|lia|lia]. }
  rewrite H; [lia|assumption|lia|].
  change (2 ^ 63)%Z with (2 ^ 45 * 2 ^ 18)%Z. lia.
Qed.

(** The scan stays within the range it is given. *)
Lemma select_from_within from : forall select_element select_score,
  from <> [] ->
  (select_element <= select_from model from select_element select_score
   < select_element + length from)%nat.
Proof.
  induction from as [|x rest IH]; intros se score Hne; [congruence|].
  destruct rest as [|y rest]; simpl; [lia|].
  destruct (_ <=? 0)%Z; [simpl; lia|].
  specialize (IH (S se) (long_long (score - weight model x)) ltac:(discriminate)).
  simpl in *. lia.
Qed.

Section WithRandom.

Context {RandT : Type}.
Variable random : RandomSource RandT.

Lemma softmax_rounds_defined rounds : forall start total branch_v global_rand,
  (start + rounds = length branch_v)%nat ->
  total = sum_of_weights model (drop start branch_v) ->
  degrees_bounded model branch_v ->
  (Z.of_nat (length branch_v) < 2 ^ 18)%Z ->
  exists shuffled rand,
    softmax_rounds model random rounds start total branch_v global_rand
    = Some (shuffled, rand)
    /\ shuffled ≡ₚ branch_v.
Proof.
  induction rounds as [|rounds IH]; intros start total l g Hlen Htotal Hb Hsmall;
    simpl.
  - eauto.
  - (* the range of the distribution is not empty *)
    assert (degrees_bounded model (drop start l)) as Hbd.
    { unfold degrees_bounded in *. rewrite <- (take_drop start l) in Hb.
      now apply Forall_app in Hb. }
    pose proof (sum_of_weights_bounds _ Hbd) as Hsum.
    rewrite length_drop in Hsum.
    destruct (Z.ltb_spec total 1) as [Hlt|_]; [lia|].
    destruct (uniform_int_distribution random 1 total g) as [score g'].
    (* the selected position lies in the remaining suffix *)
    set (se := select_from model (drop start l) start score).
    assert (start <= se < length l)%nat as Hse.
    { pose proof (select_from_within (drop start l) start score) as H.
      rewrite length_drop in H. fold se in H.
      assert (drop start l <> []) as Hne.
      { intros E. apply (f_equal length) in E. rewrite length_drop in E.
        simpl in E. lia. }
      specialize (H Hne). lia. }
    destruct (lookup_lt_is_Some_2 l se ltac:(lia)) as [x Hx].
    destruct (lookup_lt_is_Some_2 l start ltac:(lia)) as [y Hy].
    rewrite (list_lookup_total_correct _ _ _ Hx).
    assert (swap l se start ≡ₚ l) as Hperm.
    { unfold swap. rewrite (list_lookup_total_correct _ _ _ Hx),
        (list_lookup_total_correct _ _ _ Hy).
      eapply exchange_perm; eauto. }
    (* the suffix after the swap: the selected element, then the others *)
    assert (drop start (swap l se start) = x :: drop (S start) (swap l se start)) as Hd.
    { apply drop_S. unfold swap.
      rewrite (list_lookup_total_correct _ _ _ Hx), (list_lookup_total_correct _ _ _ Hy).
      destruct (decide (se = start)) as [E|Hne].
      - rewrite E in *. rewrite list_lookup_insert_eq; [congruence|].
        rewrite length_insert. lia.
      - rewrite list_lookup_insert_ne by exact Hne.
        rewrite list_lookup_insert_eq; [reflexivity|lia]. }
    assert (drop start (swap l se start) ≡ₚ drop start l) as Hdp.
    { apply (Permutation_app_inv_l (take start l)).
      rewrite take_drop.
      assert (take start (swap l se start) = take start l) as <-.
      { unfold swap. rewrite take_insert_ge by lia. apply take_insert_ge. lia. }
      now rewrite take_drop. }
    pose proof (sum_of_weights_perm _ _ Hdp) as Hsw.
    rewrite Hd in Hsw. simpl in Hsw.
    assert (target_degree model 0 x <= largest_target_degree model) as Hbx.
    { unfold degrees_bounded in Hb. rewrite Forall_forall in Hb. apply Hb.
      eapply list_elem_of_lookup_2; exact Hx. }
    pose proof (weight_bounds x Hbx) as Hwx.
    assert (degrees_bounded model (drop (S start) (swap l se start))) as Hbd'.
    { unfold degrees_bounded in *. rewrite <- Hperm in Hb.
      rewrite <- (take_drop (S start) (swap l se start)) in Hb.
      now apply Forall_app in Hb. }
    pose proof (sum_of_weights_bounds _ Hbd') as Hsum'.
    assert (2 ^ 45 * Z.of_nat (length l) < 2 ^ 63)%Z as Hbig.
    { change (2 ^ 63)%Z with (2 ^ 45 * 2 ^ 18)%Z. lia. }
    rewrite long_long_small by lia.
    destruct (IH (S start) (total - weight model x)%Z (swap l se start) g')
      as (out & g'' & Hrun & Hout).
    + unfold swap. rewrite !length_insert. lia.
    + lia.
    + unfold degrees_bounded in *. now rewrite Hperm.
    + unfold swap. rewrite !length_insert. lia.
    + exists out, g''. split; [exact Hrun|]. now rewrite Hout.
Qed.

(** C10 (amended): for every candidate list of fewer than [2 ^ 18]
    candidates, none with a target degree above largest_target_degree
    (itself below [2 ^ 31]), [softmax_shuffle] is well defined and produces
    a permutation of the candidates: each weight is at least 1, so the total
    is at least the number of candidates that are not yet selected and the
    range [1 .. total] of the distribution is not empty in any round, and
    the scan selects a position in the remaining suffix, so every round
    swaps an element of the range to the front. *)
Theorem softmax_shuffle_permutes_below_2_18 branch_v global_rand :
  degrees_bounded model branch_v ->
  (Z.of_nat (length branch_v) < 2 ^ 18)%Z ->
  Forall (fun x => (1 <= weight model x)%Z) branch_v
  /\ (forall start arrangement,
        arrangement ≡ₚ branch_v -> (start < length branch_v)%nat ->
        (1 <= Z.of_nat (length branch_v - start)
         <= sum_of_weights model (drop start arrangement))%Z)
  /\ softmax_total model branch_v = sum_of_weights model branch_v
  /\ (forall start select_score,
        (start < length branch_v)%nat ->
        (start <= select_from model (drop start branch_v) start select_score
         < length branch_v)%nat)
  /\ exists shuffled rand,
       softmax_shuffle model random branch_v global_rand = Some (shuffled, rand)
       /\ shuffled ≡ₚ branch_v.
Proof.
  intros Hb Hlen. split; [|split; [|split; [|split]]].
  - eapply Forall_impl; [exact Hb|]. intros x Hx. now apply weight_bounds.
  - intros start l Hperm Hstart.
    assert (degrees_bounded model (drop start l)) as Hbd.
    { unfold degrees_bounded in *. rewrite <- Hperm in Hb.
      rewrite <- (take_drop start l) in Hb. now apply Forall_app in Hb. }
    pose proof (sum_of_weights_bounds _ Hbd) as Hsum.
    rewrite length_drop, (Permutation_length Hperm) in Hsum. lia.
  - now apply softmax_total_sum.
  - intros start score Hstart.
    pose proof (select_from_within (drop start branch_v) start score) as H.
    rewrite length_drop in H.
    assert (drop start branch_v <> []) as Hne.
    { intros E. apply (f_equal length) in E. rewrite length_drop in E. simpl in E. lia. }
    specialize (H Hne). lia.
  - unfold softmax_shuffle. apply softmax_rounds_defined; auto.
    now rewrite softmax_total_sum.
Qed.

End WithRandom.

End SoftmaxFacts.

(** ** Propagation *)

Lemma fixed_count_insert (domains : Domains) : forall i d,
  domains !! i = Some d -> fixed d = false ->
  fixed_count (<[i := set_fixed true d]> domains) = S (fixed_count domains).
Proof.
  unfold fixed_count.
  induction domains as [|e rest IH]; intros i d Hi Hd; [now rewrite lookup_nil in Hi|].
  destruct i as [|i]; simpl in *.
  - injection Hi as ->. rewrite !filter_cons. simpl.
    destruct (decide (true = true)); [|congruence].
    destruct (decide (fixed d = true)); [congruence|]. reflexivity.
  - rewrite !filter_cons. destruct (decide (fixed e = true)); simpl; erewrite IH; eauto.
Qed.

Lemma fixed_count_same_flags (domains domains' : Domains) :
  map fixed domains' = map fixed domains -> fixed_count domains' = fixed_count domains.
Proof.
  unfold fixed_count. revert domains'.
  induction domains as [|d rest IH]; intros [|d' rest'] H; try discriminate; [reflexivity|].
  simpl in H. injection H as Hd Hrest. rewrite !filter_cons, Hd.
  destruct (decide (fixed d = true)); simpl; now rewrite (IH _ Hrest).
Qed.

Lemma map_fixed_insert (domains : Domains) i d d' :
  domains !! i = Some d -> fixed d' = fixed d ->
  map fixed (<[i := d']> domains) = map fixed domains.
Proof.
  intros Hi Hd. change (map fixed) with (fmap (M := list) fixed).
  rewrite list_fmap_insert, Hd. apply list_insert_id.
  now rewrite list_lookup_fmap, Hi.
Qed.

Section PropagateFacts.

Context {TimeoutT RestartsT LackeyT WatchesT ProofT RandT : Type}.

Local Abbreviation State := (SearchState TimeoutT RestartsT LackeyT WatchesT ProofT RandT).

Variable model : HomomorphismModel.
Variable params : HomomorphismParams.
Variable env : Collaborators TimeoutT RestartsT LackeyT WatchesT ProofT RandT.

(** *** The trail only grows, by entries of unit propagation *)

Lemma propagate_units_trail rounds : forall new_domains assignments (st : State)
    ok new_domains' assignments' st',
  propagate_units model params env rounds new_domains assignments st
  = Some (ok, new_domains', assignments', st') ->
  exists pushed,
    assignments' = assignments ++ pushed
    /\ Forall is_propagated pushed
    /\ (ok = false -> pushed <> []).
Proof.
  induction rounds as [|rounds IH]; intros ds a st ok ds' a' st' H; simpl in H.
  - destruct (find_unit_domain ds) as [[i d]|]; [discriminate|].
    injection H as <- <- <- <-. exists []. rewrite app_nil_r. repeat split; auto; discriminate.
  - destruct (find_unit_domain ds) as [[i d]|].
    + destruct (propagate_watches _ _ _ _ _ _) as [ds1 st1].
      destruct (propagate_constraints _ _ _ _ _ _) as [[ok2 ds2] st2].
      destruct ok2; simpl in H.
      * apply IH in H as (pushed & -> & Hall & Hne).
        eexists (_ :: pushed). rewrite <- app_assoc. split; [reflexivity|].
        split; [|discriminate]. constructor; [|exact Hall]. repeat split.
      * injection H as <- <- <- <-. eexists [_]. split; [reflexivity|].
        split; [|discriminate]. repeat constructor.
    + injection H as <- <- <- <-. exists []. rewrite app_nil_r. repeat split; auto; discriminate.
Qed.

Lemma propagate_trail new_domains assignments propagate_using_lackey_ (st : State)
    ok new_domains' assignments' st' :
  propagate model params env new_domains assignments propagate_using_lackey_ st
  = Some (ok, new_domains', assignments', st') ->
  exists pushed, assignments' = assignments ++ pushed /\ Forall is_propagated pushed.
Proof.
  unfold propagate. intros H.
  destruct (propagate_units _ _ _ _ _ _ _) as [[[[ok1 ds1] a1] st1]|] eqn:Hu;
    [|discriminate].
  apply propagate_units_trail in Hu as (pushed & -> & Hall & _).
  destruct ok1.
  - destruct (propagate_lackey _ _ _ _ _ _) as [[ok2 ds2] st2].
    injection H as <- <- <- <-. eauto.
  - injection H as <- <- <- <-. eauto.
Qed.

(** *** Which domains are fixed changes only by the unit assignments *)

Lemma on_unit_nogood_flags a (new_domains : Domains) :
  map fixed (on_unit_nogood a new_domains) = map fixed new_domains.
Proof.
  induction new_domains as [|d rest IH]; simpl; [reflexivity|].
  destruct (fixed d) eqn:Hd; simpl; rewrite ?Hd, ?IH; [reflexivity|].
  destruct (v d =? pattern_vertex a); simpl; rewrite ?Hd, ?IH; reflexivity.
Qed.

Lemma propagate_watches_flags current new_domains assignments (st : State) :
  map fixed (propagate_watches params env current new_domains assignments st).1
  = map fixed new_domains.
Proof.
  unfold propagate_watches. destruct (might_have_watches params); [|reflexivity].
  destruct (watches_propagate _ _ _ _) as [units w]. simpl.
  revert new_domains. induction units as [|u units IH]; intros ds; simpl; [reflexivity|].
  now rewrite IH, on_unit_nogood_flags.
Qed.

Lemma propagate_simple_constraints_on_fixed d current :
  fixed (propagate_simple_constraints_on model params d current) = fixed d.
Proof.
  unfold propagate_simple_constraints_on.
  destruct (has_edge_labels model); simpl;
    destruct (injectivity params); simpl;
    try destruct (both_in_the_neighbourhood_of_some_vertex _ _ _); reflexivity.
Qed.

Lemma propagate_simple_constraints_flags current (new_domains : Domains) :
  map fixed (propagate_simple_constraints model params new_domains current).2
  = map fixed new_domains.
Proof.
  induction new_domains as [|d rest IH]; [reflexivity|].
  cbn [propagate_simple_constraints].
  destruct (fixed d) eqn:Hd.
  - destruct (propagate_simple_constraints _ _ rest _) as [ok rest'].
    cbn [snd map] in *. now rewrite IH, Hd.
  - destruct (count (propagate_simple_constraints_on _ _ _ _) =? 0).
    + cbn [snd map]. now rewrite propagate_simple_constraints_on_fixed, Hd.
    + destruct (propagate_simple_constraints _ _ rest _) as [ok rest'].
      cbn [snd map] in *. now rewrite IH, propagate_simple_constraints_on_fixed, Hd.
Qed.

Lemma less_thans_first_pass_flags find_domain pairs : forall new_domains : Domains,
  map fixed (less_thans_first_pass model find_domain pairs new_domains).2
  = map fixed new_domains.
Proof.
  induction pairs as [|[a b] rest IH]; intros ds; simpl; [reflexivity|].
  unfold both_domains.
  destruct (_ || _); [apply IH|].
  destruct (ds !! _) as [da|] eqn:Ha; [|apply IH].
  destruct (ds !! Z.to_nat (find_domain_at find_domain b)) as [db|] eqn:Hb; [|apply IH].
  destruct (SVOBitset.find_first _); [|reflexivity].
  destruct (target_size model <=? _); [reflexivity|].
  match goal with |- context [if ?c then _ else _] => destruct c end; simpl.
  - eapply map_fixed_insert; eauto.
  - rewrite IH. eapply map_fixed_insert; eauto.
Qed.

Lemma less_thans_second_pass_flags find_domain pairs : forall new_domains : Domains,
  map fixed (less_thans_second_pass find_domain pairs new_domains).2
  = map fixed new_domains.
Proof.
  induction pairs as [|[a b] rest IH]; intros ds; simpl; [reflexivity|].
  unfold both_domains.
  destruct (_ || _); [apply IH|].
  destruct (ds !! _) as [da|] eqn:Ha; [|apply IH].
  destruct (ds !! Z.to_nat (find_domain_at find_domain b)) as [db|] eqn:Hb; [|apply IH].
  destruct (last_set _ =? 0); [reflexivity|].
  match goal with |- context [if ?c then _ else _] => destruct c end; simpl.
  - eapply map_fixed_insert; eauto.
  - rewrite IH. eapply map_fixed_insert; eauto.
Qed.

Lemma propagate_less_thans_flags (new_domains : Domains) :
  map fixed (propagate_less_thans model new_domains).2 = map fixed new_domains.
Proof.
  unfold propagate_less_thans.
  pose proof (less_thans_first_pass_flags (find_domain_table model new_domains)
                (pattern_less_thans_in_convenient_order model) new_domains) as H1.
  destruct (less_thans_first_pass _ _ _ _) as [ok ds1]. simpl in H1.
  destruct ok; simpl; [|exact H1].
  now rewrite less_thans_second_pass_flags.
Qed.

(** The deletions of the lackey keep the flags as well. *)
Lemma delete_value_flags p t (new_domains : Domains) : forall new_domains' zero,
  delete_value p t new_domains = Some (new_domains', zero) ->
  map fixed new_domains' = map fixed new_domains.
Proof.
  induction new_domains as [|d rest IH]; intros ds' zero H; simpl in H; [discriminate|].
  destruct (v d =? p).
  - destruct (SVOBitset.test _ _); [|discriminate]. now injection H as <- <-.
  - destruct (delete_value p t rest) as [[rest' z]|]; [|discriminate].
    injection H as <- <-. simpl. now rewrite (IH _ _ eq_refl).
Qed.

Lemma deletion_flags p t (captured : Domains * bool * Z) :
  map fixed (deletion p t captured).2.1.1 = map fixed captured.1.1.
Proof.
  destruct captured as [[ds wipeout] dcount]. unfold deletion.
  destruct wipeout; simpl; [reflexivity|].
  destruct (delete_value _ _ ds) as [[ds' zero]|] eqn:H; simpl; [|reflexivity].
  eapply delete_value_flags; eauto.
Qed.

Lemma run_lackey_deletion_flags (run : LackeyRun LackeyT) :
  forall captured : Domains * bool * Z,
  map fixed (run_lackey deletion run captured).2.1.1 = map fixed captured.1.1.
Proof.
  induction run as [ok after|p t next IH]; intros captured; simpl; [reflexivity|].
  pose proof (deletion_flags p t captured) as Hd.
  destruct (deletion p t captured) as [deleted captured'].
  now rewrite IH.
Qed.

Lemma propagate_lackey_flags new_domains assignments propagate_using_lackey_ (st : State) :
  map fixed (propagate_lackey params env new_domains assignments
               propagate_using_lackey_ st).1.2
  = map fixed new_domains.
Proof.
  unfold propagate_lackey. destruct (lackey st) as [l|]; [|reflexivity].
  destruct (_ || _); [|reflexivity].
  destruct propagate_using_lackey_.
  - pose proof (run_lackey_deletion_flags
                  (check_solution_deleting env l (expand_to_full_result assignments ∅)
                     true false) (new_domains, false, 0%Z)) as H.
    destruct (run_lackey _ _ _) as [[ok l'] [[ds wipeout] dcount]]. exact H.
  - now destruct (check_solution _ _ _ _ _).
Qed.

Section WellBehavedAllDifferent.

(** The all-different propagator prunes values; it does not change which
    domains are fixed. *)
Hypothesis cheap_all_different_flags : forall n (new_domains : Domains) p,
  map fixed (cheap_all_different env n new_domains p).1.2 = map fixed new_domains.

Lemma propagate_constraints_flags current new_domains (st : State) :
  map fixed (propagate_constraints model params env current new_domains st).1.2
  = map fixed new_domains.
Proof.
  unfold propagate_constraints.
  pose proof (propagate_simple_constraints_flags current new_domains) as H1.
  destruct (propagate_simple_constraints _ _ _ _) as [ok1 ds1]. simpl in H1.
  destruct ok1; simpl; [|exact H1].
  assert (map fixed
            (if bigraph params then propagate_hyperedge_constraints ds1 current
             else (true, ds1)).2 = map fixed new_domains) as H2.
  { now destruct (bigraph params). }
  destruct (if bigraph params then _ else _) as [ok2 ds2]. simpl in H2.
  destruct ok2; simpl; [|exact H2].
  assert (map fixed
            (if has_less_thans model then propagate_less_thans model ds2
             else (true, ds2)).2 = map fixed new_domains) as H3.
  { destruct (has_less_thans model); [|exact H2].
    now rewrite propagate_less_thans_flags. }
  destruct (if has_less_thans model then _ else _) as [ok3 ds3]. simpl in H3.
  destruct ok3; simpl; [|exact H3].
  destruct (injectivity params); simpl; try exact H3.
  pose proof (cheap_all_different_flags (target_size model) ds3 (proof st)) as H4.
  destruct (cheap_all_different _ _ _ _) as [[ok4 ds4] p4]. simpl in *. congruence.
Qed.

Lemma find_unit_domain_Some (new_domains : Domains) i d :
  find_unit_domain new_domains = Some (i, d) ->
  new_domains !! i = Some d /\ fixed d = false.
Proof.
  unfold find_unit_domain. intros H. apply list_find_Some in H as (Hi & Hu & _).
  split; [exact Hi|]. unfold is_unit_domain in Hu.
  apply andb_true_iff in Hu as [Hf _]. now destruct (fixed d).
Qed.

Lemma fixed_count_lt (new_domains : Domains) i d :
  new_domains !! i = Some d -> fixed d = false ->
  (fixed_count new_domains < length new_domains)%nat.
Proof.
  intros Hi Hd. unfold fixed_count.
  apply (length_filter_lt _ _ d); [eapply list_elem_of_lookup_2; exact Hi|congruence].
Qed.

(** The unit-propagation loop ends within as many rounds as there are
    domains that are not fixed, and fixes one domain for each entry that it
    pushes. *)
Lemma propagate_units_total rounds : forall new_domains assignments (st : State),
  (length new_domains - fixed_count new_domains <= rounds)%nat ->
  exists ok new_domains' pushed st',
    propagate_units model params env rounds new_domains assignments st
    = Some (ok, new_domains', assignments ++ pushed, st')
    /\ Forall is_propagated pushed
    /\ fixed_count new_domains' = (fixed_count new_domains + length pushed)%nat
    /\ length new_domains' = length new_domains
    /\ (is_Some (find_unit_domain new_domains) -> pushed <> []).
Proof.
  induction rounds as [|rounds IH]; intros ds a st Hle; simpl.
  - destruct (find_unit_domain ds) as [[i d]|] eqn:Hf.
    + apply find_unit_domain_Some in Hf as [Hi Hd].
      pose proof (fixed_count_lt _ _ _ Hi Hd). lia.
    + exists true, ds, [], st. rewrite app_nil_r.
      split; [reflexivity|]. split; [constructor|]. split; [simpl; lia|].
      split; [reflexivity|]. intros [x Hx]. discriminate.
  - destruct (find_unit_domain ds) as [[i d]|] eqn:Hf.
    + apply find_unit_domain_Some in Hf as [Hi Hd].
      match goal with
      | |- context [propagate_watches params env ?c ?ds1 ?a1 ?st1] =>
          pose proof (propagate_watches_flags c ds1 a1 st1) as Hw;
          destruct (propagate_watches params env c ds1 a1 st1) as [ds2 st2];
          pose proof (propagate_constraints_flags c ds2 st2) as Hc;
          destruct (propagate_constraints model params env c ds2 st2) as [[ok3 ds3] st3]
      end.
      simpl in Hw, Hc.
      assert (fixed_count ds3 = S (fixed_count ds)) as Hcount.
      { rewrite (fixed_count_same_flags _ _ Hc), (fixed_count_same_flags _ _ Hw).
        now apply fixed_count_insert. }
      assert (length ds3 = length ds) as Hlen.
      { rewrite <- (length_map fixed ds3), Hc, Hw, length_map. apply length_insert. }
      destruct ok3; simpl.
      * match goal with
        | |- context [propagate_units _ _ _ rounds ds3 ?a1 st3] =>
            destruct (IH ds3 a1 st3)
              as (ok & ds' & pushed & st' & Hrun & Hall & Hc' & Hl' & _); [lia|]
        end.
        rewrite Hrun, <- app_assoc. simpl.
        eexists ok, ds', (_ :: pushed), st'. split; [reflexivity|].
        split; [constructor; [repeat split|exact Hall]|]. simpl.
        split; [lia|]. split; [lia|discriminate].
      * eexists false, ds3, [_], st3. split; [reflexivity|].
        split; [repeat constructor|]. simpl. split; [lia|]. split; [lia|discriminate].
    + exists true, ds, [], st. rewrite app_nil_r.
      split; [reflexivity|]. split; [constructor|]. split; [simpl; lia|].
      split; [reflexivity|]. intros [x Hx]. discriminate.
Qed.

(** [propagate] always answers.  Whatever the answer, the trail it leaves
    is the trail it was given followed by the entries of the unit
    propagations, one for each domain that became fixed. *)
Lemma propagate_total new_domains assignments propagate_using_lackey_ (st : State) :
  exists ok new_domains' pushed st',
    propagate model params env new_domains assignments propagate_using_lackey_ st
    = Some (ok, new_domains', assignments ++ pushed, st')
    /\ Forall is_propagated pushed
    /\ fixed_count new_domains' = (fixed_count new_domains + length pushed)%nat
    /\ length new_domains' = length new_domains
    /\ (is_Some (find_unit_domain new_domains) -> pushed <> []).
Proof.
  unfold propagate.
  destruct (propagate_units_total (length new_domains) new_domains assignments st)
    as (ok & ds1 & pushed & st1 & -> & Hall & Hcount & Hlen & Hunit); [lia|].
  destruct ok.
  - pose proof (propagate_lackey_flags ds1 (assignments ++ pushed)
                  propagate_using_lackey_ st1) as Hl.
    destruct (propagate_lackey _ _ _ _ _ _) as [[ok2 ds2] st2]. simpl in Hl.
    exists ok2, ds2, pushed, st2. split; [reflexivity|]. split; [exact Hall|].
    split; [now rewrite (fixed_count_same_flags _ _ Hl)|]. split; [|exact Hunit].
    now rewrite <- (length_map fixed ds2), Hl, length_map.
  - exists false, ds1, pushed, st1. auto.
Qed.

End WellBehavedAllDifferent.

End PropagateFacts.

(** ** The restarting search *)

Section SearchFacts.

Context {TimeoutT RestartsT LackeyT WatchesT ProofT RandT : Type}.

Local Abbreviation State := (SearchState TimeoutT RestartsT LackeyT WatchesT ProofT RandT).

Variable model : HomomorphismModel.
Variable params : HomomorphismParams.
Variable env : Collaborators TimeoutT RestartsT LackeyT WatchesT ProofT RandT.

Lemma resize_app (assignments extra : HomomorphismAssignments) :
  resize (length assignments) (assignments ++ extra) = assignments.
Proof.
  unfold resize. rewrite take_app_length, length_app.
  replace (length assignments - (length assignments + length extra))%nat with 0%nat by lia.
  apply app_nil_r.
Qed.

Lemma watches_proof_log event (st : State) :
  watches (proof_log env event st) = watches st.
Proof. unfold proof_log. now destruct (proof st). Qed.

Lemma decision_literals_app (a b : HomomorphismAssignments) :
  decision_literals (a ++ b) = decision_literals a ++ decision_literals b.
Proof. unfold decision_literals. now rewrite filter_app, map_app. Qed.

(** Posting the nogoods for the values tried so far leaves the trail as it
    was, and posts one nogood per value: the decisions of the trail followed
    by that value for the branch variable. *)
Lemma post_nogoods_for_tried_spec branch_domain tried :
  forall assignments (st : State),
    (post_nogoods_for_tried params env branch_domain tried assignments st).1 = assignments
    /\ watches (post_nogoods_for_tried params env branch_domain tried assignments st).2
       = if might_have_watches params then
           fold_left
             (fun w l =>
                watches_post_nogood env w
                  {| literals :=
                       decision_literals assignments
                       ++ [{| pattern_vertex := v branch_domain; target_vertex := l |}] |})
             tried (watches st)
         else watches st.
Proof.
  unfold post_nogoods_for_tried.
  induction tried as [|l tried IH]; intros a st; simpl.
  - now destruct (might_have_watches params).
  - rewrite removelast_last.
    match goal with |- context [fold_left ?f tried (a, ?st1)] =>
      destruct (IH a st1) as [IH1 IH2] end.
    split; [exact IH1|]. rewrite IH2.
    unfold post_nogood. destruct (might_have_watches params); simpl; [|reflexivity].
    rewrite watches_proof_log. simpl.
    now rewrite decision_literals_app.
Qed.

Lemma decide_and_propagate_trail domains branch_domain branch_v_end depth f_v locals
    assignments (st : State) ok new_domains assignments' st' :
  decide_and_propagate model params env domains branch_domain branch_v_end depth f_v
    locals assignments st = Some (ok, new_domains, assignments', st') ->
  exists pushed,
    assignments'
    = assignments
      ++ decision_entry branch_domain f_v (Locals.discrepancy_count locals) branch_v_end
         :: pushed
    /\ Forall is_propagated pushed.
Proof.
  unfold decide_and_propagate. intros H.
  apply propagate_trail in H as (pushed & -> & Hall).
  exists pushed. now rewrite <- app_assoc.
Qed.

Section Frame.

Variable restarting_search_ :
  HomomorphismAssignments -> Domains -> Z -> State ->
  option (SearchResult * HomomorphismAssignments * State).

Hypothesis recursive_call_keeps_trail : keeps_trail restarting_search_.

Variable domains : Domains.
Variable branch_domain : HomomorphismDomain.
Variable branch_v_end : nat.
Variable depth : Z.

Lemma try_value_trail tried f_v locals assignments (st : State) round assignments' st' :
  try_value model params env restarting_search_ domains branch_domain branch_v_end depth
    tried f_v locals assignments st = Some (round, assignments', st') ->
  match round with
  | NextValue _ => assignments' = assignments
  | Return result =>
      exists extra,
        assignments' = assignments ++ extra
        /\ (result <> Satisfiable -> result <> Aborted -> extra = [])
  end.
Proof.
  unfold try_value. intros H.
  destruct (decide_and_propagate _ _ _ _ _ _ _ _ _ _ _) as [[[[ok nd] a1] st1]|] eqn:Hp;
    [|discriminate].
  apply decide_and_propagate_trail in Hp as (pushed & -> & _).
  destruct ok.
  - destruct (restarting_search_ _ _ _ _) as [[[r a2] st2]|] eqn:Hr; [|discriminate].
    apply recursive_call_keeps_trail in Hr as (extra & -> & Hextra).
    rewrite <- app_assoc in H.
    destruct r; simpl in H.
    + injection H as <- <- <-. eexists. split; [reflexivity|]. congruence.
    + injection H as <- <- <-. apply resize_app.
    + injection H as <- <- <-. apply resize_app.
    + injection H as <- <- <-. eexists. split; [reflexivity|]. congruence.
    + injection H as <- <- <-. apply resize_app.
    + rewrite resize_app in H.
      pose proof (post_nogoods_for_tried_spec branch_domain tried assignments st2) as [Ht _].
      destruct (post_nogoods_for_tried _ _ _ _ _ _) as [a3 st3]. simpl in Ht. subst a3.
      injection H as <- <- <-. exists []. now rewrite app_nil_r.
  - injection H as <- <- <-. apply resize_app.
Qed.

Lemma try_values_trail remaining : forall tried locals assignments (st : State)
    result assignments' st',
  try_values model params env restarting_search_ domains branch_domain branch_v_end depth
    tried remaining locals assignments st = Some (result, assignments', st') ->
  exists extra,
    assignments' = assignments ++ extra
    /\ (result <> Satisfiable -> result <> Aborted -> extra = []).
Proof.
  induction remaining as [|f_v rest IH]; intros tried locals a st r a' st' H; simpl in H.
  - unfold out_of_values in H.
    destruct (should_restart _ _) as [restart schedule].
    destruct restart; injection H as <- <- <-; exists []; now rewrite app_nil_r.
  - destruct (try_value _ _ _ _ _ _ _ _ _ _ _ _ _) as [[[round a1] st1]|] eqn:Ht;
      [|discriminate].
    apply try_value_trail in Ht. destruct round as [r1|locals1].
    + now injection H as <- <- <-.
    + subst a1. eapply IH; eauto.
Qed.

End Frame.

Lemma restarting_search_keeps_trail frames :
  keeps_trail (restarting_search model params env frames).
Proof.
  induction frames as [|frames IH]; intros a ds depth st r a' st' H; simpl in H;
    [discriminate|].
  destruct (should_abort _ _) as [abort t]. destruct abort.
  - injection H as <- <- <-. exists []. rewrite app_nil_r. split; congruence.
  - destruct (find_branch_domain model ds) as [[i bd]|].
    + destruct (order_values _ _ _ _ _) as [[branch_v rand]|]; [|discriminate].
      eapply try_values_trail; eauto.
    + destruct (solution_found _ _ _ _ _) as [r1 st1].
      injection H as <- <- <-. exists []. now rewrite app_nil_r.
Qed.

(** C1 (amended): whenever [restarting_search] answers anything but
    [Satisfiable] or [Aborted] (that is [SatisfiableButKeepGoing],
    [Unsatisfiable], [UnsatisfiableAndBackjumpUsingLackey] or [Restart]),
    the trail on return has the length it had on entry; it is that very
    trail. *)
Theorem restarting_search_restores_trail frames assignments domains depth (st : State)
    result assignments' st' :
  restarting_search model params env frames assignments domains depth st
  = Some (result, assignments', st') ->
  result <> Satisfiable -> result <> Aborted ->
  length assignments' = length assignments /\ assignments' = assignments.
Proof.
  intros H Hs Ha.
  apply restarting_search_keeps_trail in H as (extra & -> & Hextra).
  rewrite (Hextra Hs Ha), app_nil_r. auto.
Qed.

(** A call that does not abort, finds a branch domain and gets its
    candidates ordered is the loop over these candidates. *)
Lemma restarting_search_enters_loop frames assignments domains depth (st : State)
    i branch_domain branch_v rand :
  (should_abort env (timeout st)).1 = false ->
  find_branch_domain model domains = Some (i, branch_domain) ->
  order_values model (random env) (value_ordering_heuristic params)
    (remaining_values branch_domain) (global_rand st) = Some (branch_v, rand) ->
  restarting_search model params env (S frames) assignments domains depth st
  = try_values model params env (restarting_search model params env frames) domains
      branch_domain (length branch_v) depth [] branch_v
      {| Locals.discrepancy_count := 0;
         Locals.actually_hit_a_failure := false;
         Locals.use_lackey_for_propagation := false |}
      assignments (loop_entry env st rand).
Proof.
  intros Habort Hb Ho. unfold loop_entry. cbn [restarting_search].
  destruct (should_abort env (timeout st)) as [abort t]. simpl in Habort. subst abort.
  rewrite Hb. cbn [snd]. simpl global_rand. now rewrite Ho.
Qed.

(** The states of [round_reached] are those the loop goes through: from
    such a state, the rest of the loop answers what the whole loop answers
    from its start. *)
Lemma round_reached_on_the_way frames domains branch_domain branch_v_end depth
    assignments0 (st0 : State) tried recursed locals assignments st :
  round_reached model params env (restarting_search model params env frames) domains
    branch_domain branch_v_end depth assignments0 st0
    tried recursed locals assignments st ->
  forall remaining,
    try_values model params env (restarting_search model params env frames) domains
      branch_domain branch_v_end depth tried remaining locals assignments st
    = try_values model params env (restarting_search model params env frames) domains
        branch_domain branch_v_end depth [] (tried ++ remaining)
        {| Locals.discrepancy_count := 0;
           Locals.actually_hit_a_failure := false;
           Locals.use_lackey_for_propagation := false |}
        assignments0 st0.
Proof.
  induction 1 as [|tried recursed locals a st f_v ok nd a1 st1 locals' a' st' _ IH _ Ht];
    intros remaining; [reflexivity|].
  rewrite <- app_assoc. simpl. rewrite <- IH. simpl. now rewrite Ht.
Qed.

(** Every round of the loop starts on the trail that the call received. *)
Lemma round_reached_trail frames domains branch_domain branch_v_end depth
    assignments0 (st0 : State) tried recursed locals assignments st :
  round_reached model params env (restarting_search model params env frames) domains
    branch_domain branch_v_end depth assignments0 st0
    tried recursed locals assignments st ->
  assignments = assignments0.
Proof.
  induction 1 as [|tried recursed locals a st f_v ok nd a1 st1 locals' a' st' _ IH _ Ht];
    [reflexivity|].
  eapply try_value_trail in Ht; [|apply restarting_search_keeps_trail].
  simpl in Ht. congruence.
Qed.

(** The counter of the loop is the number of candidates that passed
    propagation. *)
Lemma round_reached_counts frames domains branch_domain branch_v_end depth
    assignments0 (st0 : State) tried recursed locals assignments st :
  round_reached model params env (restarting_search model params env frames) domains
    branch_domain branch_v_end depth assignments0 st0
    tried recursed locals assignments st ->
  (Z.of_nat (length tried) < 2 ^ 31)%Z ->
  (recursed <= length tried)%nat
  /\ Locals.discrepancy_count locals = Z.of_nat recursed.
Proof.
  induction 1 as [|tried recursed locals a st f_v ok nd a1 st1 locals' a' st'
                    Hreach IH Hp Ht]; intros Htried.
  - simpl. split; [lia|reflexivity].
  - rewrite length_app in Htried. simpl in Htried.
    destruct IH as [Hle Hdc]; [lia|].
    rewrite length_app. simpl.
    unfold try_value in Ht. rewrite Hp in Ht. destruct ok.
    + destruct (restarting_search _ _ _ _ _ _ _ _) as [[[r a2] st2]|]; [|discriminate].
      assert (int (Locals.discrepancy_count locals + 1) = Z.of_nat (S recursed)) as E.
      { rewrite Hdc, int_small; lia. }
      destruct r; simpl in Ht; try discriminate;
        try (injection Ht as <- <- <-; simpl; split; [lia|exact E]).
      destruct (post_nogoods_for_tried _ _ _ _ _ _); discriminate.
    + injection Ht as <- <- <-. simpl. split; [lia|exact Hdc].
Qed.

(** C2 (amended): a call of [restarting_search] that branches on
    [branch_domain] goes through its ordered candidates; when, the
    candidates [before] having been gone through, the recursive call for
    the next candidate answers [Restart], the call itself answers
    [Restart] with the trail it received, after posting, if there may be
    watches, exactly one nogood for each candidate [l] of [before], in
    order: the decisions of the trail the call received, followed by the
    literal (branch.v, l). *)
Theorem restart_posts_nogoods_for_tried frames assignments domains depth (st : State)
    i branch_domain branch_v rand before f_v after recursed locals assignments_k st_k
    new_domains assignments1 st1 assignments2 st2 :
  (should_abort env (timeout st)).1 = false ->
  find_branch_domain model domains = Some (i, branch_domain) ->
  order_values model (random env) (value_ordering_heuristic params)
    (remaining_values branch_domain) (global_rand st) = Some (branch_v, rand) ->
  branch_v = before ++ f_v :: after ->
  round_reached model params env (restarting_search model params env frames) domains
    branch_domain (length branch_v) depth assignments (loop_entry env st rand)
    before recursed locals assignments_k st_k ->
  decide_and_propagate model params env domains branch_domain (length branch_v) depth f_v
    locals assignments_k st_k = Some (true, new_domains, assignments1, st1) ->
  restarting_search model params env frames assignments1 new_domains (int (depth + 1))
    (proof_log env (start_level (int (depth + 2))) st1)
  = Some (Restart, assignments2, st2) ->
  exists st3,
    restarting_search model params env (S frames) assignments domains depth st
    = Some (Restart, assignments, st3)
    /\ watches st3
       = if might_have_watches params then
           fold_left
             (fun w l =>
                watches_post_nogood env w
                  {| literals :=
                       decision_literals assignments
                       ++ [{| pattern_vertex := v branch_domain; target_vertex := l |}] |})
             before (watches st2)
         else watches st2.
Proof.
  intros Habort Hb Ho Hsplit Hreach Hp Hr.
  pose proof (round_reached_trail _ _ _ _ _ _ _ _ _ _ _ _ Hreach) as Htrail.
  subst assignments_k.
  rewrite (restarting_search_enters_loop frames assignments domains depth st
             i branch_domain branch_v rand Habort Hb Ho).
  pose proof (round_reached_on_the_way _ _ _ _ _ _ _ _ _ _ _ _ Hreach (f_v :: after))
    as Hway.
  rewrite <- Hsplit in Hway. rewrite <- Hway. clear Hway.
  cbn [try_values]. unfold try_value. rewrite Hp, Hr.
  apply decide_and_propagate_trail in Hp as (pushed & -> & _).
  apply restarting_search_keeps_trail in Hr as (extra & -> & _).
  rewrite <- app_assoc, resize_app.
  pose proof (post_nogoods_for_tried_spec branch_domain before assignments st2) as [Ht Hw].
  destruct (post_nogoods_for_tried _ _ _ _ _ _) as [a3 st3]. simpl in Ht, Hw. subst a3.
  exists st3. split; [reflexivity|exact Hw].
Qed.

(** C3 (amended): a call of [restarting_search] that branches on
    [branch_domain] goes through its ordered candidates [branch_v]; in the
    round of the candidate [f_v] that comes after the candidates [before],
    the trail handed to propagation and to the recursive call is the trail
    the call received, followed by the decision for [f_v], followed by
    entries of unit propagation.  The decision carries as
    [discrepancy_count] the number of candidates of [before] that passed
    propagation (a candidate whose propagation failed is not counted, so
    the count can be below the position of [f_v]), and as [choice_count]
    the number of candidates of the branch.  When the recursive call
    answers [Satisfiable] or [Aborted], the call answers the same, and the
    decision is on the trail it hands back. *)
Theorem decision_counts_recursed_values frames assignments domains depth (st : State)
    i branch_domain branch_v rand before f_v after recursed locals assignments_k st_k
    ok new_domains assignments1 st1 :
  (should_abort env (timeout st)).1 = false ->
  find_branch_domain model domains = Some (i, branch_domain) ->
  order_values model (random env) (value_ordering_heuristic params)
    (remaining_values branch_domain) (global_rand st) = Some (branch_v, rand) ->
  branch_v = before ++ f_v :: after ->
  round_reached model params env (restarting_search model params env frames) domains
    branch_domain (length branch_v) depth assignments (loop_entry env st rand)
    before recursed locals assignments_k st_k ->
  decide_and_propagate model params env domains branch_domain (length branch_v) depth f_v
    locals assignments_k st_k = Some (ok, new_domains, assignments1, st1) ->
  (Z.of_nat (length branch_v) < 2 ^ 31)%Z ->
  (recursed <= length before)%nat
  /\ exists pushed,
       assignments1
       = assignments
         ++ {| assignment := {| pattern_vertex := v branch_domain; target_vertex := f_v |};
               is_decision := true;
               discrepancy_count := Z.of_nat recursed;
               choice_count := Z.of_nat (length branch_v) |}
            :: pushed
       /\ Forall is_propagated pushed
       /\ forall result assignments2 st2,
            ok = true ->
            restarting_search model params env frames assignments1 new_domains
              (int (depth + 1)) (proof_log env (start_level (int (depth + 2))) st1)
            = Some (result, assignments2, st2) ->
            result = Satisfiable \/ result = Aborted ->
            restarting_search model params env (S frames) assignments domains depth st
            = Some (result, assignments2, st2)
            /\ exists extra,
                 assignments2
                 = assignments
                   ++ {| assignment :=
                           {| pattern_vertex := v branch_domain; target_vertex := f_v |};
                         is_decision := true;
                         discrepancy_count := Z.of_nat recursed;
                         choice_count := Z.of_nat (length branch_v) |}
                      :: pushed ++ extra.
Proof.
  intros Habort Hb Ho Hsplit Hreach Hp Hbound.
  pose proof (round_reached_trail _ _ _ _ _ _ _ _ _ _ _ _ Hreach) as Htrail.
  subst assignments_k.
  assert (Z.of_nat (length before) < 2 ^ 31)%Z as Hbefore.
  { rewrite Hsplit, length_app in Hbound. lia. }
  destruct (round_reached_counts _ _ _ _ _ _ _ _ _ _ _ _ Hreach Hbefore) as [Hle Hdc].
  split; [exact Hle|].
  pose proof Hp as Hpushed.
  apply decide_and_propagate_trail in Hpushed as (pushed & Ha1 & Hall).
  unfold decision_entry in Ha1. rewrite Hdc, int_small in Ha1 by lia.
  exists pushed. split; [exact Ha1|]. split; [exact Hall|].
  intros result a2 st2 -> Hr Hresult.
  rewrite (restarting_search_enters_loop frames assignments domains depth st
             i branch_domain branch_v rand Habort Hb Ho).
  pose proof (round_reached_on_the_way _ _ _ _ _ _ _ _ _ _ _ _ Hreach (f_v :: after))
    as Hway.
  rewrite <- Hsplit in Hway. rewrite <- Hway. clear Hway.
  cbn [try_values]. unfold try_value. rewrite Hp, Hr.
  apply restarting_search_keeps_trail in Hr as (extra & -> & _).
  split.
  - now destruct Hresult as [-> | ->].
  - exists extra. rewrite Ha1, <- app_assoc. reflexivity.
Qed.

End SearchFacts.

(** ** Less-than propagation *)

Section LessThanLoops.

Import SVOBitset SVOBitsetFacts.

Lemma testbit_ones n j : N.testbit (N.ones n) j = (j <? n).
Proof.
  destruct (N.ltb_spec j n); [now apply N.ones_spec_low|now apply N.ones_spec_high].
Qed.

(** What the operations in the words of the specification keep: the values
    greater than the bound, the values up to the bound, and for the highest
    set value a value of the set with none above it. *)
Lemma without_values_up_to_test bound x j :
  test (without_values_up_to bound x) j = test x j && (bound <? j).
Proof.
  unfold test, without_values_up_to. rewrite N.ldiff_spec, testbit_ones. f_equal.
  destruct (N.ltb_spec bound j), (N.ltb_spec j (N.succ bound)); simpl; lia.
Qed.

Lemma without_values_above_test bound x j :
  test (without_values_above bound x) j = test x j && (j <=? bound).
Proof.
  unfold test, without_values_above. rewrite N.land_spec, testbit_ones. f_equal.
  destruct (N.leb_spec j bound), (N.ltb_spec j (N.succ bound)); simpl; lia.
Qed.

Lemma highest_set_test x :
  x <> 0 ->
  test x (highest_set x) = true /\ forall j, highest_set x < j -> test x j = false.
Proof.
  intros Hx. unfold test, highest_set. split; [now apply N.bit_log2|].
  intros j Hj. now apply N.bits_above_log2.
Qed.

(** The loop that resets the values of b below [first_allowed_b] removes
    every value up to [first_a]. *)
Lemma reset_below_eq x first_a :
  reset_below (N.to_nat (count x)) x (first_a + 1) = without_values_up_to first_a x.
Proof.
  apply N.bits_inj. intros j.
  pose proof (reset_below_spec (N.to_nat (count x)) x (first_a + 1) (Nat.le_refl _) j) as H.
  unfold test in H. rewrite H. unfold without_values_up_to.
  rewrite N.ldiff_spec, testbit_ones. f_equal.
  destruct (N.leb_spec (first_a + 1) j), (N.ltb_spec j (N.succ first_a)); simpl; lia.
Qed.

(** The scan for [last_b] finds the highest set value. *)
Lemma last_set_eq x : x <> 0 -> last_set x = highest_set x.
Proof.
  intros Hx. unfold last_set, for_each, highest_set.
  now rewrite drain_last.
Qed.

(** The loop that resets the values of a above [last_allowed_a]. *)
Lemma reset_above_eq x last_allowed_a :
  for_each x (fun w a_values => if last_allowed_a <? w then reset a_values w else a_values) x
  = without_values_above last_allowed_a x.
Proof.
  apply N.bits_inj. intros j. unfold for_each.
  pose proof (drain_reset_above (N.to_nat (count x)) last_allowed_a x x (Nat.le_refl _) j)
    as H.
  unfold test in H. rewrite H. unfold without_values_above.
  rewrite N.land_spec, testbit_ones.
  destruct (N.testbit x j); simpl; [|reflexivity].
  destruct (N.ltb_spec last_allowed_a j), (N.ltb_spec j (N.succ last_allowed_a));
    simpl; lia.
Qed.

Lemma bits_above_bound x n j : x < 2 ^ n -> n <= j -> N.testbit x j = false.
Proof.
  intros Hx Hj. destruct (N.eq_dec x 0) as [->|Hne]; [apply N.bits_0|].
  apply N.bits_above_log2. apply N.log2_lt_pow2 in Hx; lia.
Qed.

(** When no value of b can be as large as [first_allowed_b], removing the
    values up to [first_a] empties b. *)
Lemma without_values_up_to_empty x first_a n :
  x < 2 ^ n -> n <= first_a + 1 -> without_values_up_to first_a x = 0.
Proof.
  intros Hx Hn. apply N.bits_inj_0. intros j. unfold without_values_up_to.
  rewrite N.ldiff_spec, testbit_ones.
  destruct (N.ltb_spec j (N.succ first_a)); simpl; [apply andb_false_r|].
  rewrite (bits_above_bound x n j) by lia. reflexivity.
Qed.

Lemma without_values_up_to_le x bound : without_values_up_to bound x <= x.
Proof. apply N.ldiff_le_l. Qed.

Lemma without_values_above_le x bound : without_values_above bound x <= x.
Proof. apply N.land_le_l. Qed.

End LessThanLoops.

Section LessThanFacts.

Variable model : HomomorphismModel.

Lemma find_domain_table_snoc (new_domains : Domains) d :
  find_domain_table model (new_domains ++ [d])
  = <[N.to_nat (v d) := Z.of_nat (length new_domains)]> (find_domain_table model new_domains).
Proof.
  unfold find_domain_table. rewrite imap_app, fold_left_app. simpl.
  now rewrite Nat.add_0_r.
Qed.

Lemma find_domain_table_length (new_domains : Domains) :
  length (find_domain_table model new_domains) = N.to_nat (pattern_size model).
Proof.
  induction new_domains as [|d ds IH] using rev_ind.
  - apply length_replicate.
  - now rewrite find_domain_table_snoc, length_insert.
Qed.

(** With distinct pattern vertices, the domain of a vertex is the one domain
    that carries it. *)
Lemma domain_of_Some (new_domains : Domains) a i d :
  NoDup (map v new_domains) ->
  domain_of new_domains a = Some (i, d) <-> new_domains !! i = Some d /\ v d = a.
Proof.
  intros Hnd. unfold domain_of. rewrite list_find_Some. split.
  - intros (Hi & Ha & _). auto.
  - intros [Hi Ha]. split; [exact Hi|]. split; [exact Ha|].
    intros j y Hj Hlt Hy.
    assert (map v new_domains !! i = Some a) as Hi'.
    { change (map v) with (fmap (M := list) v). now rewrite list_lookup_fmap, Hi, <- Ha. }
    assert (map v new_domains !! j = Some a) as Hj'.
    { change (map v) with (fmap (M := list) v). now rewrite list_lookup_fmap, Hj, <- Hy. }
    pose proof (NoDup_lookup _ _ _ _ Hnd Hi' Hj'). lia.
Qed.

Lemma domain_of_None (new_domains : Domains) a :
  domain_of new_domains a = None <-> a ∉ map v new_domains.
Proof.
  unfold domain_of. rewrite list_find_None, Forall_forall.
  change (map v) with (fmap (M := list) v). rewrite list_elem_of_fmap. split.
  - intros H (d & -> & Hd). now apply (H d).
  - intros H d Hd E. apply H. exists d. auto.
Qed.

(** The table [find_domain] holds the position of the domain of each pattern
    vertex, and -1 for the vertices that have none. *)
Lemma find_domain_at_table (new_domains : Domains) :
  NoDup (map v new_domains) ->
  Forall (fun d => v d < pattern_size model) new_domains ->
  forall a,
    find_domain_at (find_domain_table model new_domains) a
    = match domain_of new_domains a with
      | Some (i, _) => Z.of_nat i
      | None => (-1)%Z
      end.
Proof.
  induction new_domains as [|d ds IH] using rev_ind; intros Hnd Hb a.
  - unfold find_domain_at, find_domain_table. simpl.
    destruct (replicate _ _ !! _) as [z|] eqn:E; [|reflexivity].
    now apply lookup_replicate in E as [-> _].
  - rewrite map_app in Hnd. simpl in Hnd.
    apply NoDup_app in Hnd as (Hnd & Hfresh & _).
    apply Forall_app in Hb as [Hb Hd]. rewrite Forall_singleton in Hd.
    specialize (IH Hnd Hb a).
    rewrite find_domain_table_snoc. unfold find_domain_at in *.
    destruct (N.eq_dec (v d) a) as [E|Hne].
    + (* the new domain is the one of [a] *)
      subst a. rewrite list_lookup_insert_eq
        by (rewrite find_domain_table_length; lia).
      assert (domain_of (ds ++ [d]) (v d) = Some (length ds, d)) as ->; [|reflexivity].
      unfold domain_of. apply list_find_Some. split; [|split; [reflexivity|]].
      * rewrite lookup_app_r by lia. now rewrite Nat.sub_diag.
      * intros j y Hj Hlt Hy. rewrite lookup_app_l in Hj by exact Hlt.
        apply (Hfresh (v d)); [|apply list_elem_of_singleton; reflexivity].
        rewrite <- Hy. change (map v) with (fmap (M := list) v).
        apply list_elem_of_fmap. exists y. split; [reflexivity|].
        eapply list_elem_of_lookup_2; exact Hj.
    + rewrite list_lookup_insert_ne by lia. rewrite IH.
      unfold domain_of. destruct (list_find _ ds) as [[i x]|] eqn:Hf.
      * now rewrite (list_find_app_l _ _ _ _ _ Hf).
      * assert (list_find (fun d0 => v d0 = a) (ds ++ [d]) = None) as ->; [|reflexivity].
        apply list_find_None. apply Forall_app. split.
        -- now apply list_find_None in Hf.
        -- now rewrite Forall_singleton.
Qed.

(** The table depends on the pattern vertices of the domains only. *)
Lemma find_domain_table_same_vertices (new_domains : Domains) : forall new_domains' : Domains,
  map v new_domains' = map v new_domains ->
  find_domain_table model new_domains' = find_domain_table model new_domains.
Proof.
  induction new_domains as [|d ds IH] using rev_ind; intros ds' H.
  - now destruct ds'.
  - induction ds' as [|d' ds0 _] using rev_ind; [now destruct ds|].
    rewrite !map_app in H. simpl in H.
    apply app_inj_tail in H as [H1 H2].
    rewrite !find_domain_table_snoc, (IH _ H1), H2.
    f_equal. f_equal. rewrite <- (length_map v ds0), H1. apply length_map.
Qed.

Lemma both_domains_spec (new_domains : Domains) a b :
  NoDup (map v new_domains) ->
  Forall (fun d => v d < pattern_size model) new_domains ->
  both_domains (find_domain_table model new_domains) new_domains a b
  = match domain_of new_domains a, domain_of new_domains b with
    | Some (ia, a_domain), Some (ib, b_domain) => Some (ia, a_domain, (ib, b_domain))
    | _, _ => None
    end.
Proof.
  intros Hnd Hb. unfold both_domains.
  rewrite !find_domain_at_table by assumption.
  destruct (domain_of new_domains a) as [[ia da]|] eqn:Ha; [|reflexivity].
  destruct (domain_of new_domains b) as [[ib db]|] eqn:Hdb;
    [|destruct (Z.eqb_spec (Z.of_nat ia) (-1)); [lia|reflexivity]].
  destruct (Z.eqb_spec (Z.of_nat ia) (-1)); [lia|].
  destruct (Z.eqb_spec (Z.of_nat ib) (-1)); [lia|]. simpl.
  rewrite !Nat2Z.id.
  apply domain_of_Some in Ha as [-> _]; [|exact Hnd].
  now apply domain_of_Some in Hdb as [-> _].
Qed.

(** Tightening one domain keeps the collection well formed. *)
Lemma well_formed_tightened (new_domains : Domains) i d x :
  well_formed model new_domains -> new_domains !! i = Some d -> x <= values d ->
  well_formed model (<[i := tightened x d]> new_domains)
  /\ map v (<[i := tightened x d]> new_domains) = map v new_domains.
Proof.
  intros (Hnd & Hv & Hval) Hi Hx.
  assert (map v (<[i := tightened x d]> new_domains) = map v new_domains) as Hmap.
  { change (map v) with (fmap (M := list) v). rewrite list_fmap_insert. simpl.
    apply list_insert_id. now rewrite list_lookup_fmap, Hi. }
  split; [|exact Hmap]. split; [now rewrite Hmap|]. split.
  - apply Forall_insert; [exact Hv|]. simpl.
    rewrite Forall_forall in Hv. apply Hv. eapply list_elem_of_lookup_2; exact Hi.
  - apply Forall_insert; [exact Hval|]. simpl.
    rewrite Forall_forall in Hval.
    pose proof (Hval d (list_elem_of_lookup_2 _ _ _ Hi)) as Hd. simpl in Hd. lia.
Qed.

(** Positions of the domains of a vertex agree between two collections over
    the same vertices. *)
Lemma domain_of_same_position (new_domains new_domains' : Domains) a i d i' d' :
  NoDup (map v new_domains) -> map v new_domains' = map v new_domains ->
  domain_of new_domains a = Some (i, d) -> domain_of new_domains' a = Some (i', d') ->
  i' = i /\ new_domains' !! i = Some d'.
Proof.
  intros Hnd Hmap H H'.
  apply domain_of_Some in H as [Hi Ha]; [|exact Hnd].
  apply domain_of_Some in H' as [Hi' Ha']; [|now rewrite Hmap].
  assert (map v new_domains !! i = Some a) as E.
  { change (map v) with (fmap (M := list) v). now rewrite list_lookup_fmap, Hi, <- Ha. }
  assert (map v new_domains !! i' = Some a) as E'.
  { rewrite <- Hmap. change (map v) with (fmap (M := list) v).
    now rewrite list_lookup_fmap, Hi', <- Ha'. }
  pose proof (NoDup_lookup _ _ _ _ Hnd E E') as <-. auto.
Qed.

Lemma domain_of_transfer (new_domains new_domains' : Domains) a i' d' :
  NoDup (map v new_domains) -> map v new_domains' = map v new_domains ->
  domain_of new_domains' a = Some (i', d') ->
  exists d, domain_of new_domains a = Some (i', d).
Proof.
  intros Hnd Hmap H'.
  apply domain_of_Some in H' as [Hi' Ha']; [|now rewrite Hmap].
  assert (map v new_domains !! i' = Some a) as E'.
  { rewrite <- Hmap. change (map v) with (fmap (M := list) v).
    now rewrite list_lookup_fmap, Hi', <- Ha'. }
  change (map v) with (fmap (M := list) v) in E'. rewrite list_lookup_fmap in E'.
  destruct (new_domains !! i') as [d|] eqn:Hi; [|discriminate].
  exists d. apply domain_of_Some; [exact Hnd|]. split; [exact Hi|].
  simpl in E'. congruence.
Qed.

(** The first loop of [propagate_less_thans] is the first pass of the
    specification. *)
Lemma first_pass_refines pairs : forall (new_domains : Domains) ok new_domains1,
  well_formed model new_domains ->
  less_thans_first_pass model (find_domain_table model new_domains) pairs new_domains
  = (ok, new_domains1) ->
  exists new_domains1',
    tighten_b_below pairs new_domains = (ok, new_domains1')
    /\ (ok = true ->
        new_domains1' = new_domains1
        /\ well_formed model new_domains1
        /\ map v new_domains1 = map v new_domains
        /\ stays_nonempty new_domains new_domains1
        /\ upper_ends_nonempty pairs new_domains1).
Proof.
  induction pairs as [|[a b] rest IH]; intros ds ok ds1 Hwf H; simpl in H |- *.
  - injection H as <- <-. exists ds. split; [reflexivity|]. intros _.
    repeat split; try apply Hwf.
    + intros i d Hi Hd. eauto.
    + intros a b Hab. now apply elem_of_nil in Hab.
  - pose proof Hwf as (Hnd & Hv & Hval).
    rewrite both_domains_spec in H by assumption.
    assert (forall ok ds1,
              less_thans_first_pass model (find_domain_table model ds) rest ds = (ok, ds1) ->
              (domain_of ds a = None \/ domain_of ds b = None) ->
              exists ds1',
                tighten_b_below rest ds = (ok, ds1')
                /\ (ok = true ->
                    ds1' = ds1 /\ well_formed model ds1 /\ map v ds1 = map v ds
                    /\ stays_nonempty ds ds1
                    /\ upper_ends_nonempty ((a, b) :: rest) ds1)) as Hskip.
    { intros ok' ds1' H' Habsent.
      destruct (IH _ _ _ Hwf H') as (ds2 & -> & Hpost). exists ds2.
      split; [reflexivity|]. intros Hok.
      destruct (Hpost Hok) as (-> & Hwf1 & Hmap & Hst & Hne).
      repeat split; try assumption; try apply Hwf1.
      intros a' b' Hin ia da ib db Ha Hb.
      apply elem_of_cons in Hin as [[= -> ->]|Hin]; [|eauto].
      exfalso. destruct Hwf1 as (Hnd1 & _).
      destruct Habsent as [Hn|Hn].
      - destruct (domain_of_transfer ds ds1' a ia da Hnd Hmap Ha) as [d Hd]. congruence.
      - destruct (domain_of_transfer ds ds1' b ib db Hnd Hmap Hb) as [d Hd]. congruence. }
    destruct (domain_of ds a) as [[ia da]|] eqn:Ha; [|eapply Hskip; eauto].
    destruct (domain_of ds b) as [[ib db]|] eqn:Hb; [|eapply Hskip; eauto].
    clear Hskip.
    pose proof Ha as [Hia Hva]%domain_of_Some; [|exact Hnd].
    pose proof Hb as [Hib Hvb]%domain_of_Some; [|exact Hnd].
    destruct (SVOBitset.find_first (values da)) as [first_a|].
    2:{ injection H as <- <-. eexists. split; [reflexivity|discriminate]. }
    assert (values db < 2 ^ target_size model) as Hdb.
    { rewrite Forall_forall in Hval. apply (Hval db).
      eapply list_elem_of_lookup_2; exact Hib. }
    destruct (N.leb_spec (target_size model) (first_a + 1)) as [Hts|Hts].
    + (* no value is left for b *)
      injection H as <- <-.
      rewrite (without_values_up_to_empty _ _ _ Hdb Hts). simpl.
      eexists. split; [reflexivity|discriminate].
    + rewrite reset_below_eq in H.
      change (set_count (SVOBitset.count ?x) (set_values ?x ?d)) with (tightened x d) in H.
      set (b_values := without_values_up_to first_a (values db)) in *.
      change (count (tightened b_values db)) with (SVOBitset.count b_values) in H.
      destruct (N.eqb_spec (SVOBitset.count b_values) 0) as [Hz|Hnz].
      * injection H as <- <-. eexists. split; [reflexivity|discriminate].
      * destruct (well_formed_tightened ds ib db b_values Hwf Hib
                    (without_values_up_to_le _ _)) as [Hwf' Hmap'].
        rewrite <- (find_domain_table_same_vertices _ _ Hmap') in H.
        destruct (IH _ _ _ Hwf' H) as (ds2 & -> & Hpost). exists ds2.
        split; [reflexivity|]. intros Hok.
        destruct (Hpost Hok) as (-> & Hwf1 & Hmap & Hst & Hne).
        assert (stays_nonempty ds ds1) as Hst1.
        { intros i d Hi Hd. destruct (decide (i = ib)) as [->|Hneq].
          - apply (Hst ib (tightened b_values db)).
            + apply list_lookup_insert_eq. eapply lookup_lt_Some; exact Hib.
            + simpl. intros E. apply Hnz. now apply SVOBitsetFacts.count_zero.
          - apply (Hst i d); [|exact Hd]. now rewrite list_lookup_insert_ne. }
        repeat split; try assumption; try apply Hwf1; [congruence|].
        intros a' b' Hin ia' da' ib' db' Ha' Hb'.
        apply elem_of_cons in Hin as [[= -> ->]|Hin]; [|eauto].
        destruct (Hst ib (tightened b_values db)) as (d1 & Hd1 & Hd1ne).
        { apply list_lookup_insert_eq. eapply lookup_lt_Some; exact Hib. }
        { simpl. intros E. apply Hnz. now apply SVOBitsetFacts.count_zero. }
        destruct (domain_of_same_position ds ds1 b ib db ib' db' Hnd) as [-> Hlook];
          [congruence|exact Hb|exact Hb'|].
        congruence.
Qed.

(** The second loop of [propagate_less_thans] is the second pass of the
    specification, once the first pass has left no upper end empty. *)
Lemma second_pass_refines pairs : forall (new_domains : Domains) ok new_domains1,
  well_formed model new_domains ->
  upper_ends_nonempty pairs new_domains ->
  less_thans_second_pass (find_domain_table model new_domains) pairs new_domains
  = (ok, new_domains1) ->
  exists new_domains1',
    tighten_a_above pairs new_domains = (ok, new_domains1')
    /\ (ok = true -> new_domains1' = new_domains1).
Proof.
  induction pairs as [|[a b] rest IH]; intros ds ok ds1 Hwf Hne H; simpl in H |- *.
  - injection H as <- <-. eauto.
  - pose proof Hwf as (Hnd & Hv & Hval).
    rewrite both_domains_spec in H by assumption.
    assert (upper_ends_nonempty rest ds) as Hne'.
    { intros a' b' Hin. apply Hne. now apply elem_of_cons; right. }
    destruct (domain_of ds a) as [[ia da]|] eqn:Ha; [|eapply IH; eauto].
    destruct (domain_of ds b) as [[ib db]|] eqn:Hb; [|eapply IH; eauto].
    pose proof Ha as [Hia Hva]%domain_of_Some; [|exact Hnd].
    assert (values db <> 0) as Hdb.
    { eapply (Hne a b); [apply elem_of_cons; now left|exact Ha|exact Hb]. }
    rewrite (last_set_eq _ Hdb) in H.
    destruct (highest_set (values db) =? 0).
    { injection H as <- <-. eexists. split; [reflexivity|discriminate]. }
    rewrite reset_above_eq in H.
    change (set_count (SVOBitset.count ?x) (set_values ?x ?d)) with (tightened x d) in H.
    set (a_values := without_values_above (highest_set (values db) - 1) (values da)) in *.
    change (count (tightened a_values da)) with (SVOBitset.count a_values) in H.
    destruct (N.eqb_spec (SVOBitset.count a_values) 0) as [Hz|Hnz].
    { injection H as <- <-. eexists. split; [reflexivity|discriminate]. }
    destruct (well_formed_tightened ds ia da a_values Hwf Hia
                (without_values_above_le _ _)) as [Hwf' Hmap'].
    rewrite <- (find_domain_table_same_vertices _ _ Hmap') in H.
    eapply IH; [exact Hwf'| |exact H].
    (* the upper ends are still not empty *)
    intros a' b' Hin ia' da' ib' db' Ha' Hb'.
    destruct (domain_of_transfer ds _ a' ia' da' Hnd Hmap' Ha') as [da0 Ha0].
    destruct (domain_of_transfer ds _ b' ib' db' Hnd Hmap' Hb') as [db0 Hb0].
    pose proof (Hne' a' b' Hin _ _ _ _ Ha0 Hb0) as Hdb0.
    apply domain_of_Some in Hb' as [Hib' _]; [|now rewrite Hmap'].
    apply domain_of_Some in Hb0 as [Hib0 _]; [|exact Hnd].
    destruct (decide (ib' = ia)) as [->|Hneq].
    + rewrite list_lookup_insert_eq in Hib' by (eapply lookup_lt_Some; exact Hia).
      injection Hib' as <-. simpl. intros E. apply Hnz.
      now apply SVOBitsetFacts.count_zero.
    + rewrite list_lookup_insert_ne in Hib' by congruence. congruence.
Qed.

(** C7: on well-formed domains, [propagate_less_thans] answers what the two
    passes of the specification answer, and on success leaves the domains
    they leave: for every pair (a, b) with both domains present, the first
    pass removes from b every value less than or equal to the first set
    value of a, failing if a is empty or b becomes empty; the second pass
    takes the highest set value of b as last_b, fails if it is 0, removes
    from a every value greater than last_b - 1, and fails if a becomes
    empty; pairs with an absent end are skipped. *)
Theorem propagate_less_thans_two_passes (new_domains : Domains) :
  well_formed model new_domains ->
  (propagate_less_thans model new_domains).1
  = (propagate_less_thans_as_specified model new_domains).1
  /\ ((propagate_less_thans model new_domains).1 = true ->
      (propagate_less_thans model new_domains).2
      = (propagate_less_thans_as_specified model new_domains).2).
Proof.
  intros Hwf. unfold propagate_less_thans, propagate_less_thans_as_specified.
  destruct (less_thans_first_pass _ _ _ _) as [ok ds1] eqn:H1.
  destruct (first_pass_refines _ _ _ _ Hwf H1) as (ds1' & -> & Hpost).
  destruct ok; simpl; [|split; [reflexivity|discriminate]].
  destruct (Hpost eq_refl) as (-> & Hwf1 & Hmap & _ & Hne).
  rewrite <- (find_domain_table_same_vertices _ _ Hmap).
  destruct (less_thans_second_pass _ _ _) as [ok ds2] eqn:H2.
  destruct (second_pass_refines _ _ _ _ Hwf1 Hne H2) as (ds2' & -> & Hpost2).
  simpl. split; [reflexivity|]. intros ->. symmetry. now apply Hpost2.
Qed.

End LessThanFacts.

(** ** Further properties of the search and of propagation *)

Section MoreSearchFacts.

Context {TimeoutT RestartsT LackeyT WatchesT ProofT RandT : Type}.

Local Abbreviation State := (SearchState TimeoutT RestartsT LackeyT WatchesT ProofT RandT).

Variable model : HomomorphismModel.
Variable params : HomomorphismParams.
Variable env : Collaborators TimeoutT RestartsT LackeyT WatchesT ProofT RandT.

Lemma nodes_proof_log event (st : State) : nodes (proof_log env event st) = nodes st.
Proof. unfold proof_log. now destruct (proof st). Qed.

Lemma propagations_proof_log event (st : State) :
  propagations (proof_log env event st) = propagations st.
Proof. unfold proof_log. now destruct (proof st). Qed.

(** Handling a full assignment touches neither [nodes] nor
    [propagations]. *)
Lemma solution_found_counters assignments (st : State) :
  nodes (solution_found model params env assignments st).2 = nodes st
  /\ propagations (solution_found model params env assignments st).2 = propagations st.
Proof.
  unfold solution_found.
  destruct (bigraph params && _); [now split|].
  destruct (lackey st) as [l|]; [destruct (check_solution _ _ _ _ _) as [[|] l']|];
    simpl; try (now split);
    destruct (count_solutions params), (bigraph params), (enumerate_callback params); simpl;
    rewrite ?nodes_proof_log, ?propagations_proof_log; now split.
Qed.

(** C8 (amended): for an empty collection of domains, if the timeout does
    not say abort and neither the bigraph check nor the lackey rejects the
    mapping, [restarting_search] answers at once, without branching,
    propagation or recursion, and leaves the trail as it was (so that an
    empty trail gives the empty mapping): [Satisfiable] when solutions are
    not counted, [SatisfiableButKeepGoing] when they are. *)
Theorem empty_pattern_answers_at_once frames assignments depth (st : State) :
  (should_abort env (timeout st)).1 = false ->
  (bigraph params = true ->
   check_extra_bigraph_constraints model (expand_to_full_result assignments ∅) = true) ->
  (forall l, lackey st = Some l ->
     (check_solution env l (expand_to_full_result assignments ∅) false
        (count_solutions params)).1 = true) ->
  exists st',
    restarting_search model params env (S frames) assignments [] depth st
    = Some (if count_solutions params then SatisfiableButKeepGoing else Satisfiable,
            assignments, st')
    /\ nodes st' = increment_counter (nodes st)
    /\ propagations st' = propagations st
    /\ (assignments = [] -> expand_to_full_result assignments ∅ = ∅).
Proof.
  intros Habort Hbigraph Hlackey. simpl.
  destruct (should_abort env (timeout st)) as [abort t]. simpl in Habort. subst abort.
  unfold find_branch_domain. simpl.
  match goal with |- context [solution_found model params env assignments ?s] =>
    pose proof (solution_found_counters assignments s) as [Hn Hp];
    assert ((solution_found model params env assignments s).1
            = if count_solutions params then SatisfiableButKeepGoing else Satisfiable)
      as Hr;
    [|destruct (solution_found model params env assignments s) as [r st'] ]
  end.
  { unfold solution_found.
    destruct (bigraph params) eqn:Hb; simpl.
    - rewrite (Hbigraph eq_refl). simpl.
      destruct (lackey st) as [l|] eqn:Hl; simpl.
      + specialize (Hlackey l eq_refl).
        destruct (check_solution _ _ _ _ _) as [ok l']. simpl in Hlackey. subst ok.
        simpl. now destruct (count_solutions params).
      + now destruct (count_solutions params).
    - destruct (lackey st) as [l|] eqn:Hl; simpl.
      + specialize (Hlackey l eq_refl).
        destruct (check_solution _ _ _ _ _) as [ok l']. simpl in Hlackey. subst ok.
        simpl. now destruct (count_solutions params).
      + now destruct (count_solutions params). }
  simpl in *. subst r. exists st'. split; [reflexivity|].
  split; [exact Hn|]. split; [exact Hp|]. intros ->. reflexivity.
Qed.

(** *** The lackey after the fixpoint *)

Lemma decrement_pred n : 1 <= n < 2 ^ 32 -> decrement n = n - 1.
Proof.
  intros Hn. unfold decrement.
  replace (n + 2 ^ 32 - 1) with (n - 1 + 1 * 2 ^ 32) by lia.
  rewrite N.Div0.mod_add. apply N.mod_small. lia.
Qed.

(** What the scan of the deletion function does. *)
Lemma delete_value_spec p t (new_domains : Domains) :
  delete_value p t new_domains
  = match domain_of new_domains p with
    | Some (i, d) =>
        if SVOBitset.test (values d) t then
          Some (<[i := set_count (decrement (count d))
                         (set_values (SVOBitset.reset (values d) t) d)]> new_domains,
                decrement (count d) =? 0)
        else None
    | None => None
    end.
Proof.
  unfold domain_of. induction new_domains as [|d rest IH]; simpl; [reflexivity|].
  destruct (N.eqb_spec (v d) p) as [E|Hne].
  - rewrite decide_True by exact E. simpl. now destruct (SVOBitset.test _ _).
  - rewrite decide_False by exact Hne. rewrite IH.
    destruct (list_find _ rest) as [[i x]|]; simpl; [|reflexivity].
    now destruct (SVOBitset.test _ _).
Qed.

(** C5 (amended): after the unit-propagation fixpoint, when a lackey is
    configured and this frame asked for lackey propagation or partials are
    sent to the lackey, [check_solution] is called with the partial
    mapping, partial = true and count = false.  It is handed the deletion
    function only when this frame asked for lackey propagation, and the
    empty function otherwise.  The deletion function looks at the first
    domain whose v is p: unless a wipeout has occurred, it removes t from
    it if t is there and answers true exactly then, and it marks a wipeout
    when that takes the count (which is the number of values of a domain
    that was counted) to zero, the domain being empty then.  [propagate]
    answers failure when [check_solution] answers false or a wipeout
    occurred. *)
Theorem lackey_called_after_fixpoint :
  (* the call *)
  (forall new_domains assignments propagate_using_lackey_ (st : State),
     propagate_lackey params env new_domains assignments propagate_using_lackey_ st
     = match lackey st with
       | Some l =>
           let mapping := expand_to_full_result assignments ∅ in
           if propagate_using_lackey_ then
             let '(ok, l, (new_domains, wipeout, _)) :=
               run_lackey deletion (check_solution_deleting env l mapping true false)
                 (new_domains, false, 0%Z) in
             (ok && negb wipeout, new_domains, set_lackey (Some l) st)
           else if send_partials_to_lackey params then
             let '(ok, l) := check_solution env l mapping true false in
             (ok, new_domains, set_lackey (Some l) st)
           else (true, new_domains, st)
       | None => (true, new_domains, st)
       end)
  (* it comes after the fixpoint, and decides the answer *)
  /\ (forall new_domains assignments propagate_using_lackey_ (st : State)
        new_domains1 assignments1 st1,
        propagate_units model params env (length new_domains) new_domains assignments st
        = Some (true, new_domains1, assignments1, st1) ->
        propagate model params env new_domains assignments propagate_using_lackey_ st
        = Some ((propagate_lackey params env new_domains1 assignments1
                   propagate_using_lackey_ st1).1.1,
                (propagate_lackey params env new_domains1 assignments1
                   propagate_using_lackey_ st1).1.2,
                assignments1,
                (propagate_lackey params env new_domains1 assignments1
                   propagate_using_lackey_ st1).2))
  (* the deletion function *)
  /\ (forall p t (new_domains : Domains) wipeout dcount,
        deletion p t (new_domains, wipeout, dcount)
        = match (if wipeout then None else domain_of new_domains (unsigned p)) with
          | Some (i, d) =>
              if SVOBitset.test (values d) (unsigned t) then
                (true,
                 (<[i := set_count (decrement (count d))
                           (set_values (SVOBitset.reset (values d) (unsigned t)) d)]>
                    new_domains,
                  decrement (count d) =? 0, int (dcount + 1)))
              else (false, (new_domains, wipeout, dcount))
          | None => (false, (new_domains, wipeout, dcount))
          end)
  /\ (forall d t,
        SVOBitset.test (SVOBitset.reset (values d) t) t = false
        /\ (SVOBitset.test (values d) t = true ->
            count d = SVOBitset.count (values d) -> count d < 2 ^ 32 ->
            ((decrement (count d) =? 0) = true
             <-> SVOBitset.reset (values d) t = SVOBitset.empty))).
Proof.
  split; [|split; [|split]].
  - intros ds a pul st. unfold propagate_lackey.
    destruct (lackey st) as [l|]; [|reflexivity].
    destruct pul; simpl; [reflexivity|].
    now destruct (send_partials_to_lackey params).
  - intros ds a pul st ds1 a1 st1 H. unfold propagate. rewrite H.
    now destruct (propagate_lackey _ _ _ _ _ _) as [[ok ds2] st2].
  - intros p t ds wipeout dcount. unfold deletion.
    destruct wipeout; simpl; [reflexivity|].
    rewrite delete_value_spec.
    destruct (domain_of ds (unsigned p)) as [[i d]|]; [|reflexivity].
    now destruct (SVOBitset.test _ _).
  - intros d t. split.
    + unfold SVOBitset.test, SVOBitset.reset. apply N.clearbit_eq.
    + intros Ht Hc Hb.
      pose proof (SVOBitsetFacts.count_reset t (values d) Ht) as Hr.
      rewrite decrement_pred by lia. rewrite N.eqb_eq.
      unfold SVOBitset.empty. rewrite <- SVOBitsetFacts.count_zero. lia.
Qed.

End MoreSearchFacts.

(** ** The search always answers *)

(** The domains a call works on: those that are not fixed. *)
Lemma copy_nonfixed_not_fixed (domains : Domains) branch_v f_v :
  Forall (fun d => fixed d = false)
    (copy_nonfixed_domains_and_make_assignment domains branch_v f_v).
Proof.
  induction domains as [|d rest IH]; simpl; [constructor|].
  destruct (fixed d) eqn:Hd; [exact IH|].
  constructor; [|exact IH]. now destruct (v d =? branch_v).
Qed.

Lemma fixed_count_le (domains : Domains) : (fixed_count domains <= length domains)%nat.
Proof. apply length_filter. Qed.

Lemma fixed_count_none (domains : Domains) :
  Forall (fun d => fixed d = false) domains -> fixed_count domains = 0%nat.
Proof.
  unfold fixed_count. induction 1 as [|d rest Hd _ IH]; [reflexivity|].
  rewrite filter_cons. destruct (decide (fixed d = true)); [congruence|exact IH].
Qed.

Lemma copy_nonfixed_length (domains : Domains) branch_v f_v :
  length (copy_nonfixed_domains_and_make_assignment domains branch_v f_v)
  = (length domains - fixed_count domains)%nat.
Proof.
  induction domains as [|d rest IH]; simpl; [reflexivity|].
  pose proof (fixed_count_le rest) as Hle.
  unfold fixed_count in *. rewrite filter_cons.
  destruct (fixed d) eqn:Hd; destruct (decide (_ = true)); try congruence; simpl; lia.
Qed.

(** The copy of the branch domain holds the candidate alone, so unit
    propagation has something to start from. *)
Lemma copy_nonfixed_unit (domains : Domains) f_v d :
  d ∈ domains -> fixed d = false ->
  is_Some (find_unit_domain
             (copy_nonfixed_domains_and_make_assignment domains (v d) f_v)).
Proof.
  intros Hin Hd.
  assert (exists e,
            e ∈ copy_nonfixed_domains_and_make_assignment domains (v d) f_v
            /\ is_unit_domain e = true) as (e & He & Hunit).
  { induction domains as [|c rest IH]; [now apply elem_of_nil in Hin|].
    simpl. apply elem_of_cons in Hin as [<-|Hin].
    - rewrite Hd, N.eqb_refl. eexists. split; [apply list_elem_of_here|].
      unfold is_unit_domain. simpl. now rewrite Hd.
    - destruct (IH Hin) as (e & He & Hunit).
      exists e. split; [|exact Hunit].
      destruct (fixed c); [exact He|now apply list_elem_of_further]. }
  unfold find_unit_domain.
  destruct (list_find _ _) as [found|] eqn:Hf; [now exists found|].
  rewrite list_find_None in Hf. rewrite Forall_forall in Hf.
  now destruct (Hf e He).
Qed.

Section Termination.

Context {TimeoutT RestartsT LackeyT WatchesT ProofT RandT : Type}.

Local Abbreviation State := (SearchState TimeoutT RestartsT LackeyT WatchesT ProofT RandT).

Variable model : HomomorphismModel.
Variable params : HomomorphismParams.
Variable env : Collaborators TimeoutT RestartsT LackeyT WatchesT ProofT RandT.

(** The all-different propagator removes values; it does not change which
    domains are fixed. *)
Hypothesis cheap_all_different_flags :
  forall n (new_domains : Domains) p,
    map fixed (cheap_all_different env n new_domains p).1.2 = map fixed new_domains.

(** Propagation after a decision on the branch domain answers, and on the
    domains it leaves at least one more domain is fixed than on the domains
    of the call: the copy drops the fixed ones, and unit propagation fixes
    the branch domain at the least. *)
Lemma decide_and_propagate_progress (domains : Domains) i branch_domain branch_v_end depth
    f_v locals assignments (st : State) :
  find_branch_domain model domains = Some (i, branch_domain) ->
  exists ok new_domains assignments' st',
    decide_and_propagate model params env domains branch_domain branch_v_end depth f_v
      locals assignments st = Some (ok, new_domains, assignments', st')
    /\ (length new_domains - fixed_count new_domains
        < length domains - fixed_count domains)%nat.
Proof.
  intros Hb.
  pose proof (find_branch_domain_from_scanned model domains [] None (Forall_nil_2 _)) as Hs.
  simpl in Hs. fold (find_branch_domain model domains) in Hs. rewrite Hb in Hs.
  destruct Hs as (Hi & Hfixed & _).
  unfold decide_and_propagate.
  match goal with |- context [propagate _ _ _ ?nd ?a ?pul ?s] =>
    destruct (propagate_total model params env cheap_all_different_flags nd a pul s)
      as (ok & nd' & pushed & st' & -> & _ & Hcount & Hlen & Hunit)
  end.
  eexists ok, nd', _, st'. split; [reflexivity|].
  rewrite Hcount, Hlen, copy_nonfixed_length,
    (fixed_count_none _ (copy_nonfixed_not_fixed _ _ _)).
  specialize (Hunit (copy_nonfixed_unit domains f_v branch_domain
                       (list_elem_of_lookup_2 _ _ _ Hi) Hfixed)).
  assert (fixed_count domains < length domains)%nat.
  { pose proof (copy_nonfixed_length domains (v branch_domain) f_v) as Hl.
    destruct (copy_nonfixed_unit domains f_v branch_domain
                (list_elem_of_lookup_2 _ _ _ Hi) Hfixed) as [[k e] He].
    unfold find_unit_domain in He. apply list_find_Some in He as (Hk & _).
    apply lookup_lt_Some in Hk. lia. }
  destruct pushed; [congruence|simpl; lia].
Qed.

Section Frame.

Variable frames : nat.
Variable domains : Domains.
Variable i : nat.
Variable branch_domain : HomomorphismDomain.
Variable branch_v_end : nat.
Variable depth : Z.

Hypothesis branch_domain_found :
  find_branch_domain model domains = Some (i, branch_domain).

(** The calls below this one answer. *)
Hypothesis recursive_call_answers :
  forall assignments (new_domains : Domains) depth' (st : State),
    (length new_domains - fixed_count new_domains < frames)%nat ->
    is_Some (restarting_search model params env frames assignments new_domains depth' st).

Hypothesis enough_frames : (length domains - fixed_count domains <= frames)%nat.

Lemma try_value_answers tried f_v locals assignments (st : State) :
  is_Some (try_value model params env (restarting_search model params env frames) domains
             branch_domain branch_v_end depth tried f_v locals assignments st).
Proof.
  unfold try_value.
  destruct (decide_and_propagate_progress domains i branch_domain branch_v_end depth f_v
              locals assignments st branch_domain_found)
    as (ok & nd & a1 & st1 & -> & Hlt).
  destruct ok; [|eexists; reflexivity].
  match goal with |- context [restarting_search _ _ _ _ ?a ?ds ?dp ?s] =>
    destruct (recursive_call_answers a ds dp s) as [[[r a2] st2] ->]; [lia|]
  end.
  destruct r; try (eexists; reflexivity).
  destruct (post_nogoods_for_tried _ _ _ _ _ _). eexists; reflexivity.
Qed.

Lemma try_values_answers remaining : forall tried locals assignments (st : State),
  is_Some (try_values model params env (restarting_search model params env frames) domains
             branch_domain branch_v_end depth tried remaining locals assignments st).
Proof.
  induction remaining as [|f_v rest IH]; intros tried locals a st; simpl;
    [eexists; reflexivity|].
  destruct (try_value_answers tried f_v locals a st) as [[[round a1] st1] ->].
  destruct round; [eexists; reflexivity|apply IH].
Qed.

End Frame.

(** Apart from the biased ordering, whose sum of weights can leave the
    range of its type, the candidates are always put in order. *)
Lemma order_values_defined (branch_v : list N) (rand : RandT) :
  value_ordering_heuristic params <> Biased ->
  is_Some (order_values model (random env) (value_ordering_heuristic params) branch_v rand).
Proof.
  intros H. destruct (value_ordering_heuristic params); try (eexists; reflexivity).
  congruence.
Qed.

(** X17: [restarting_search] comes to an end.  Every call below another
    works on domains of which at least one more is fixed, so the recursion
    is no deeper than the number of domains that are not fixed: given more
    frames than that, a search under an ordering other than the biased one
    answers, whatever its trail, depth and state.  The all-different
    propagator is taken not to change which domains are fixed. *)
Theorem restarting_search_answers frames :
  value_ordering_heuristic params <> Biased ->
  forall assignments (domains : Domains) depth (st : State),
    (length domains - fixed_count domains < frames)%nat ->
    is_Some (restarting_search model params env frames assignments domains depth st).
Proof.
  intros Hordering.
  induction frames as [|frames IH]; intros a ds depth st Hlt; [lia|]. simpl.
  destruct (should_abort _ _) as [abort t]. destruct abort; [eexists; reflexivity|].
  destruct (find_branch_domain model ds) as [[i bd]|] eqn:Hb.
  - match goal with |- context [order_values _ _ _ ?range ?rand] =>
      destruct (order_values_defined range rand Hordering) as [[branch_v rand'] ->]
    end.
    eapply try_values_answers; eauto. lia.
  - destruct (solution_found _ _ _ _ _). eexists; reflexivity.
Qed.

End Termination.

(** ** The trail as a mapping, as a solution and as a nogood *)

Lemma emplace_lookup key value (mapping : VertexToVertexMapping) k :
  emplace key value mapping !! k
  = match mapping !! k with
    | Some t => Some t
    | None => if decide (key = k) then Some value else None
    end.
Proof.
  unfold emplace. destruct (mapping !! key) as [t|] eqn:Hkey.
  - destruct (mapping !! k) eqn:Hk; [reflexivity|].
    destruct (decide (key = k)); [congruence|reflexivity].
  - destruct (decide (key = k)) as [<-|Hne].
    + now rewrite lookup_insert_eq, Hkey.
    + rewrite lookup_insert_ne by exact Hne. now destruct (mapping !! k).
Qed.

(** The target that the oldest entry of the trail for the pattern vertex
    [key] assigns. *)
Lemma expand_to_full_result_first assignments : forall (mapping : VertexToVertexMapping) key,
  expand_to_full_result assignments mapping !! key
  = match mapping !! key with
    | Some t => Some t
    | None =>
        (fun found => Z.of_N (target_vertex (assignment found.2)))
        <$> list_find (fun a => Z.of_N (pattern_vertex (assignment a)) = key) assignments
    end.
Proof.
  unfold expand_to_full_result.
  induction assignments as [|a rest IH]; intros mapping key; simpl.
  - now destruct (mapping !! key).
  - rewrite IH, emplace_lookup. destruct (mapping !! key); [reflexivity|].
    destruct (decide (Z.of_N (pattern_vertex (assignment a)) = key)); [reflexivity|].
    now destruct (list_find _ rest) as [[i e]|].
Qed.

(** X1: [expand_to_full_result] never overwrites an entry of the mapping it
    is given; every other key gets the target of the oldest entry of the
    trail for that pattern vertex, and a key that is neither in the mapping
    nor on the trail stays absent. *)
Theorem expand_to_full_result_lookup assignments (mapping : VertexToVertexMapping) key :
  (forall t,
     mapping !! key = Some t -> expand_to_full_result assignments mapping !! key = Some t)
  /\ (mapping !! key = None ->
      forall i a,
        list_find (fun a => Z.of_N (pattern_vertex (assignment a)) = key) assignments
        = Some (i, a) ->
        expand_to_full_result assignments mapping !! key
        = Some (Z.of_N (target_vertex (assignment a))))
  /\ (mapping !! key = None ->
      Forall (fun a => Z.of_N (pattern_vertex (assignment a)) <> key) assignments ->
      expand_to_full_result assignments mapping !! key = None).
Proof.
  split; [|split].
  - intros t Ht. now rewrite expand_to_full_result_first, Ht.
  - intros Hnone i a Hfound. now rewrite expand_to_full_result_first, Hnone, Hfound.
  - intros Hnone Hall. rewrite expand_to_full_result_first, Hnone.
    rewrite <- list_find_None in Hall. now rewrite Hall.
Qed.

Section SolutionFacts.

Variable model : HomomorphismModel.

(** The pair logged for a trail entry. *)
Local Abbreviation named a :=
  (pattern_vertex_for_proof model (pattern_vertex (assignment a)),
   target_vertex_for_proof model (target_vertex (assignment a))).

(** The name of a pattern vertex carries its number, which is how
    [solution_in_proof_form] recognises a vertex it has already listed. *)
Local Abbreviation numbered a :=
  (unsigned (pattern_vertex_for_proof model (pattern_vertex (assignment a))).1
   = pattern_vertex (assignment a)).

Lemma solution_in_proof_form_snoc assignments a :
  solution_in_proof_form model (assignments ++ [a])
  = if existsb (fun t => unsigned t.1.1 =? pattern_vertex (assignment a))
         (solution_in_proof_form model assignments)
    then solution_in_proof_form model assignments
    else solution_in_proof_form model assignments ++ [named a].
Proof. unfold solution_in_proof_form. now rewrite fold_left_app. Qed.

(** The solution lists the oldest entry of each pattern vertex of the
    trail, and each vertex once. *)
Lemma solution_in_proof_form_oldest assignments :
  Forall (fun a => numbered a) assignments ->
  NoDup (map (fun t => unsigned t.1.1) (solution_in_proof_form model assignments))
  /\ forall t,
       t ∈ solution_in_proof_form model assignments
       <-> exists i a,
             list_find
               (fun e => pattern_vertex (assignment e) = pattern_vertex (assignment a))
               assignments = Some (i, a)
             /\ t = named a.
Proof.
  induction assignments as [|a done IH] using rev_ind; intros Hnum.
  - split; [constructor|]. intros t. split.
    + intros H. now apply elem_of_nil in H.
    + intros (i & a & H & _). discriminate.
  - apply Forall_app in Hnum as [Hdone Ha]. rewrite Forall_singleton in Ha.
    destruct (IH Hdone) as [Hnodup Hiff]. clear IH.
    rewrite solution_in_proof_form_snoc.
    (* the test on the solution so far is the test on the trail so far *)
    assert (existsb (fun t => unsigned t.1.1 =? pattern_vertex (assignment a))
              (solution_in_proof_form model done) = true
            <-> exists e, e ∈ done /\ pattern_vertex (assignment e) = pattern_vertex (assignment a))
      as Htest.
    { rewrite existsb_exists. split.
      - intros (t & Ht & Heq). apply list_elem_of_In, Hiff in Ht as (i & e & Hf & ->).
        apply list_find_Some in Hf as (Hi & _ & _).
        exists e. split; [eapply list_elem_of_lookup_2; exact Hi|].
        apply N.eqb_eq in Heq. simpl in Heq.
        rewrite Forall_forall in Hdone.
        rewrite (Hdone e) in Heq by (eapply list_elem_of_lookup_2; exact Hi). exact Heq.
      - intros (e & He & Heq).
        destruct (list_find_elem_of
                    (fun x => pattern_vertex (assignment x) = pattern_vertex (assignment e))
                    done e He eq_refl) as [[i f] Hf].
        exists (named f). split.
        + apply list_elem_of_In, Hiff. exists i, f. split; [|reflexivity].
          rewrite <- Hf. apply list_find_ext. intros x.
          apply list_find_Some in Hf as (_ & Hfe & _). split; congruence.
        + apply N.eqb_eq. simpl.
          apply list_find_Some in Hf as (Hi & Hfe & _).
          rewrite Forall_forall in Hdone.
          rewrite (Hdone f) by (eapply list_elem_of_lookup_2; exact Hi). congruence. }
    destruct (existsb _ _) eqn:Hex.
    + (* the vertex of [a] is listed already *)
      destruct (proj1 Htest eq_refl) as (e & He & Heq).
      split; [exact Hnodup|]. intros t. rewrite Hiff. split.
      * intros (i & f & Hf & ->). exists i, f. split; [|reflexivity].
        now apply list_find_app_l.
      * intros (i & f & Hf & ->). exists i, f. split; [|reflexivity].
        apply list_find_app_Some in Hf as [Hf|(_ & Hnone & Hf)]; [exact Hf|].
        exfalso. simpl in Hf. destruct (decide _) as [Hfa|]; [|discriminate].
        injection Hf as _ <-.
        rewrite list_find_None, Forall_forall in Hnone. now apply (Hnone e He).
    + (* a new vertex *)
      assert (forall e, e ∈ done ->
                pattern_vertex (assignment e) <> pattern_vertex (assignment a)) as Hnew.
      { intros e He Heq. enough (false = true) by discriminate.
        apply Htest. now exists e. }
      split.
      * rewrite map_app. simpl. apply NoDup_app. split; [exact Hnodup|]. split.
        -- intros n Hn Hn'. apply list_elem_of_singleton in Hn'. subst n.
           apply list_elem_of_fmap in Hn as (t & Ht & Hin).
           apply Hiff in Hin as (i & e & Hf & ->). simpl in Ht.
           apply list_find_Some in Hf as (Hi & _ & _).
           apply list_elem_of_lookup_2 in Hi. rewrite Forall_forall in Hdone.
           rewrite Ha, (Hdone e Hi) in Ht. now apply (Hnew e Hi).
        -- apply NoDup_singleton.
      * intros t. rewrite elem_of_app, Hiff, list_elem_of_singleton. split.
        -- intros [(i & f & Hf & ->)| ->].
           ++ exists i, f. split; [|reflexivity]. now apply list_find_app_l.
           ++ exists (length done), a. split; [|reflexivity].
              apply list_find_app_Some. right. split; [lia|]. split.
              ** apply list_find_None, Forall_forall. exact Hnew.
              ** rewrite Nat.sub_diag. simpl. now destruct (decide _).
        -- intros (i & f & Hf & ->).
           apply list_find_app_Some in Hf as [Hf|(_ & _ & Hf)].
           ++ left. now exists i, f.
           ++ right. simpl in Hf. destruct (decide _); [|discriminate].
              now injection Hf as _ <-.
Qed.

(** X2: when the names of the pattern vertices on the trail carry their
    numbers, the solution handed to the proof logger lists every pattern
    vertex at most once, and it lists exactly the pairs of the mapping that
    [expand_to_full_result] builds from the same trail: the name of a
    pattern vertex together with the name of the target of its oldest
    entry. *)
Theorem solution_in_proof_form_is_the_mapping assignments :
  Forall (fun a => numbered a) assignments ->
  NoDup (map (fun t => unsigned t.1.1) (solution_in_proof_form model assignments))
  /\ (forall t,
        t ∈ solution_in_proof_form model assignments ->
        exists p t',
          t = (pattern_vertex_for_proof model p, target_vertex_for_proof model t')
          /\ expand_to_full_result assignments ∅ !! Z.of_N p = Some (Z.of_N t'))
  /\ (forall p t,
        expand_to_full_result assignments ∅ !! Z.of_N p = Some t ->
        exists t',
          t = Z.of_N t'
          /\ (pattern_vertex_for_proof model p, target_vertex_for_proof model t')
             ∈ solution_in_proof_form model assignments).
Proof.
  intros Hnum. destruct (solution_in_proof_form_oldest assignments Hnum) as [Hnodup Hiff].
  split; [exact Hnodup|]. split.
  - intros t Ht. apply Hiff in Ht as (i & a & Hf & ->).
    exists (pattern_vertex (assignment a)), (target_vertex (assignment a)).
    split; [reflexivity|].
    rewrite expand_to_full_result_first, lookup_empty.
    erewrite (list_find_ext _
                (fun e => pattern_vertex (assignment e) = pattern_vertex (assignment a))).
    + now rewrite Hf.
    + intros x. split; [apply N2Z.inj|congruence].
  - intros p t Ht. rewrite expand_to_full_result_first, lookup_empty in Ht.
    destruct (list_find _ assignments) as [[i a]|] eqn:Hf; [|discriminate].
    injection Ht as <-. exists (target_vertex (assignment a)). split; [reflexivity|].
    pose proof Hf as Hf'. apply list_find_Some in Hf' as (_ & Hp & _).
    apply N2Z.inj in Hp. subst p.
    apply Hiff. exists i, a. split; [|reflexivity].
    rewrite <- Hf. apply list_find_ext. intros x. split; [congruence|apply N2Z.inj].
Qed.

End SolutionFacts.

(** ** The filters of propagation *)

Section FilterLoops.

Import SVOBitset SVOBitsetFacts.

(** A loop over the members of [s] that resets in another bitset those it
    is not to keep removes from that bitset exactly the members of [s] that
    are not to be kept. *)
Lemma drain_reset_unless (keep : N -> bool) rounds : forall s x,
  (N.to_nat (count s) <= rounds)%nat ->
  forall j,
    test (drain rounds s (fun w x => if keep w then x else reset x w) x) j
    = test x j && negb (test s j && negb (keep j)).
Proof.
  induction rounds as [|rounds IH]; intros s x Hr j; simpl.
  - assert (s = 0) as -> by (apply count_zero; lia).
    unfold test. rewrite N.bits_0. simpl. now rewrite andb_true_r.
  - destruct (find_first s) as [w|] eqn:Hw.
    + apply find_first_Some in Hw as [Hw _].
      rewrite IH by (rewrite (count_reset w s Hw) in Hr; lia).
      rewrite test_reset.
      destruct (keep w) eqn:Hk.
      * destruct (N.eqb_spec w j) as [->|Hne]; simpl.
        -- now rewrite Hk, !andb_false_r.
        -- now rewrite andb_true_r.
      * rewrite test_reset.
        destruct (N.eqb_spec w j) as [->|Hne]; simpl.
        -- now rewrite Hw, Hk, !andb_false_r.
        -- now rewrite !andb_true_r.
    + apply find_first_None in Hw as ->. unfold test. rewrite N.bits_0. simpl.
      now rewrite andb_true_r.
Qed.

Lemma filter_by_label_spec want got x j :
  test (filter_by_label want got x) j = test x j && (got j =? want)%Z.
Proof.
  unfold filter_by_label, for_each.
  rewrite (drain_reset_unless (fun c => (got c =? want)%Z)) by lia.
  destruct (test x j), (got j =? want)%Z; reflexivity.
Qed.

Lemma test_reset_iff x t c : test (reset x t) c = true <-> test x c = true /\ c <> t.
Proof.
  rewrite test_reset, andb_true_iff, negb_true_iff, N.eqb_neq. intuition congruence.
Qed.

Lemma filter_by_row_spec adjacent induced_ row x c :
  test (filter_by_row adjacent induced_ row x) c = true
  <-> test x c = true /\ allowed_by_row adjacent induced_ row c.
Proof.
  unfold filter_by_row, allowed_by_row, test, intersect, intersect_with_complement.
  destruct adjacent; [|destruct induced_].
  - rewrite N.land_spec. apply andb_true_iff.
  - rewrite N.ldiff_spec, andb_true_iff, negb_true_iff. reflexivity.
  - tauto.
Qed.

Lemma intersect_rows_spec (bits : N) (row : N -> t) graphs : forall x c,
  test (fold_left (fun x g => if N.testbit bits g then intersect x (row g) else x) graphs x) c
  = true
  <-> test x c = true
      /\ forall g, g ∈ graphs -> N.testbit bits g = true -> test (row g) c = true.
Proof.
  induction graphs as [|g rest IH]; intros x c; simpl.
  - split; [intros H; split; [exact H|]|tauto].
    intros g Hg. now apply elem_of_nil in Hg.
  - rewrite IH. split.
    + intros [Hx Hrest]. destruct (N.testbit bits g) eqn:Hg.
      * unfold test, intersect in Hx. rewrite N.land_spec in Hx.
        apply andb_true_iff in Hx as [Hx Hrow]. split; [exact Hx|].
        intros g' Hg' Hbit. apply elem_of_cons in Hg' as [->|Hg']; [exact Hrow|].
        now apply Hrest.
      * split; [exact Hx|].
        intros g' Hg' Hbit. apply elem_of_cons in Hg' as [->|Hg']; [congruence|].
        now apply Hrest.
    + intros [Hx Hall]. split.
      * destruct (N.testbit bits g) eqn:Hg; [|exact Hx].
        unfold test, intersect. rewrite N.land_spec. apply andb_true_iff.
        split; [exact Hx|]. apply Hall; [apply list_elem_of_here|exact Hg].
      * intros g' Hg' Hbit. apply Hall; [now apply list_elem_of_further|exact Hbit].
Qed.

End FilterLoops.

Section FilterFacts.

Import SVOBitsetFacts.

Local Abbreviation test := SVOBitset.test.

Variable model : HomomorphismModel.
Variable params : HomomorphismParams.

Lemma elem_of_supplemental_graphs g :
  g ∈ supplemental_graphs model <-> 1 <= g < max_graphs model.
Proof.
  unfold supplemental_graphs. rewrite list_elem_of_In, in_map_iff. split.
  - intros (n & <- & Hn). apply in_seq in Hn. lia.
  - intros Hg. exists (N.to_nat g). split; [apply N2Nat.id|]. apply in_seq. lia.
Qed.

Lemma propagate_adjacency_constraints_values directed_ has_edge_labels_ induced_ d a c :
  test (values (propagate_adjacency_constraints model directed_ has_edge_labels_ induced_
                  d a)) c = true
  <-> test (values d) c = true
      /\ adjacency_consistent model directed_ has_edge_labels_ induced_ a (v d) c.
Proof.
  unfold propagate_adjacency_constraints, adjacency_consistent. simpl.
  set (bits := pattern_adjacency_bits model (pattern_vertex a) (v d)).
  set (reverse_bits := pattern_adjacency_bits model (v d) (pattern_vertex a)).
  match goal with |- test ?labelled c = true <-> _ =>
    match labelled with context [fold_left ?f ?gs ?x0] =>
      set (x1 := x0); set (x2 := fold_left f gs x1)
    end
  end.
  assert (test x1 c = true
          <-> test (values d) c = true
              /\ (if directed_ then
                    allowed_by_row (N.testbit bits 0) induced_
                      (forward_target_graph_row model (target_vertex a)) c
                    /\ allowed_by_row (N.testbit reverse_bits 0) induced_
                         (reverse_target_graph_row model (target_vertex a)) c
                  else
                    allowed_by_row (N.testbit bits 0) induced_
                      (target_graph_row model 0 (target_vertex a)) c)) as H1.
  { subst x1. destruct directed_; simpl; rewrite ?filter_by_row_spec; tauto. }
  assert (test x2 c = true
          <-> test x1 c = true
              /\ forall g, 1 <= g < max_graphs model -> N.testbit bits g = true ->
                   test (target_graph_row model g (target_vertex a)) c = true) as H2.
  { subst x2.
    rewrite (intersect_rows_spec bits (fun g => target_graph_row model g (target_vertex a))).
    split; intros [Hx Hall]; (split; [exact Hx|]); intros g Hg; apply Hall;
      now apply elem_of_supplemental_graphs. }
  destruct has_edge_labels_.
  - destruct (N.testbit reverse_bits 0) eqn:Hr, (N.testbit bits 0) eqn:Hb;
      rewrite ?filter_by_label_spec, ?andb_true_iff, ?Z.eqb_eq, H2, H1;
      intuition congruence.
  - rewrite H2, H1. intuition congruence.
Qed.

(** X3: [propagate_adjacency_constraints], for each of its three switches,
    keeps a value of the domain exactly when sending the pattern vertex of
    the domain there agrees with the assignment: it removes every value
    that disagrees on a row of the target graph or on an edge label, and
    never one that agrees; the pattern vertex, the count and the fixed mark
    of the domain are left as they were. *)
Theorem propagate_adjacency_constraints_keeps_consistent directed_ has_edge_labels_
    induced_ d a :
  let d' := propagate_adjacency_constraints model directed_ has_edge_labels_ induced_ d a in
  v d' = v d /\ count d' = count d /\ fixed d' = fixed d
  /\ forall c,
       test (values d') c = true
       <-> test (values d) c = true
           /\ adjacency_consistent model directed_ has_edge_labels_ induced_ a (v d) c.
Proof.
  intros d'. subst d'. do 3 (split; [reflexivity|]).
  intros c. apply propagate_adjacency_constraints_values.
Qed.

Lemma both_in_the_neighbourhood_share x w :
  both_in_the_neighbourhood_of_some_vertex model x w = true <-> share_a_neighbour model x w.
Proof.
  unfold both_in_the_neighbourhood_of_some_vertex, share_a_neighbour, SVOBitset.any,
    SVOBitset.intersect, SVOBitset.test.
  rewrite negb_true_iff, N.eqb_neq. split.
  - intros Hne. exists (N.log2 (N.land (pattern_graph_row model 0 x)
                                   (pattern_graph_row model 0 w))).
    apply andb_true_iff. rewrite <- N.land_spec. now apply N.bit_log2.
  - intros (u & Hx & Hw) E.
    assert (N.testbit (N.land (pattern_graph_row model 0 x) (pattern_graph_row model 0 w)) u
            = true) as H by (rewrite N.land_spec, Hx, Hw; reflexivity).
    rewrite E, N.bits_0 in H. discriminate.
Qed.

(** X4: two pattern vertices are both in the neighbourhood of some vertex
    exactly when their rows in the first pattern graph have a member in
    common; the test does not depend on the order of the two. *)
Theorem both_in_the_neighbourhood_of_some_vertex_spec x w :
  (both_in_the_neighbourhood_of_some_vertex model x w = true <-> share_a_neighbour model x w)
  /\ both_in_the_neighbourhood_of_some_vertex model x w
     = both_in_the_neighbourhood_of_some_vertex model w x.
Proof.
  split; [apply both_in_the_neighbourhood_share|].
  unfold both_in_the_neighbourhood_of_some_vertex, SVOBitset.intersect.
  now rewrite N.land_comm.
Qed.

(** The body of the loop of [propagate_simple_constraints] on one domain. *)
Lemma propagate_simple_constraints_on_spec d a :
  let d' := propagate_simple_constraints_on model params d a in
  v d' = v d /\ fixed d' = fixed d /\ count d' = SVOBitset.count (values d')
  /\ forall c,
       test (values d') c = true
       <-> test (values d) c = true /\ simple_consistent model params a (v d) c.
Proof.
  unfold propagate_simple_constraints_on, simple_consistent.
  set (d1 := match injectivity params with
             | Injective => _ | LocallyInjective => _ | NonInjective => _ end).
  assert (v d1 = v d /\ fixed d1 = fixed d
          /\ forall c, test (values d1) c = true
                       <-> test (values d) c = true
                           /\ match injectivity params with
                              | Injective => c <> target_vertex a
                              | LocallyInjective =>
                                  share_a_neighbour model (pattern_vertex a) (v d) ->
                                  c <> target_vertex a
                              | NonInjective => True
                              end) as (Hv & Hf & Hvalues).
  { subst d1. destruct (injectivity params).
    - do 2 (split; [reflexivity|]). intros c. apply test_reset_iff.
    - destruct (both_in_the_neighbourhood_of_some_vertex _ _ _) eqn:Hb;
        do 2 (split; [reflexivity|]); intros c.
      + simpl. rewrite test_reset_iff. split; [tauto|].
        intros [Hc Hne]. split; [exact Hc|].
        now apply Hne, both_in_the_neighbourhood_share.
      + split; [|tauto]. intros Hc. split; [exact Hc|].
        intros Hs. apply both_in_the_neighbourhood_share in Hs. congruence.
    - do 2 (split; [reflexivity|]). tauto. }
  destruct (has_edge_labels model); cbn [negb];
    (split; [exact Hv|]); (split; [exact Hf|]); (split; [reflexivity|]);
    intros c; unfold set_count; cbn [values];
    rewrite propagate_adjacency_constraints_values, Hvalues, Hv; tauto.
Qed.

(** The domain that the loop body leaves is empty exactly when no value of
    the domain agrees with the assignment. *)
Lemma propagate_simple_constraints_on_empty d a :
  (count (propagate_simple_constraints_on model params d a) =? 0) = true
  <-> forall c, test (values d) c = true -> ~ simple_consistent model params a (v d) c.
Proof.
  destruct (propagate_simple_constraints_on_spec d a) as (_ & _ & Hcount & Hvalues).
  rewrite N.eqb_eq, Hcount, count_zero. split.
  - intros E c Hc Hok.
    assert (test (values (propagate_simple_constraints_on model params d a)) c = true) as H
      by now apply Hvalues.
    unfold test, SVOBitset.test in H. rewrite E, N.bits_0 in H. discriminate.
  - intros Hnone. apply N.bits_inj_0. intros c.
    destruct (N.testbit _ c) eqn:Hc; [|reflexivity].
    apply Hvalues in Hc as [Hc Hok]. now destruct (Hnone c Hc).
Qed.

Lemma propagate_simple_constraints_success (new_domains : Domains) a :
  forall new_domains' : Domains,
    propagate_simple_constraints model params new_domains a = (true, new_domains') ->
    Forall2
      (fun d d' =>
         if fixed d then d' = d
         else
           v d' = v d /\ fixed d' = false
           /\ count d' = SVOBitset.count (values d') /\ count d' <> 0
           /\ forall c,
                test (values d') c = true
                <-> test (values d) c = true /\ simple_consistent model params a (v d) c)
      new_domains new_domains'.
Proof.
  induction new_domains as [|d rest IH]; intros ds' H;
    cbn [propagate_simple_constraints] in H.
  - injection H as <-. constructor.
  - destruct (fixed d) eqn:Hd.
    + destruct (propagate_simple_constraints model params rest a) as [ok rest'].
      injection H as -> <-. constructor; [now rewrite Hd|now apply IH].
    + destruct (count (propagate_simple_constraints_on model params d a) =? 0) eqn:Hz;
        [discriminate|].
      destruct (propagate_simple_constraints model params rest a) as [ok rest'].
      injection H as -> <-. constructor; [|now apply IH].
      rewrite Hd.
      destruct (propagate_simple_constraints_on_spec d a) as (Hv & Hf & Hcount & Hvalues).
      split; [exact Hv|]. split; [congruence|]. split; [exact Hcount|].
      split; [now apply N.eqb_neq|exact Hvalues].
Qed.

(** X5: when [propagate_simple_constraints] succeeds, it has left as many
    domains as it was given, every fixed domain as it was, and every domain
    that is not fixed with exactly those of its values that agree with the
    assignment (under the injectivity asked for, and on adjacency and edge
    labels), at least one of them, and with its count brought up to
    date. *)
Theorem propagate_simple_constraints_keeps_consistent (new_domains : Domains) a
    (new_domains' : Domains) :
  propagate_simple_constraints model params new_domains a = (true, new_domains') ->
  length new_domains' = length new_domains
  /\ forall i d,
       new_domains !! i = Some d ->
       exists d',
         new_domains' !! i = Some d'
         /\ if fixed d then d' = d
            else
              v d' = v d /\ fixed d' = false
              /\ count d' = SVOBitset.count (values d') /\ count d' <> 0
              /\ forall c,
                   test (values d') c = true
                   <-> test (values d) c = true
                       /\ simple_consistent model params a (v d) c.
Proof.
  intros H. apply propagate_simple_constraints_success in H.
  split; [symmetry; eapply Forall2_length; exact H|].
  intros i d Hi. rewrite Forall2_lookup in H. specialize (H i). rewrite Hi in H.
  inversion H as [? d' Hd|]; subst. now exists d'.
Qed.

(** X6: [propagate_simple_constraints] fails exactly when some domain that
    is not fixed has no value that agrees with the assignment. *)
Theorem propagate_simple_constraints_fails_on_wipeout (new_domains : Domains) a :
  (propagate_simple_constraints model params new_domains a).1 = false
  <-> exists d,
        d ∈ new_domains /\ fixed d = false
        /\ forall c, test (values d) c = true -> ~ simple_consistent model params a (v d) c.
Proof.
  induction new_domains as [|d rest IH]; cbn [propagate_simple_constraints].
  - split; [discriminate|]. intros (d & Hd & _). now apply elem_of_nil in Hd.
  - assert ((exists e, e ∈ rest /\ fixed e = false
                       /\ forall c, test (values e) c = true ->
                            ~ simple_consistent model params a (v e) c)
            -> exists e, e ∈ d :: rest /\ fixed e = false
                         /\ forall c, test (values e) c = true ->
                              ~ simple_consistent model params a (v e) c) as Hfurther.
    { intros (e & He & H). exists e. split; [now apply list_elem_of_further|exact H]. }
    destruct (fixed d) eqn:Hd.
    + destruct (propagate_simple_constraints model params rest a) as [ok rest'].
      cbn [fst] in *. rewrite IH. split; [exact Hfurther|].
      intros (e & He & Hfe & Hnone). apply elem_of_cons in He as [->|He]; [congruence|].
      now exists e.
    + destruct (count (propagate_simple_constraints_on model params d a) =? 0) eqn:Hz.
      * simpl. split; [|reflexivity]. intros _. exists d.
        split; [apply list_elem_of_here|]. split; [exact Hd|].
        now apply propagate_simple_constraints_on_empty.
      * destruct (propagate_simple_constraints model params rest a) as [ok rest'].
        cbn [fst] in *. rewrite IH. split; [exact Hfurther|].
        intros (e & He & Hfe & Hnone). apply elem_of_cons in He as [->|He]; [|now exists e].
        apply propagate_simple_constraints_on_empty in Hnone. congruence.
Qed.

End FilterFacts.

(** ** The domains of a call and the candidates of its branch *)

Section SingletonFacts.

Import SVOBitset SVOBitsetFacts.

Lemma test_singleton f_v c : test (set empty f_v) c = (c =? f_v).
Proof.
  unfold test, set, empty. rewrite N.setbit_eqb, N.bits_0, orb_false_r. apply N.eqb_sym.
Qed.

Lemma count_singleton f_v : count (set empty f_v) = 1.
Proof.
  rewrite (count_reset f_v) by (rewrite test_singleton; apply N.eqb_refl).
  replace (reset (set empty f_v) f_v) with 0; [reflexivity|].
  symmetry. apply N.bits_inj_0. intros j.
  change (test (reset (set empty f_v) f_v) j = false).
  rewrite test_reset, test_singleton, N.eqb_sym. now destruct (f_v =? j).
Qed.

(** The loop that pulls the members out of a bitset appends them in
    ascending order, each once. *)
Lemma drain_members rounds : forall s acc,
  (N.to_nat (count s) <= rounds)%nat ->
  exists members,
    drain rounds s (fun f_v branch_v => branch_v ++ [f_v]) acc = acc ++ members
    /\ StronglySorted N.lt members
    /\ (forall x, x ∈ members <-> test s x = true)
    /\ length members = N.to_nat (count s).
Proof.
  induction rounds as [|rounds IH]; intros s acc Hr; simpl.
  - assert (s = 0) as -> by (apply count_zero; lia).
    exists []. rewrite app_nil_r. split; [reflexivity|]. split; [constructor|].
    split; [|reflexivity]. intros x. unfold test. rewrite N.bits_0. split; [|discriminate].
    intros H. now apply elem_of_nil in H.
  - destruct (find_first s) as [w|] eqn:Hw.
    + apply find_first_Some in Hw as [Hw Hleast].
      pose proof (count_reset w s Hw) as Hcount.
      destruct (IH (reset s w) (acc ++ [w])) as (rest & -> & Hsorted & Hmem & Hlen); [lia|].
      exists (w :: rest). rewrite <- app_assoc. split; [reflexivity|].
      split; [|split].
      * constructor; [exact Hsorted|]. apply Forall_forall. intros x Hx.
        apply Hmem in Hx. rewrite test_reset, andb_true_iff, negb_true_iff, N.eqb_neq in Hx.
        destruct Hx as [Hx Hne].
        destruct (N.lt_trichotomy x w) as [Hlt|[->|Hgt]]; [|congruence|exact Hgt].
        rewrite (Hleast x Hlt) in Hx. discriminate.
      * intros x. rewrite elem_of_cons, Hmem, test_reset, andb_true_iff, negb_true_iff,
          N.eqb_neq.
        destruct (N.eq_dec x w) as [->|Hne]; [tauto|]. intuition congruence.
      * simpl. rewrite Hlen. lia.
    + apply find_first_None in Hw as ->.
      exists []. rewrite app_nil_r. split; [reflexivity|]. split; [constructor|].
      split; [|reflexivity]. intros x. unfold test. rewrite N.bits_0. split; [|discriminate].
      intros H. now apply elem_of_nil in H.
Qed.

End SingletonFacts.

Lemma copy_nonfixed_relates (domains : Domains) branch_v f_v :
  Forall2
    (fun d d' =>
       v d' = v d /\ fixed d' = false
       /\ if v d =? branch_v
          then count d' = 1 /\ forall c, SVOBitset.test (values d') c = (c =? f_v)
          else d' = d)
    (filter (fun d => fixed d = false) domains)
    (copy_nonfixed_domains_and_make_assignment domains branch_v f_v).
Proof.
  induction domains as [|d rest IH]; simpl; [constructor|].
  rewrite filter_cons. destruct (fixed d) eqn:Hd; simpl.
  - destruct (decide (true = false)); [discriminate|exact IH].
  - destruct (decide (false = false)); [|congruence].
    constructor; [|exact IH].
    destruct (v d =? branch_v); simpl.
    + split; [reflexivity|]. split; [exact Hd|]. split; [reflexivity|].
      apply test_singleton.
    + auto.
Qed.

Lemma copy_nonfixed_counts (domains : Domains) branch_v f_v :
  Forall count_matches domains ->
  Forall count_matches (copy_nonfixed_domains_and_make_assignment domains branch_v f_v).
Proof.
  induction 1 as [|d rest Hd _ IH]; simpl; [constructor|].
  destruct (fixed d); [exact IH|]. constructor; [|exact IH].
  destruct (v d =? branch_v); [|exact Hd].
  unfold count_matches, set_count, set_values. cbn [count values].
  symmetry. apply count_singleton.
Qed.

Lemma remaining_values_elem branch_domain x :
  x ∈ remaining_values branch_domain <-> SVOBitset.test (values branch_domain) x = true.
Proof.
  unfold remaining_values, SVOBitset.for_each.
  destruct (drain_members (N.to_nat (SVOBitset.count (values branch_domain)))
              (values branch_domain) [] (Nat.le_refl _)) as (members & -> & _ & H & _).
  apply H.
Qed.

(** X7: the domains handed to the next call are the domains that are not
    fixed, in their order and with their pattern vertices; those of the
    branch vertex hold the chosen value alone, with count 1, and the others
    are copies.  Counts that matched the number of values still match. *)
Theorem copy_nonfixed_domains_assigns (domains : Domains) branch_v f_v :
  Forall2
    (fun d d' =>
       v d' = v d /\ fixed d' = false
       /\ if v d =? branch_v
          then count d' = 1 /\ forall c, SVOBitset.test (values d') c = (c =? f_v)
          else d' = d)
    (filter (fun d => fixed d = false) domains)
    (copy_nonfixed_domains_and_make_assignment domains branch_v f_v)
  /\ (Forall count_matches domains ->
      Forall count_matches (copy_nonfixed_domains_and_make_assignment domains branch_v f_v)).
Proof.
  split; [|apply copy_nonfixed_counts].
  induction domains as [|d rest IH]; simpl; [constructor|].
  rewrite filter_cons. destruct (fixed d) eqn:Hd; simpl.
  - destruct (decide (true = false)); [discriminate|exact IH].
  - destruct (decide (false = false)); [|congruence].
    constructor; [|exact IH].
    destruct (v d =? branch_v); simpl; [|auto].
    split; [reflexivity|]. split; [exact Hd|]. split; [reflexivity|].
    apply test_singleton.
Qed.

(** X8: the candidates pulled out of the branch domain are exactly the
    values of the domain, each once and in ascending order, so that there
    are as many candidates as the domain has values, whatever its count
    says. *)
Theorem remaining_values_are_the_values branch_domain :
  StronglySorted N.lt (remaining_values branch_domain)
  /\ (forall x,
        x ∈ remaining_values branch_domain
        <-> SVOBitset.test (values branch_domain) x = true)
  /\ length (remaining_values branch_domain)
     = N.to_nat (SVOBitset.count (values branch_domain)).
Proof.
  unfold remaining_values, SVOBitset.for_each.
  destruct (drain_members (N.to_nat (SVOBitset.count (values branch_domain)))
              (values branch_domain) [] (Nat.le_refl _)) as (members & -> & H).
  exact H.
Qed.

Section AntiDegreeFacts.

Variable model : HomomorphismModel.

(** X9: under the [AntiDegree] ordering the candidates are a permutation of
    the ones given, in ascending order of target degree, and candidates of
    equal degree keep their order: with [reverse] set the comparator is
    strict, and the sort is stable. *)
Theorem anti_degree_sort_ascending_stable branch_v :
  degree_sort model branch_v true ≡ₚ branch_v
  /\ ascending model (degree_sort model branch_v true)
  /\ forall d,
       filter (fun x => target_degree model 0 x = d) (degree_sort model branch_v true)
       = filter (fun x => target_degree model 0 x = d) branch_v.
Proof.
  split; [apply degree_sort_perm|]. split.
  - apply (anti_degree_sort_stable model branch_v 0).
  - intros d. apply (anti_degree_sort_stable model branch_v d).
Qed.

End AntiDegreeFacts.

(** ** Where the answers of the search come from *)

Section AnswerFacts.

Context {TimeoutT RestartsT LackeyT WatchesT ProofT RandT : Type}.

Local Abbreviation State := (SearchState TimeoutT RestartsT LackeyT WatchesT ProofT RandT).

Variable model : HomomorphismModel.
Variable params : HomomorphismParams.
Variable env : Collaborators TimeoutT RestartsT LackeyT WatchesT ProofT RandT.

Lemma solution_found_cause assignments (st : State) :
  answer_cause params env (solution_found model params env assignments st).1.
Proof.
  unfold solution_found.
  destruct (bigraph params && _); [exact I|].
  destruct (lackey st) as [l|].
  - destruct (check_solution _ _ _ _ _) as [[|] l']; simpl.
    + destruct (count_solutions params) eqn:Hc; simpl; exact Hc.
    + destruct (propagate_using_lackey params) eqn:Hp; simpl; auto.
  - simpl. destruct (count_solutions params) eqn:Hc; simpl; exact Hc.
Qed.

Lemma out_of_values_cause locals assignments (st : State) :
  (Locals.use_lackey_for_propagation locals = true ->
   propagate_using_lackey params = RootAndBackjump) ->
  answer_cause params env (out_of_values params env locals assignments st).1.1
  /\ (out_of_values params env locals assignments st).1.1 <> SatisfiableButKeepGoing.
Proof.
  intros Hl. unfold out_of_values.
  match goal with |- context [should_restart env ?s] =>
    destruct (should_restart env s) as [restart schedule] eqn:Hr
  end.
  destruct restart; simpl.
  - split; [|discriminate]. eexists. now rewrite Hr.
  - destruct (Locals.use_lackey_for_propagation locals); simpl; split; auto; discriminate.
Qed.

Section Frame.

Variable restarting_search_ :
  HomomorphismAssignments -> Domains -> Z -> State ->
  option (SearchResult * HomomorphismAssignments * State).

Hypothesis recursive_call_cause :
  forall assignments domains depth st result assignments' st',
    restarting_search_ assignments domains depth st = Some (result, assignments', st') ->
    answer_cause params env result.

Variable domains : Domains.
Variable branch_domain : HomomorphismDomain.
Variable branch_v_end : nat.
Variable depth : Z.

Lemma try_value_cause tried f_v locals assignments (st : State) round assignments' st' :
  (Locals.use_lackey_for_propagation locals = true ->
   propagate_using_lackey params = RootAndBackjump) ->
  try_value model params env restarting_search_ domains branch_domain branch_v_end depth
    tried f_v locals assignments st = Some (round, assignments', st') ->
  match round with
  | Return result => answer_cause params env result /\ result <> SatisfiableButKeepGoing
  | NextValue locals' =>
      Locals.use_lackey_for_propagation locals' = true ->
      propagate_using_lackey params = RootAndBackjump
  end.
Proof.
  intros Hl H. unfold try_value in H.
  destruct (decide_and_propagate _ _ _ _ _ _ _ _ _ _ _) as [[[[ok nd] a1] st1]|];
    [|discriminate].
  destruct ok.
  - destruct (restarting_search_ _ _ _ _) as [[[r a2] st2]|] eqn:Hr; [|discriminate].
    apply recursive_call_cause in Hr.
    destruct r; simpl in H.
    + injection H as <- <- <-. split; [exact Hr|discriminate].
    + injection H as <- <- <-. exact Hl.
    + injection H as <- <- <-. intros _. exact Hr.
    + injection H as <- <- <-. split; [exact Hr|discriminate].
    + injection H as <- <- <-. exact Hl.
    + destruct (post_nogoods_for_tried _ _ _ _ _ _).
      injection H as <- <- <-. split; [exact Hr|discriminate].
  - injection H as <- <- <-. exact Hl.
Qed.

Lemma try_values_cause remaining : forall tried locals assignments (st : State)
    result assignments' st',
  (Locals.use_lackey_for_propagation locals = true ->
   propagate_using_lackey params = RootAndBackjump) ->
  try_values model params env restarting_search_ domains branch_domain branch_v_end depth
    tried remaining locals assignments st = Some (result, assignments', st') ->
  answer_cause params env result /\ result <> SatisfiableButKeepGoing.
Proof.
  induction remaining as [|f_v rest IH]; intros tried locals a st r a' st' Hl H; simpl in H.
  - injection H as H. pose proof (out_of_values_cause locals a st Hl) as Hc.
    rewrite H in Hc. exact Hc.
  - destruct (try_value _ _ _ _ _ _ _ _ _ _ _ _ _) as [[[round a1] st1]|] eqn:Ht;
      [|discriminate].
    apply try_value_cause in Ht; [|exact Hl]. destruct round as [r1|locals1].
    + now injection H as <- <- <-.
    + eapply IH; eauto.
Qed.

End Frame.

Lemma restarting_search_cause frames : forall assignments (domains : Domains) depth
    (st : State) result assignments' st',
  restarting_search model params env frames assignments domains depth st
  = Some (result, assignments', st') ->
  answer_cause params env result
  /\ (result = SatisfiableButKeepGoing -> find_branch_domain model domains = None).
Proof.
  induction frames as [|frames IH]; intros a ds depth st r a' st' H; simpl in H;
    [discriminate|].
  destruct (should_abort env (timeout st)) as [abort t] eqn:Ha. destruct abort.
  - injection H as <- <- <-. split; [|discriminate]. exists (timeout st). now rewrite Ha.
  - destruct (find_branch_domain model ds) as [[i bd]|].
    + destruct (order_values _ _ _ _ _) as [[branch_v rand]|]; [|discriminate].
      eapply try_values_cause in H.
      * destruct H as [H Hne]. split; [exact H|]. intros ->. now destruct Hne.
      * intros a0 ds0 depth0 st0 r0 a0' st0' H0. now apply IH in H0.
      * discriminate.
    + match type of H with context [solution_found model params env a ?s] =>
        pose proof (solution_found_cause a s) as Hc;
        destruct (solution_found model params env a s) as [r1 st1]
      end.
      injection H as <- <- <-. split; [exact Hc|reflexivity].
Qed.

(** X10: every answer of [restarting_search] has its cause.  It answers
    [Aborted] only if the timeout says abort in some state, and [Restart]
    only if the restarts schedule says restart in some state; [Satisfiable]
    only when solutions are not counted, and [SatisfiableButKeepGoing] only
    when they are counted and the call itself found all its domains fixed (a
    call that branches never passes that answer on);
    [UnsatisfiableAndBackjumpUsingLackey] only when backjumping with the
    lackey is asked for. *)
Theorem restarting_search_answer_has_a_cause frames assignments (domains : Domains) depth
    (st : State) result assignments' st' :
  restarting_search model params env frames assignments domains depth st
  = Some (result, assignments', st') ->
  match result with
  | Aborted => exists t, (should_abort env t).1 = true
  | Restart => exists s, (should_restart env s).1 = true
  | Satisfiable => count_solutions params = false
  | SatisfiableButKeepGoing =>
      count_solutions params = true /\ find_branch_domain model domains = None
  | UnsatisfiableAndBackjumpUsingLackey => propagate_using_lackey params = RootAndBackjump
  | Unsatisfiable => True
  end.
Proof.
  intros H. apply restarting_search_cause in H as [Hc Hleaf].
  destruct result; simpl in Hc; auto.
Qed.

End AnswerFacts.

(** ** Counting and enumerating solutions *)

Section TallyFacts.

Context {TimeoutT RestartsT LackeyT WatchesT ProofT RandT : Type}.

Local Abbreviation State := (SearchState TimeoutT RestartsT LackeyT WatchesT ProofT RandT).

Variable model : HomomorphismModel.
Variable params : HomomorphismParams.
Variable env : Collaborators TimeoutT RestartsT LackeyT WatchesT ProofT RandT.

Lemma keeps_tally_refl (st : State) : keeps_tally st st.
Proof. now split. Qed.

Lemma keeps_tally_trans (st st1 st2 : State) :
  keeps_tally st st1 -> keeps_tally st1 st2 -> keeps_tally st st2.
Proof. unfold keeps_tally. intros [H1 H2] [H3 H4]. split; congruence. Qed.

Lemma keeps_tally_then (st st1 st2 : State) n :
  keeps_tally st st1 -> tally params st1 st2 n -> tally params st st2 n.
Proof.
  unfold keeps_tally, tally. intros [H1 H2] [H3 (new & H4 & H5)].
  split; [congruence|]. exists new. split; [congruence|exact H5].
Qed.

Lemma tally_then_keeps (st st1 st2 : State) n :
  tally params st st1 n -> keeps_tally st1 st2 -> tally params st st2 n.
Proof.
  unfold keeps_tally, tally. intros [H1 (new & H2 & H3)] [H4 H5].
  split; [congruence|]. exists new. split; [congruence|exact H3].
Qed.

Lemma tally_then_tally (st st1 st2 : State) n m :
  tally params st st1 n -> tally params st1 st2 m -> tally params st st2 (n + m).
Proof.
  unfold tally. intros [H1 (new1 & H2 & H3)] [H4 (new2 & H5 & H6)]. split.
  - rewrite H4, H1. lia.
  - exists (new1 ++ new2). rewrite H5, H2, <- app_assoc, length_app, H3, H6.
    split; [reflexivity|]. now destruct (enumerate_callback params).
Qed.

Lemma tally_nothing (st st' : State) : keeps_tally st st' -> tally params st st' 0.
Proof.
  intros [H1 H2]. split; [rewrite H1; lia|].
  exists []. rewrite app_nil_r. split; [exact H2|]. now destruct (enumerate_callback params).
Qed.

Lemma proof_log_keeps_tally event (st : State) : keeps_tally st (proof_log env event st).
Proof. unfold proof_log. destruct (proof st); now split. Qed.

Lemma post_nogood_keeps_tally assignments (st : State) :
  keeps_tally st (post_nogood params env assignments st).
Proof.
  unfold post_nogood. destruct (might_have_watches params); simpl; [|now split].
  eapply keeps_tally_trans; [|apply proof_log_keeps_tally]. now split.
Qed.

Lemma post_nogoods_for_tried_keeps_tally branch_domain tried :
  forall assignments (st : State),
    keeps_tally st (post_nogoods_for_tried params env branch_domain tried assignments st).2.
Proof.
  unfold post_nogoods_for_tried.
  induction tried as [|l tried IH]; intros a st; simpl; [now split|].
  eapply keeps_tally_trans; [|apply IH]. apply post_nogood_keeps_tally.
Qed.

Lemma propagate_watches_keeps_tally current_assignment new_domains assignments (st : State) :
  keeps_tally st
    (propagate_watches params env current_assignment new_domains assignments st).2.
Proof.
  unfold propagate_watches. destruct (might_have_watches params); [|now split].
  destruct (watches_propagate _ _ _ _). now split.
Qed.

Lemma propagate_constraints_keeps_tally current_assignment new_domains (st : State) :
  keeps_tally st (propagate_constraints model params env current_assignment new_domains st).2.
Proof.
  unfold propagate_constraints.
  destruct (propagate_simple_constraints _ _ _ _) as [[|] ds1]; simpl; [|now split].
  destruct (if bigraph params then _ else _) as [[|] ds2]; simpl; [|now split].
  destruct (if has_less_thans model then _ else _) as [[|] ds3]; simpl; [|now split].
  destruct (injectivity params); try now split.
  destruct (cheap_all_different _ _ _ _) as [[ok ds4] p]. now split.
Qed.

Lemma propagate_units_keeps_tally rounds : forall new_domains assignments (st : State)
    ok new_domains' assignments' st',
  propagate_units model params env rounds new_domains assignments st
  = Some (ok, new_domains', assignments', st') ->
  keeps_tally st st'.
Proof.
  induction rounds as [|rounds IH]; intros ds a st ok ds' a' st' H; simpl in H.
  - destruct (find_unit_domain ds) as [[i d]|]; [discriminate|].
    injection H as _ _ _ <-. now split.
  - destruct (find_unit_domain ds) as [[i d]|]; [|injection H as _ _ _ <-; now split].
    match type of H with context [propagate_watches params env ?c ?nd ?as_ ?s] =>
      pose proof (propagate_watches_keeps_tally c nd as_ s) as Hw;
      destruct (propagate_watches params env c nd as_ s) as [ds1 st1]
    end.
    match type of H with context [propagate_constraints model params env ?c ?nd ?s] =>
      pose proof (propagate_constraints_keeps_tally c nd s) as Hc;
      destruct (propagate_constraints model params env c nd s) as [[ok2 ds2] st2]
    end.
    simpl in Hw, Hc.
    assert (keeps_tally st st2) as Hst.
    { eapply keeps_tally_trans; [|exact Hc].
      eapply keeps_tally_trans; [|exact Hw]. apply proof_log_keeps_tally. }
    destruct ok2; simpl in H.
    + apply IH in H. eapply keeps_tally_trans; eauto.
    + now injection H as _ _ _ <-.
Qed.

Lemma propagate_lackey_keeps_tally new_domains assignments propagate_using_lackey_
    (st : State) :
  keeps_tally st
    (propagate_lackey params env new_domains assignments propagate_using_lackey_ st).2.
Proof.
  unfold propagate_lackey. destruct (lackey st) as [l|]; [|now split].
  destruct (propagate_using_lackey_ || send_partials_to_lackey params); [|now split].
  destruct propagate_using_lackey_.
  - destruct (run_lackey _ _ _) as [[ok l'] [[ds w] n]]. now split.
  - destruct (check_solution _ _ _ _ _) as [ok l']. now split.
Qed.

Lemma propagate_keeps_tally new_domains assignments propagate_using_lackey_ (st : State)
    ok new_domains' assignments' st' :
  propagate model params env new_domains assignments propagate_using_lackey_ st
  = Some (ok, new_domains', assignments', st') ->
  keeps_tally st st'.
Proof.
  unfold propagate. intros H.
  destruct (propagate_units _ _ _ _ _ _ _) as [[[[ok1 ds1] a1] st1]|] eqn:Hu;
    [|discriminate].
  apply propagate_units_keeps_tally in Hu. destruct ok1.
  - pose proof (propagate_lackey_keeps_tally ds1 a1 propagate_using_lackey_ st1) as Hl.
    destruct (propagate_lackey _ _ _ _ _ _) as [[ok2 ds2] st2].
    injection H as _ _ _ <-. eapply keeps_tally_trans; eauto.
  - now injection H as _ _ _ <-.
Qed.

Lemma decide_and_propagate_keeps_tally domains branch_domain branch_v_end depth f_v locals
    assignments (st : State) ok new_domains assignments' st' :
  decide_and_propagate model params env domains branch_domain branch_v_end depth f_v
    locals assignments st = Some (ok, new_domains, assignments', st') ->
  keeps_tally st st'.
Proof.
  unfold decide_and_propagate. intros H. apply propagate_keeps_tally in H.
  eapply keeps_tally_trans; [|exact H].
  eapply keeps_tally_trans; [apply proof_log_keeps_tally|]. now split.
Qed.

Lemma out_of_values_keeps_tally locals assignments (st : State) :
  keeps_tally st (out_of_values params env locals assignments st).2.
Proof.
  unfold out_of_values.
  match goal with |- context [should_restart env ?s] =>
    destruct (should_restart env s) as [restart schedule]
  end.
  destruct restart; simpl.
  - eapply keeps_tally_trans; [|apply post_nogood_keeps_tally].
    eapply keeps_tally_trans; [|apply proof_log_keeps_tally].
    eapply keeps_tally_trans; [apply proof_log_keeps_tally|].
    destruct (Locals.actually_hit_a_failure locals); now split.
  - eapply keeps_tally_trans; [apply proof_log_keeps_tally|].
    destruct (Locals.actually_hit_a_failure locals); now split.
Qed.

(** A full assignment is counted, and enumerated, exactly when the answer
    is [SatisfiableButKeepGoing]. *)
Lemma solution_found_tally assignments (st : State) :
  tally params st (solution_found model params env assignments st).2
    (match (solution_found model params env assignments st).1 with
     | SatisfiableButKeepGoing => 1
     | _ => 0
     end).
Proof.
  unfold solution_found.
  destruct (bigraph params && _); [apply tally_nothing; now split|].
  assert (forall st1 : State, keeps_tally st st1 ->
            tally params st
              (let st2 := proof_log env (post_solution (solution_in_proof_form model assignments))
                            st1 in
               if count_solutions params then
                 let st3 := set_solution_count (solution_count st2 + 1)%Z st2 in
                 let st4 := if bigraph params
                            then post_solution_nogood model env assignments st3 else st3 in
                 let st5 := if enumerate_callback params
                            then set_enumerated
                                   (enumerated st4 ++ [expand_to_full_result assignments ∅]) st4
                            else st4 in
                 (SatisfiableButKeepGoing, st5)
               else (Satisfiable, st2)).2
              (match (let st2 := proof_log env
                                   (post_solution (solution_in_proof_form model assignments))
                                   st1 in
                      if count_solutions params then (SatisfiableButKeepGoing, st2)
                      else (Satisfiable, st2)).1 with
               | SatisfiableButKeepGoing => 1
               | _ => 0
               end)) as Hfound.
  { intros st1 [H1 H2].
    pose proof (proof_log_keeps_tally
                  (post_solution (solution_in_proof_form model assignments)) st1) as [H3 H4].
    destruct (count_solutions params); simpl.
    - split.
      + destruct (enumerate_callback params), (bigraph params); simpl; rewrite H3, H1; lia.
      + destruct (enumerate_callback params).
        * exists [expand_to_full_result assignments ∅].
          destruct (bigraph params); simpl; rewrite H4, H2; split; reflexivity.
        * exists []. rewrite app_nil_r.
          destruct (bigraph params); simpl; rewrite H4, H2; split; reflexivity.
    - apply tally_nothing. split; congruence. }
  destruct (lackey st) as [l|].
  - destruct (check_solution _ _ _ _ _) as [[|] l']; simpl.
    + specialize (Hfound (set_lackey (Some l') st) (keeps_tally_refl _)).
      destruct (count_solutions params); exact Hfound.
    + destruct (propagate_using_lackey params); apply tally_nothing; now split.
  - simpl. specialize (Hfound st (keeps_tally_refl _)).
    destruct (count_solutions params); exact Hfound.
Qed.

Section Frame.

Variable restarting_search_ :
  HomomorphismAssignments -> Domains -> Z -> State ->
  option (SearchResult * HomomorphismAssignments * State).

Hypothesis recursive_call_tally :
  forall assignments domains depth st result assignments' st',
    restarting_search_ assignments domains depth st = Some (result, assignments', st') ->
    exists n, tally params st st' n /\ (count_solutions params = false -> n = 0%nat).

Variable domains : Domains.
Variable branch_domain : HomomorphismDomain.
Variable branch_v_end : nat.
Variable depth : Z.

Lemma try_value_tally tried f_v locals assignments (st : State) round assignments' st' :
  try_value model params env restarting_search_ domains branch_domain branch_v_end depth
    tried f_v locals assignments st = Some (round, assignments', st') ->
  exists n, tally params st st' n /\ (count_solutions params = false -> n = 0%nat).
Proof.
  unfold try_value. intros H.
  destruct (decide_and_propagate _ _ _ _ _ _ _ _ _ _ _) as [[[[ok nd] a1] st1]|] eqn:Hp;
    [|discriminate].
  apply decide_and_propagate_keeps_tally in Hp.
  destruct ok.
  - destruct (restarting_search_ _ _ _ _) as [[[r a2] st2]|] eqn:Hr; [|discriminate].
    apply recursive_call_tally in Hr as (n & Hn & Hzero).
    assert (tally params st st2 n) as Hst.
    { eapply keeps_tally_then; [|exact Hn].
      eapply keeps_tally_trans; [exact Hp|apply proof_log_keeps_tally]. }
    assert (forall failure,
              tally params st
                (proof_log env (forget_level (int (depth + 2)))
                   (proof_log env
                      (incorrect_guess (assignments_as_proof_decisions a2) failure)
                      (proof_log env (back_up_to_level (int (depth + 1))) st2))) n) as Hback.
    { intros failure. eapply tally_then_keeps; [exact Hst|].
      eapply keeps_tally_trans; [|apply proof_log_keeps_tally].
      eapply keeps_tally_trans; apply proof_log_keeps_tally. }
    exists n. split; [|exact Hzero].
    destruct r; simpl in H.
    + now injection H as _ _ <-.
    + injection H as _ _ <-. apply Hback.
    + injection H as _ _ <-. apply Hback.
    + now injection H as _ _ <-.
    + injection H as _ _ <-. apply Hback.
    + pose proof (post_nogoods_for_tried_keeps_tally branch_domain tried
                    (resize (length assignments) a2) st2) as Hk.
      destruct (post_nogoods_for_tried _ _ _ _ _ _) as [a3 st3].
      injection H as _ _ <-. eapply tally_then_keeps; eauto.
  - injection H as _ _ <-. exists 0%nat. split; [|reflexivity].
    apply tally_nothing. eapply keeps_tally_trans; [exact Hp|apply proof_log_keeps_tally].
Qed.

Lemma try_values_tally remaining : forall tried locals assignments (st : State)
    result assignments' st',
  try_values model params env restarting_search_ domains branch_domain branch_v_end depth
    tried remaining locals assignments st = Some (result, assignments', st') ->
  exists n, tally params st st' n /\ (count_solutions params = false -> n = 0%nat).
Proof.
  induction remaining as [|f_v rest IH]; intros tried locals a st r a' st' H; simpl in H.
  - injection H as H. pose proof (out_of_values_keeps_tally locals a st) as Hk.
    rewrite H in Hk. exists 0%nat. split; [now apply tally_nothing|reflexivity].
  - destruct (try_value _ _ _ _ _ _ _ _ _ _ _ _ _) as [[[round a1] st1]|] eqn:Ht;
      [|discriminate].
    apply try_value_tally in Ht as (n & Hn & Hzero). destruct round as [r1|locals1].
    + injection H as _ _ <-. now exists n.
    + apply IH in H as (m & Hm & Hzero').
      exists (n + m)%nat. split; [eapply tally_then_tally; eauto|].
      intros Hc. rewrite (Hzero Hc), (Hzero' Hc). reflexivity.
Qed.

End Frame.

Lemma restarting_search_tally frames : forall assignments (domains : Domains) depth
    (st : State) result assignments' st',
  restarting_search model params env frames assignments domains depth st
  = Some (result, assignments', st') ->
  exists n,
    tally params st st' n
    /\ (count_solutions params = false -> n = 0%nat)
    /\ (result = SatisfiableButKeepGoing -> n = 1%nat).
Proof.
  induction frames as [|frames IH]; intros a ds depth st r a' st' H; simpl in H;
    [discriminate|].
  destruct (should_abort env (timeout st)) as [abort t]. destruct abort.
  - injection H as <- _ <-. exists 0%nat. split; [|split; [reflexivity|discriminate]].
    apply tally_nothing. now split.
  - destruct (find_branch_domain model ds) as [[i bd]|] eqn:Hb.
    + destruct (order_values _ _ _ _ _) as [[branch_v rand]|]; [|discriminate].
      pose proof H as Hcause.
      eapply (try_values_cause model params env) in Hcause; cycle 1.
      * intros a0 ds0 depth0 st0 r0 a0' st0' H0.
        now apply (restarting_search_cause model params env) in H0.
      * discriminate.
      * eapply try_values_tally in H.
        -- destruct H as (n & Hn & Hzero). exists n. split; [|split; [exact Hzero|]].
           ++ eapply keeps_tally_then; [|exact Hn]. now split.
           ++ intros ->. now destruct Hcause as [_ Hne].
        -- intros a0 ds0 depth0 st0 r0 a0' st0' H0.
           apply IH in H0 as (n & Hn & Hzero & _). now exists n.
    + match type of H with context [solution_found model params env a ?s] =>
        pose proof (solution_found_tally a s) as Ht;
        pose proof (solution_found_cause model params env a s) as Hc;
        destruct (solution_found model params env a s) as [r1 st1]
      end.
      injection H as <- _ <-. simpl in Ht, Hc. eexists. split; [|split].
      * eapply keeps_tally_then; [|exact Ht]. now split.
      * intros Hcount. destruct r1; try reflexivity. simpl in Hc. congruence.
      * now intros ->.
Qed.

(** X11: a search counts and enumerates in step.  Between the state it is
    given and the state it leaves, [solution_count] has grown by some number
    [n] of solutions and nothing else has happened to it; the enumeration
    callback, if there is one, has been called exactly [n] times, and the
    mappings of earlier calls are still there; [n] is 0 when solutions are
    not counted, and 1 when the answer is [SatisfiableButKeepGoing]. *)
Theorem restarting_search_counts_what_it_enumerates frames assignments (domains : Domains)
    depth (st : State) result assignments' st' :
  restarting_search model params env frames assignments domains depth st
  = Some (result, assignments', st') ->
  exists n new,
    solution_count st' = (solution_count st + Z.of_nat n)%Z
    /\ enumerated st' = enumerated st ++ new
    /\ length new = (if enumerate_callback params then n else 0%nat)
    /\ (count_solutions params = false -> n = 0%nat)
    /\ (result = SatisfiableButKeepGoing -> n = 1%nat).
Proof.
  intros H. apply restarting_search_tally in H as (n & [Hcount (new & Hnew & Hlen)] & H0 & H1).
  now exists n, new.
Qed.

End TallyFacts.

(** ** Propagation only takes values away *)

Lemma shrinks_refl (new_domains : Domains) : shrinks new_domains new_domains.
Proof. induction new_domains as [|d rest IH]; constructor; auto. Qed.

Lemma shrinks_trans (a b c : Domains) : shrinks a b -> shrinks b c -> shrinks a c.
Proof.
  unfold shrinks. intros Hab. revert c.
  induction Hab as [|d d' a b [Hv Hvalues] _ IH]; intros c Hbc.
  - inversion Hbc. constructor.
  - inversion Hbc as [|? d'' ? c' [Hv' Hvalues'] Hrest]; subst.
    constructor; [|now apply IH]. split; [congruence|auto].
Qed.

Lemma shrinks_cons d d' (rest rest' : Domains) :
  v d' = v d ->
  (forall c, SVOBitset.test (values d') c = true -> SVOBitset.test (values d) c = true) ->
  shrinks rest rest' -> shrinks (d :: rest) (d' :: rest').
Proof. intros Hv Hvalues Hrest. constructor; [split|]; assumption. Qed.

Lemma shrinks_insert (new_domains : Domains) : forall i d d',
  new_domains !! i = Some d ->
  v d' = v d ->
  (forall c, SVOBitset.test (values d') c = true -> SVOBitset.test (values d) c = true) ->
  shrinks new_domains (<[i := d']> new_domains).
Proof.
  induction new_domains as [|e rest IH]; intros i d d' Hi Hv Hvalues;
    [now rewrite lookup_nil in Hi|].
  destruct i as [|i]; simpl in *.
  - injection Hi as ->. apply shrinks_cons; [exact Hv|exact Hvalues|apply shrinks_refl].
  - apply shrinks_cons; [reflexivity|auto|]. eapply IH; eauto.
Qed.

Lemma on_unit_nogood_shrinks a (new_domains : Domains) :
  shrinks new_domains (on_unit_nogood a new_domains).
Proof.
  induction new_domains as [|d rest IH]; simpl; [constructor|].
  destruct (fixed d); [apply shrinks_cons; auto|].
  destruct (v d =? pattern_vertex a).
  - apply shrinks_cons; [reflexivity| |apply shrinks_refl].
    simpl. intros c. rewrite SVOBitsetFacts.test_reset, andb_true_iff. tauto.
  - apply shrinks_cons; auto.
Qed.

Lemma delete_value_shrinks p t (new_domains : Domains) : forall new_domains' zero,
  delete_value p t new_domains = Some (new_domains', zero) ->
  shrinks new_domains new_domains'.
Proof.
  induction new_domains as [|d rest IH]; intros ds' zero H; simpl in H; [discriminate|].
  destruct (v d =? p).
  - destruct (SVOBitset.test (values d) t); [|discriminate].
    injection H as <- _. apply shrinks_cons; [reflexivity| |apply shrinks_refl].
    simpl. intros c. rewrite SVOBitsetFacts.test_reset, andb_true_iff. tauto.
  - destruct (delete_value p t rest) as [[rest' zero']|]; [|discriminate].
    injection H as <- _. apply shrinks_cons; auto. eapply IH; eauto.
Qed.

Lemma deletion_shrinks p t (new_domains : Domains) wipeout dcount :
  shrinks new_domains (deletion p t (new_domains, wipeout, dcount)).2.1.1.
Proof.
  unfold deletion. destruct wipeout; simpl; [apply shrinks_refl|].
  destruct (delete_value _ _ _) as [[ds' zero]|] eqn:Hd; simpl; [|apply shrinks_refl].
  eapply delete_value_shrinks; eauto.
Qed.

Lemma run_lackey_shrinks {LackeyT : Type} (run : LackeyRun LackeyT) :
  forall (new_domains : Domains) wipeout dcount,
    shrinks new_domains (run_lackey deletion run (new_domains, wipeout, dcount)).2.1.1.
Proof.
  induction run as [ok after|p t next IH]; intros ds wipeout dcount; cbn [run_lackey];
    [apply shrinks_refl|].
  pose proof (deletion_shrinks p t ds wipeout dcount) as Hd.
  destruct (deletion p t (ds, wipeout, dcount)) as [deleted [[ds1 wipeout1] dcount1]].
  simpl in Hd. eapply shrinks_trans; [exact Hd|apply IH].
Qed.

Section LessThanShrinks.

Import SVOBitsetFacts.

Variable model : HomomorphismModel.

Lemma both_domains_lookup find_domain (new_domains : Domains) a b ia a_domain ib b_domain :
  both_domains find_domain new_domains a b = Some (ia, a_domain, (ib, b_domain)) ->
  new_domains !! ia = Some a_domain /\ new_domains !! ib = Some b_domain.
Proof.
  unfold both_domains. destruct (_ || _); [discriminate|].
  destruct (new_domains !! _) as [x|] eqn:Hx; [|discriminate].
  destruct (new_domains !! Z.to_nat (find_domain_at find_domain b)) as [y|] eqn:Hy;
    [|discriminate].
  intros [= <- <- <- <-]. auto.
Qed.

Lemma less_thans_first_pass_shrinks find_domain pairs : forall new_domains : Domains,
  shrinks new_domains (less_thans_first_pass model find_domain pairs new_domains).2.
Proof.
  induction pairs as [|[a b] rest IH]; intros ds; simpl; [apply shrinks_refl|].
  destruct (both_domains find_domain ds a b) as [[[ia a_domain] [ib b_domain]]|] eqn:Hb;
    [|apply IH].
  apply both_domains_lookup in Hb as [_ Hb].
  destruct (SVOBitset.find_first (values a_domain)) as [first_a|]; [|apply shrinks_refl].
  destruct (target_size model <=? first_a + 1); [apply shrinks_refl|].
  match goal with |- context [<[ib := ?d]> ds] =>
    assert (shrinks ds (<[ib := d]> ds)) as Hs
  end.
  { eapply shrinks_insert; [exact Hb|reflexivity|]. simpl. intros c.
    rewrite reset_below_spec by lia. rewrite andb_true_iff. tauto. }
  match goal with |- context [if ?c then (false, _) else _] => destruct c end;
    simpl; [exact Hs|].
  eapply shrinks_trans; [exact Hs|apply IH].
Qed.

Lemma less_thans_second_pass_shrinks find_domain pairs : forall new_domains : Domains,
  shrinks new_domains (less_thans_second_pass find_domain pairs new_domains).2.
Proof.
  induction pairs as [|[a b] rest IH]; intros ds; simpl; [apply shrinks_refl|].
  destruct (both_domains find_domain ds a b) as [[[ia a_domain] [ib b_domain]]|] eqn:Hb;
    [|apply IH].
  apply both_domains_lookup in Hb as [Ha _].
  destruct (last_set (values b_domain) =? 0); [apply shrinks_refl|].
  match goal with |- context [<[ia := ?d]> ds] =>
    assert (shrinks ds (<[ia := d]> ds)) as Hs
  end.
  { eapply shrinks_insert; [exact Ha|reflexivity|]. simpl. intros c.
    unfold SVOBitset.for_each. rewrite drain_reset_above by lia.
    rewrite andb_true_iff. tauto. }
  match goal with |- context [if ?c then (false, _) else _] => destruct c end;
    simpl; [exact Hs|].
  eapply shrinks_trans; [exact Hs|apply IH].
Qed.

Lemma propagate_less_thans_shrinks (new_domains : Domains) :
  shrinks new_domains (propagate_less_thans model new_domains).2.
Proof.
  unfold propagate_less_thans.
  pose proof (less_thans_first_pass_shrinks (find_domain_table model new_domains)
                (pattern_less_thans_in_convenient_order model) new_domains) as H1.
  destruct (less_thans_first_pass _ _ _ _) as [ok ds1]. simpl in H1.
  destruct ok; simpl; [|exact H1].
  eapply shrinks_trans; [exact H1|apply less_thans_second_pass_shrinks].
Qed.

End LessThanShrinks.

Section PropagateShrinks.

Context {TimeoutT RestartsT LackeyT WatchesT ProofT RandT : Type}.

Local Abbreviation State := (SearchState TimeoutT RestartsT LackeyT WatchesT ProofT RandT).

Variable model : HomomorphismModel.
Variable params : HomomorphismParams.
Variable env : Collaborators TimeoutT RestartsT LackeyT WatchesT ProofT RandT.

(** The all-different propagator only takes values away. *)
Hypothesis cheap_all_different_shrinks :
  forall n (new_domains : Domains) p,
    shrinks new_domains (cheap_all_different env n new_domains p).1.2.

Lemma propagate_simple_constraints_shrinks (new_domains : Domains) a :
  shrinks new_domains (propagate_simple_constraints model params new_domains a).2.
Proof.
  induction new_domains as [|d rest IH]; cbn [propagate_simple_constraints];
    [constructor|].
  destruct (fixed d).
  - destruct (propagate_simple_constraints model params rest a) as [ok rest'].
    apply shrinks_cons; auto.
  - destruct (propagate_simple_constraints_on_spec model params d a) as (Hv & _ & _ & Hvalues).
    destruct (count (propagate_simple_constraints_on model params d a) =? 0).
    + apply shrinks_cons; [exact Hv| |apply shrinks_refl].
      intros c Hc. now apply Hvalues in Hc.
    + destruct (propagate_simple_constraints model params rest a) as [ok rest'].
      apply shrinks_cons; [exact Hv| |exact IH].
      intros c Hc. now apply Hvalues in Hc.
Qed.

Lemma propagate_watches_shrinks current_assignment (new_domains : Domains) assignments
    (st : State) :
  shrinks new_domains
    (propagate_watches params env current_assignment new_domains assignments st).1.
Proof.
  unfold propagate_watches. destruct (might_have_watches params); [|apply shrinks_refl].
  destruct (watches_propagate _ _ _ _) as [units w]. simpl.
  revert new_domains. induction units as [|a units IH]; intros ds; simpl;
    [apply shrinks_refl|].
  eapply shrinks_trans; [apply on_unit_nogood_shrinks|apply IH].
Qed.

Lemma propagate_constraints_shrinks current_assignment (new_domains : Domains) (st : State) :
  shrinks new_domains
    (propagate_constraints model params env current_assignment new_domains st).1.2.
Proof.
  unfold propagate_constraints.
  pose proof (propagate_simple_constraints_shrinks new_domains current_assignment) as H1.
  destruct (propagate_simple_constraints _ _ _ _) as [[|] ds1]; simpl in *; [|exact H1].
  assert (shrinks ds1
            (if bigraph params then propagate_hyperedge_constraints ds1 current_assignment
             else (true, ds1)).2) as H2
    by (destruct (bigraph params); apply shrinks_refl).
  destruct (if bigraph params then _ else _) as [[|] ds2]; simpl in *;
    [|eapply shrinks_trans; eauto].
  assert (shrinks ds2
            (if has_less_thans model then propagate_less_thans model ds2 else (true, ds2)).2)
    as H3
    by (destruct (has_less_thans model);
        [apply propagate_less_thans_shrinks|apply shrinks_refl]).
  destruct (if has_less_thans model then _ else _) as [[|] ds3]; simpl in *;
    [|eapply shrinks_trans; [eapply shrinks_trans|]; eauto].
  assert (shrinks new_domains ds3) as H4
    by (eapply shrinks_trans; [eapply shrinks_trans|]; eauto).
  destruct (injectivity params); simpl; try exact H4.
  pose proof (cheap_all_different_shrinks (target_size model) ds3 (proof st)) as H5.
  destruct (cheap_all_different _ _ _ _) as [[ok ds4] p]. simpl in *.
  eapply shrinks_trans; eauto.
Qed.

Lemma propagate_units_shrinks rounds : forall (new_domains : Domains) assignments
    (st : State) ok new_domains' assignments' st',
  propagate_units model params env rounds new_domains assignments st
  = Some (ok, new_domains', assignments', st') ->
  shrinks new_domains new_domains'.
Proof.
  induction rounds as [|rounds IH]; intros ds a st ok ds' a' st' H; simpl in H.
  - destruct (find_unit_domain ds) as [[i d]|]; [discriminate|].
    injection H as _ <- _ _. apply shrinks_refl.
  - destruct (find_unit_domain ds) as [[i d]|] eqn:Hf;
      [|injection H as _ <- _ _; apply shrinks_refl].
    apply list_find_Some in Hf as (Hi & _ & _).
    assert (shrinks ds (<[i := set_fixed true d]> ds)) as H0
      by (eapply shrinks_insert; eauto).
    match type of H with context [propagate_watches params env ?c ?nd ?as_ ?s] =>
      pose proof (propagate_watches_shrinks c nd as_ s) as Hw;
      destruct (propagate_watches params env c nd as_ s) as [ds1 st1]
    end.
    match type of H with context [propagate_constraints model params env ?c ?nd ?s] =>
      pose proof (propagate_constraints_shrinks c nd s) as Hc;
      destruct (propagate_constraints model params env c nd s) as [[ok2 ds2] st2]
    end.
    simpl in Hw, Hc.
    assert (shrinks ds ds2) as Hs
      by (eapply shrinks_trans; [eapply shrinks_trans|]; eauto).
    destruct ok2; simpl in H.
    + apply IH in H. eapply shrinks_trans; eauto.
    + now injection H as _ <- _ _.
Qed.

Lemma propagate_lackey_shrinks (new_domains : Domains) assignments propagate_using_lackey_
    (st : State) :
  shrinks new_domains
    (propagate_lackey params env new_domains assignments propagate_using_lackey_ st).1.2.
Proof.
  unfold propagate_lackey. destruct (lackey st) as [l|]; [|apply shrinks_refl].
  destruct (propagate_using_lackey_ || send_partials_to_lackey params);
    [|apply shrinks_refl].
  destruct propagate_using_lackey_.
  - match goal with |- context [run_lackey deletion ?run (new_domains, false, 0%Z)] =>
      pose proof (run_lackey_shrinks run new_domains false 0%Z) as Hr;
      destruct (run_lackey deletion run (new_domains, false, 0%Z))
        as [[ok l'] [[ds w] n]]
    end.
    exact Hr.
  - destruct (check_solution _ _ _ _ _) as [ok l']. apply shrinks_refl.
Qed.

(** X12: whatever [propagate] answers, the domains it leaves are the
    domains it was given with values taken away: as many domains, for the
    same pattern vertices in the same order, and none with a value that it
    did not have before.  This holds for the watches, the simple
    constraints, the less-than constraints and the deletions asked for by
    the lackey, given an all-different propagator that does the same. *)
Theorem propagate_only_takes_values_away (new_domains : Domains) assignments
    propagate_using_lackey_ (st : State) ok new_domains' assignments' st' :
  propagate model params env new_domains assignments propagate_using_lackey_ st
  = Some (ok, new_domains', assignments', st') ->
  length new_domains' = length new_domains
  /\ map v new_domains' = map v new_domains
  /\ forall i d d',
       new_domains !! i = Some d -> new_domains' !! i = Some d' ->
       forall c, SVOBitset.test (values d') c = true -> SVOBitset.test (values d) c = true.
Proof.
  unfold propagate. intros H.
  assert (shrinks new_domains new_domains') as Hs.
  { destruct (propagate_units _ _ _ _ _ _ _) as [[[[ok1 ds1] a1] st1]|] eqn:Hu;
      [|discriminate].
    apply propagate_units_shrinks in Hu. destruct ok1.
    - pose proof (propagate_lackey_shrinks ds1 a1 propagate_using_lackey_ st1) as Hl.
      destruct (propagate_lackey _ _ _ _ _ _) as [[ok2 ds2] st2].
      injection H as _ <- _ _. eapply shrinks_trans; eauto.
    - now injection H as _ <- _ _. }
  clear H. unfold shrinks in Hs. split; [symmetry; eapply Forall2_length; eauto|]. split.
  - induction Hs as [|d d' ds ds' [Hv _] _ IH]; simpl; [reflexivity|]. now rewrite Hv, IH.
  - intros i d d' Hi Hi' c Hc.
    rewrite Forall2_lookup in Hs. specialize (Hs i). rewrite Hi, Hi' in Hs.
    inversion Hs as [? ? [_ Hvalues]|]; subst. now apply Hvalues.
Qed.

End PropagateShrinks.

(** ** The end of unit propagation, a branch without values, solution nogoods *)

Section EdgeFacts.

Context {TimeoutT RestartsT LackeyT WatchesT ProofT RandT : Type}.

Local Abbreviation State := (SearchState TimeoutT RestartsT LackeyT WatchesT ProofT RandT).

Variable model : HomomorphismModel.
Variable params : HomomorphismParams.
Variable env : Collaborators TimeoutT RestartsT LackeyT WatchesT ProofT RandT.

Lemma propagate_units_fixpoint rounds : forall (new_domains : Domains) assignments
    (st : State) new_domains' assignments' st',
  propagate_units model params env rounds new_domains assignments st
  = Some (true, new_domains', assignments', st') ->
  find_unit_domain new_domains' = None.
Proof.
  induction rounds as [|rounds IH]; intros ds a st ds' a' st' H; simpl in H.
  - destruct (find_unit_domain ds) as [[i d]|] eqn:Hf; [discriminate|].
    now injection H as <- _ _.
  - destruct (find_unit_domain ds) as [[i d]|] eqn:Hf;
      [|now injection H as <- _ _].
    destruct (propagate_watches _ _ _ _ _ _) as [ds1 st1].
    destruct (propagate_constraints _ _ _ _ _ _) as [[ok2 ds2] st2].
    destruct ok2; simpl in H; [|discriminate]. eapply IH; eauto.
Qed.

(** X13: when [propagate] succeeds in a call that does not propagate with
    the lackey, unit propagation has run to its end: every domain whose
    count is 1 is marked as fixed (and has its entry on the trail). *)
Theorem propagate_leaves_no_unit_domain (new_domains : Domains) assignments (st : State)
    new_domains' assignments' st' :
  propagate model params env new_domains assignments false st
  = Some (true, new_domains', assignments', st') ->
  Forall (fun d => count d = 1 -> fixed d = true) new_domains'.
Proof.
  unfold propagate. intros H.
  destruct (propagate_units _ _ _ _ _ _ _) as [[[[ok1 ds1] a1] st1]|] eqn:Hu;
    [|discriminate].
  destruct ok1; [|discriminate].
  apply propagate_units_fixpoint in Hu.
  assert (new_domains' = ds1) as ->.
  { unfold propagate_lackey in H. destruct (lackey st1) as [l|]; [|congruence].
    simpl in H. destruct (send_partials_to_lackey params); [|congruence].
    destruct (check_solution _ _ _ _ _). congruence. }
  unfold find_unit_domain in Hu. rewrite list_find_None in Hu.
  eapply Forall_impl; [exact Hu|]. intros d Hd Hc. unfold is_unit_domain in Hd.
  destruct (fixed d); [reflexivity|]. exfalso. apply Hd.
  simpl. now apply N.eqb_eq.
Qed.

Lemma nodes_post_nogood assignments (st : State) :
  nodes (post_nogood params env assignments st) = nodes st
  /\ propagations (post_nogood params env assignments st) = propagations st
  /\ restarts_schedule (post_nogood params env assignments st) = restarts_schedule st.
Proof.
  unfold post_nogood, proof_log. destruct (might_have_watches params); simpl; [|auto].
  destruct (proof st); auto.
Qed.

Lemma restarts_schedule_proof_log event (st : State) :
  restarts_schedule (proof_log env event st) = restarts_schedule st.
Proof. unfold proof_log. now destruct (proof st). Qed.

(** X14: a call whose branch domain has no value at all makes no guess: if
    the timeout does not say abort, it answers [Unsatisfiable], or
    [Restart] if the restarts schedule says so, with the trail as it was,
    one more node, no propagation, and without reporting a backtrack to
    the schedule. *)
Theorem branch_without_values_is_unsatisfiable frames assignments (domains : Domains)
    depth (st : State) i branch_domain :
  (should_abort env (timeout st)).1 = false ->
  find_branch_domain model domains = Some (i, branch_domain) ->
  values branch_domain = SVOBitset.empty ->
  value_ordering_heuristic params <> Random ->
  exists st',
    restarting_search model params env (S frames) assignments domains depth st
    = Some (if (should_restart env (restarts_schedule st)).1 then Restart else Unsatisfiable,
            assignments, st')
    /\ nodes st' = increment_counter (nodes st)
    /\ propagations st' = propagations st
    /\ restarts_schedule st' = (should_restart env (restarts_schedule st)).2.
Proof.
  intros Habort Hbranch Hvalues Hordering. simpl.
  destruct (should_abort env (timeout st)) as [abort t]. simpl in Habort. subst abort.
  rewrite Hbranch.
  assert (remaining_values branch_domain = []) as -> by (unfold remaining_values; now rewrite Hvalues).
  assert (order_values model (random env) (value_ordering_heuristic params) []
            (global_rand st)
          = Some ([], global_rand st)) as ->
    by (destruct (value_ordering_heuristic params); try reflexivity; congruence).
  simpl. unfold out_of_values. simpl.
  rewrite restarts_schedule_proof_log. simpl.
  destruct (should_restart env (restarts_schedule st)) as [restart schedule].
  destruct restart; simpl; eexists; (split; [reflexivity|]).
  - destruct (nodes_post_nogood assignments
                (proof_log env back_up_to_top
                   (set_restarts_schedule schedule
                      (proof_log env
                         (out_of_guesses (assignments_as_proof_decisions assignments))
                         (set_global_rand (global_rand st)
                            (set_nodes (increment_counter (nodes st))
                               (set_timeout t st)))))))
      as (-> & -> & ->).
    rewrite !nodes_proof_log, !propagations_proof_log, !restarts_schedule_proof_log. simpl.
    rewrite !nodes_proof_log, !propagations_proof_log. auto.
  - simpl. rewrite !nodes_proof_log, !propagations_proof_log. auto.
Qed.

(** X15: [post_solution_nogood] posts its nogood whether or not there may
    be watches, and logs nothing to the proof.  The literals are decisions
    of the trail, in trail order; when the pattern has no link vertices and
    the trail holds vertices of the pattern only, they are all the
    decisions of the trail, the literals that [post_nogood] collects. *)
Theorem post_solution_nogood_posts_decisions assignments (st : State) :
  exists nogood,
    post_solution_nogood model env assignments st
    = set_watches (watches_post_nogood env (watches st) nogood) st
    /\ literals nogood `sublist_of` decision_literals assignments
    /\ (pattern_link_count model = 0 -> pattern_size model < 2 ^ 32 ->
        Forall (fun a => pattern_vertex (assignment a) < pattern_size model) assignments ->
        literals nogood = decision_literals assignments).
Proof.
  unfold post_solution_nogood. eexists. split; [reflexivity|]. simpl.
  unfold decision_literals. split.
  - change (map assignment) with (fmap (M := list) assignment). apply fmap_sublist.
    induction assignments as [|a rest IH]; [constructor|].
    rewrite !filter_cons.
    destruct (is_decision a); simpl.
    + destruct (pattern_vertex (assignment a) <? _); simpl.
      * now apply sublist_skip.
      * now apply sublist_cons.
    + exact IH.
  - intros Hlinks Hsize Hall. f_equal.
    assert (unsigned (Z.of_N (pattern_size model) - Z.of_N (pattern_link_count model))
            = pattern_size model) as ->.
    { rewrite Hlinks. unfold unsigned. rewrite Z.sub_0_r, Z.mod_small by lia.
      apply N2Z.id. }
    induction Hall as [|a rest Ha _ IH]; [reflexivity|].
    rewrite !filter_cons, IH.
    apply N.ltb_lt in Ha. rewrite Ha, andb_true_r. reflexivity.
Qed.

End EdgeFacts.

(** ** Counts stay in step with values *)

Lemma on_unit_nogood_fixed_counts a (new_domains : Domains) :
  Forall (fun d => fixed d = true -> count_matches d) new_domains ->
  Forall (fun d => fixed d = true -> count_matches d) (on_unit_nogood a new_domains).
Proof.
  induction 1 as [|d rest Hd Hrest IH]; simpl; [constructor|].
  destruct (fixed d) eqn:Hf; [constructor; auto|].
  destruct (v d =? pattern_vertex a).
  - constructor; [|exact Hrest]. simpl. congruence.
  - constructor; [congruence|exact IH].
Qed.

Section CountFacts.

Context {TimeoutT RestartsT LackeyT WatchesT ProofT RandT : Type}.

Local Abbreviation State := (SearchState TimeoutT RestartsT LackeyT WatchesT ProofT RandT).

Variable model : HomomorphismModel.
Variable params : HomomorphismParams.
Variable env : Collaborators TimeoutT RestartsT LackeyT WatchesT ProofT RandT.

(** The all-different propagator keeps the counts in step. *)
Hypothesis cheap_all_different_counts :
  forall n (new_domains : Domains) p,
    Forall count_matches new_domains ->
    Forall count_matches (cheap_all_different env n new_domains p).1.2.

Lemma propagate_watches_fixed_counts current_assignment (new_domains : Domains) assignments
    (st : State) :
  Forall (fun d => fixed d = true -> count_matches d) new_domains ->
  Forall (fun d => fixed d = true -> count_matches d)
    (propagate_watches params env current_assignment new_domains assignments st).1.
Proof.
  unfold propagate_watches. destruct (might_have_watches params); [|auto].
  destruct (watches_propagate _ _ _ _) as [units w]. simpl.
  revert new_domains. induction units as [|a units IH]; intros ds H; simpl; [exact H|].
  apply IH. now apply on_unit_nogood_fixed_counts.
Qed.

(** The recount at the end of the loop body brings every domain that is
    not fixed back in step. *)
Lemma propagate_simple_constraints_counts (new_domains : Domains) a new_domains' :
  Forall (fun d => fixed d = true -> count_matches d) new_domains ->
  propagate_simple_constraints model params new_domains a = (true, new_domains') ->
  Forall count_matches new_domains'.
Proof.
  intros Hfixed H. apply propagate_simple_constraints_success in H.
  induction H as [|d d' ds ds' Hd _ IH]; [constructor|].
  apply Forall_cons in Hfixed as [Hfd Hrest]. constructor; [|now apply IH].
  destruct (fixed d); [subst d'; now apply Hfd|]. apply Hd.
Qed.

Lemma less_thans_first_pass_counts find_domain pairs : forall new_domains : Domains,
  Forall count_matches new_domains ->
  Forall count_matches (less_thans_first_pass model find_domain pairs new_domains).2.
Proof.
  induction pairs as [|[a b] rest IH]; intros ds H; simpl; [exact H|].
  destruct (both_domains find_domain ds a b) as [[[ia a_domain] [ib b_domain]]|];
    [|now apply IH].
  destruct (SVOBitset.find_first (values a_domain)) as [first_a|]; [|exact H].
  destruct (target_size model <=? first_a + 1); [exact H|].
  match goal with |- context [<[ib := ?d]> ds] =>
    assert (Forall count_matches (<[ib := d]> ds)) as Hs
      by (apply Forall_insert; [exact H|reflexivity])
  end.
  match goal with |- context [if ?c then (false, _) else _] => destruct c end;
    simpl; [exact Hs|now apply IH].
Qed.

Lemma less_thans_second_pass_counts find_domain pairs : forall new_domains : Domains,
  Forall count_matches new_domains ->
  Forall count_matches (less_thans_second_pass find_domain pairs new_domains).2.
Proof.
  induction pairs as [|[a b] rest IH]; intros ds H; simpl; [exact H|].
  destruct (both_domains find_domain ds a b) as [[[ia a_domain] [ib b_domain]]|];
    [|now apply IH].
  destruct (last_set (values b_domain) =? 0); [exact H|].
  match goal with |- context [<[ia := ?d]> ds] =>
    assert (Forall count_matches (<[ia := d]> ds)) as Hs
      by (apply Forall_insert; [exact H|reflexivity])
  end.
  match goal with |- context [if ?c then (false, _) else _] => destruct c end;
    simpl; [exact Hs|now apply IH].
Qed.

Lemma propagate_less_thans_counts (new_domains : Domains) :
  Forall count_matches new_domains ->
  Forall count_matches (propagate_less_thans model new_domains).2.
Proof.
  intros H. unfold propagate_less_thans.
  pose proof (less_thans_first_pass_counts (find_domain_table model new_domains)
                (pattern_less_thans_in_convenient_order model) new_domains H) as H1.
  destruct (less_thans_first_pass _ _ _ _) as [ok ds1]. simpl in H1.
  destruct ok; simpl; [|exact H1]. now apply less_thans_second_pass_counts.
Qed.

Lemma propagate_constraints_counts current_assignment (new_domains : Domains) (st : State)
    new_domains' st' :
  Forall (fun d => fixed d = true -> count_matches d) new_domains ->
  propagate_constraints model params env current_assignment new_domains st
  = (true, new_domains', st') ->
  Forall count_matches new_domains'.
Proof.
  unfold propagate_constraints. intros Hfixed H.
  destruct (propagate_simple_constraints _ _ _ _) as [[|] ds1] eqn:H1; simpl in H;
    [|discriminate].
  apply propagate_simple_constraints_counts in H1; [|exact Hfixed].
  assert (Forall count_matches
            (if bigraph params then propagate_hyperedge_constraints ds1 current_assignment
             else (true, ds1)).2) as H2 by now destruct (bigraph params).
  destruct (if bigraph params then _ else _) as [[|] ds2]; simpl in *; [|discriminate].
  assert (Forall count_matches
            (if has_less_thans model then propagate_less_thans model ds2 else (true, ds2)).2)
    as H3
    by (destruct (has_less_thans model); [now apply propagate_less_thans_counts|exact H2]).
  destruct (if has_less_thans model then _ else _) as [[|] ds3]; simpl in *;
    [|discriminate].
  destruct (injectivity params); try (injection H as <- _; exact H3).
  pose proof (cheap_all_different_counts (target_size model) ds3 (proof st) H3) as H4.
  destruct (cheap_all_different _ _ _ _) as [[ok ds4] p]. simpl in *.
  now injection H as _ <- _.
Qed.

Lemma propagate_units_counts rounds : forall (new_domains : Domains) assignments
    (st : State) new_domains' assignments' st',
  Forall count_matches new_domains ->
  propagate_units model params env rounds new_domains assignments st
  = Some (true, new_domains', assignments', st') ->
  Forall count_matches new_domains'.
Proof.
  induction rounds as [|rounds IH]; intros ds a st ds' a' st' Hall H; simpl in H.
  - destruct (find_unit_domain ds) as [[i d]|]; [discriminate|].
    now injection H as <- _ _.
  - destruct (find_unit_domain ds) as [[i d]|] eqn:Hf; [|now injection H as <- _ _].
    apply list_find_Some in Hf as (Hi & _ & _).
    assert (Forall (fun d => fixed d = true -> count_matches d)
              (<[i := set_fixed true d]> ds)) as H0.
    { apply Forall_insert.
      - eapply Forall_impl; [exact Hall|]. auto.
      - intros _. eapply Forall_lookup_1 in Hall; [|exact Hi]. exact Hall. }
    match type of H with context [propagate_watches params env ?c ?nd ?as_ ?s] =>
      pose proof (propagate_watches_fixed_counts c nd as_ s H0) as Hw;
      destruct (propagate_watches params env c nd as_ s) as [ds1 st1]
    end.
    destruct (propagate_constraints _ _ _ _ _ _) as [[ok2 ds2] st2] eqn:Hc.
    destruct ok2; simpl in H; [|discriminate].
    apply propagate_constraints_counts in Hc; [|exact Hw]. eapply IH; eauto.
Qed.

(** X16: when the count of every domain is the number of its values, and
    [propagate] succeeds in a call that does not propagate with the lackey,
    then the count of every domain it leaves is again the number of its
    values: the values that the watches take away without recounting are
    recounted before the round is over.  The all-different propagator is
    taken to keep the counts in step as well. *)
Theorem propagate_keeps_counts_in_step (new_domains : Domains) assignments (st : State)
    new_domains' assignments' st' :
  Forall count_matches new_domains ->
  propagate model params env new_domains assignments false st
  = Some (true, new_domains', assignments', st') ->
  Forall count_matches new_domains'.
Proof.
  unfold propagate. intros Hall H.
  destruct (propagate_units _ _ _ _ _ _ _) as [[[[ok1 ds1] a1] st1]|] eqn:Hu;
    [|discriminate].
  destruct ok1; [|discriminate].
  apply propagate_units_counts in Hu; [|exact Hall].
  assert (new_domains' = ds1) as ->; [|exact Hu].
  unfold propagate_lackey in H. destruct (lackey st1) as [l|]; [|congruence].
  simpl in H. destruct (send_partials_to_lackey params); [|congruence].
  destruct (check_solution _ _ _ _ _). congruence.
Qed.

End CountFacts.

(** ** The trail of a solution *)

Lemma narrows_intro (new_domains new_domains' : Domains) :
  shrinks new_domains new_domains' ->
  map fixed new_domains' = map fixed new_domains ->
  narrows new_domains new_domains'.
Proof.
  unfold shrinks, narrows. induction 1 as [|d d' ds ds' [Hv Hvalues] _ IH]; intros Hf;
    [constructor|].
  simpl in Hf. injection Hf as Hfd Hrest. constructor; [|now apply IH]. auto.
Qed.

Lemma narrows_refl (new_domains : Domains) : narrows new_domains new_domains.
Proof. induction new_domains; constructor; auto. Qed.

Lemma narrows_trans (a b c : Domains) : narrows a b -> narrows b c -> narrows a c.
Proof.
  unfold narrows. intros Hab. revert c.
  induction Hab as [|d d' a b (Hv & Hf & Hvalues) _ IH]; intros c Hbc.
  - inversion Hbc. constructor.
  - inversion Hbc as [|? d'' ? c' (Hv' & Hf' & Hvalues') Hrest]; subst.
    constructor; [|now apply IH]. split; [congruence|]. split; [congruence|auto].
Qed.

(** A unit domain whose count is in step holds exactly one value, the one
    that unit propagation assigns. *)
Lemma unit_domain_entry d :
  count_matches d -> count d = 1 ->
  SVOBitset.test (values d) (default SVOBitset.npos (SVOBitset.find_first (values d)))
  = true.
Proof.
  unfold count_matches. intros Hm Hc.
  destruct (SVOBitset.find_first (values d)) as [w|] eqn:Hw.
  - now apply SVOBitsetFacts.find_first_Some in Hw as [Hw _].
  - apply SVOBitsetFacts.find_first_None in Hw. rewrite Hw in Hm. simpl in Hm. lia.
Qed.

Lemma Forall2_insert_at {A : Type} (R : A -> A -> Prop) (l : list A) : forall i x y,
  l !! i = Some x -> R x y -> (forall z, R z z) -> Forall2 R l (<[i := y]> l).
Proof.
  induction l as [|z l IH]; intros i x y Hi Hxy Hrefl; [now rewrite lookup_nil in Hi|].
  destruct i as [|i]; simpl in *.
  - injection Hi as ->. constructor; [exact Hxy|].
    clear IH. induction l; constructor; auto.
  - constructor; [apply Hrefl|]. eapply IH; eauto.
Qed.

Section SolutionTrail.

Context {TimeoutT RestartsT LackeyT WatchesT ProofT RandT : Type}.

Local Abbreviation State := (SearchState TimeoutT RestartsT LackeyT WatchesT ProofT RandT).

Local Abbreviation test := SVOBitset.test.

Variable model : HomomorphismModel.
Variable params : HomomorphismParams.
Variable env : Collaborators TimeoutT RestartsT LackeyT WatchesT ProofT RandT.

(** The all-different propagator only takes values away, does not change
    which domains are fixed, and keeps the counts in step. *)
Hypothesis cheap_all_different_shrinks :
  forall n (new_domains : Domains) p,
    shrinks new_domains (cheap_all_different env n new_domains p).1.2.
Hypothesis cheap_all_different_flags :
  forall n (new_domains : Domains) p,
    map fixed (cheap_all_different env n new_domains p).1.2 = map fixed new_domains.
Hypothesis cheap_all_different_counts :
  forall n (new_domains : Domains) p,
    Forall count_matches new_domains ->
    Forall count_matches (cheap_all_different env n new_domains p).1.2.

(** The filters that follow the simple constraints only narrow what these
    have left. *)
Lemma propagate_constraints_after_simple current_assignment (new_domains : Domains)
    (st : State) new_domains' st' :
  propagate_constraints model params env current_assignment new_domains st
  = (true, new_domains', st') ->
  exists simple,
    propagate_simple_constraints model params new_domains current_assignment = (true, simple)
    /\ narrows simple new_domains'.
Proof.
  unfold propagate_constraints. intros H.
  destruct (propagate_simple_constraints _ _ _ _) as [[|] ds1]; simpl in H; [|discriminate].
  exists ds1. split; [reflexivity|].
  assert (narrows ds1
            (if bigraph params then propagate_hyperedge_constraints ds1 current_assignment
             else (true, ds1)).2) as H2
    by (destruct (bigraph params); apply narrows_refl).
  destruct (if bigraph params then _ else _) as [[|] ds2]; simpl in *; [|discriminate].
  assert (narrows ds2
            (if has_less_thans model then propagate_less_thans model ds2 else (true, ds2)).2)
    as H3.
  { destruct (has_less_thans model); [|apply narrows_refl].
    apply narrows_intro;
      [apply propagate_less_thans_shrinks|apply propagate_less_thans_flags]. }
  destruct (if has_less_thans model then _ else _) as [[|] ds3]; simpl in *;
    [|discriminate].
  assert (narrows ds1 ds3) as H4 by (eapply narrows_trans; eauto).
  destruct (injectivity params); try (injection H as <- _; exact H4).
  pose proof (cheap_all_different_shrinks (target_size model) ds3 (proof st)) as H5.
  pose proof (cheap_all_different_flags (target_size model) ds3 (proof st)) as H6.
  destruct (cheap_all_different _ _ _ _) as [[ok ds4] p]. simpl in *.
  injection H as _ <- _. eapply narrows_trans; [exact H4|]. now apply narrows_intro.
Qed.

(** One round of unit propagation that succeeds: the domains are narrowed,
    their counts are in step, and every value left in a domain that is not
    fixed agrees with the assignment of the round. *)
Lemma propagate_round current_assignment (new_domains : Domains) assignments (st : State)
    watched st1 new_domains' st' :
  Forall (fun d => fixed d = true -> count_matches d) new_domains ->
  propagate_watches params env current_assignment new_domains assignments st
  = (watched, st1) ->
  propagate_constraints model params env current_assignment watched st1
  = (true, new_domains', st') ->
  narrows new_domains new_domains'
  /\ Forall count_matches new_domains'
  /\ forall d c,
       d ∈ new_domains' -> fixed d = false -> test (values d) c = true ->
       simple_consistent model params current_assignment (v d) c.
Proof.
  intros Hfixed Hw Hc.
  pose proof (propagate_watches_shrinks params env current_assignment new_domains
                assignments st) as Hws.
  pose proof (propagate_watches_flags params env current_assignment new_domains
                assignments st) as Hwf.
  pose proof (propagate_watches_fixed_counts params env current_assignment new_domains
                assignments st Hfixed) as Hwc.
  rewrite Hw in Hws, Hwf, Hwc. simpl in Hws, Hwf, Hwc.
  pose proof (propagate_constraints_counts model params env cheap_all_different_counts
                current_assignment watched st1 new_domains' st' Hwc Hc) as Hcounts.
  destruct (propagate_constraints_after_simple _ _ _ _ _ Hc) as (simple & Hs & Hn).
  pose proof (propagate_simple_constraints_shrinks model params watched current_assignment)
    as Hss.
  pose proof (propagate_simple_constraints_flags model params current_assignment watched)
    as Hsf.
  rewrite Hs in Hss, Hsf. simpl in Hss, Hsf.
  split; [|split; [exact Hcounts|]].
  - eapply narrows_trans; [apply narrows_intro; eassumption|].
    eapply narrows_trans; [apply narrows_intro; eassumption|exact Hn].
  - intros d c Hd Hfd Hcd.
    apply list_elem_of_lookup in Hd as [i Hi].
    destruct (Forall2_lookup_r _ _ _ _ _ Hn Hi) as (ds & His & Hv & Hf & Hvalues).
    apply propagate_simple_constraints_success in Hs.
    destruct (Forall2_lookup_r _ _ _ _ _ Hs His) as (dw & Hiw & Hsimple).
    destruct (fixed dw) eqn:Hfw; [subst ds; congruence|].
    destruct Hsimple as (Hvs & _ & _ & _ & Hiff).
    rewrite Hv, Hvs. apply Hiff. now apply Hvalues.
Qed.

Lemma fixed_by_refl d : fixed_by [] d d.
Proof. unfold fixed_by. auto. Qed.

(** The loop of unit propagation, when it succeeds: what it has pushed and
    what it leaves. *)
Lemma propagate_units_solution rounds : forall (new_domains : Domains) assignments
    (st : State) new_domains' assignments' st',
  Forall count_matches new_domains ->
  propagate_units model params env rounds new_domains assignments st
  = Some (true, new_domains', assignments', st') ->
  exists pushed,
    assignments' = assignments ++ pushed
    /\ Forall is_propagated pushed
    /\ Forall2 (fixed_by pushed) new_domains new_domains'
    /\ (forall e, e ∈ pushed -> exists d, d ∈ new_domains /\ fixed d = false /\ entry_of d e)
    /\ later_agree model params pushed
    /\ respects model params pushed new_domains'
    /\ Forall count_matches new_domains'.
Proof.
  induction rounds as [|rounds IH]; intros ds a st ds' a' st' Hall H; simpl in H.
  - destruct (find_unit_domain ds) as [[i d]|]; [discriminate|].
    injection H as <- <- _. exists []. rewrite app_nil_r.
    split; [reflexivity|]. split; [constructor|]. split; [|split; [|split; [|split]]].
    + clear Hall. induction ds; constructor; auto using fixed_by_refl.
    + intros e He. now apply elem_of_nil in He.
    + intros i j e1 e2 Hi. now rewrite lookup_nil in Hi.
    + intros e d c He. now apply elem_of_nil in He.
    + exact Hall.
  - destruct (find_unit_domain ds) as [[i d]|] eqn:Hf.
    2:{ injection H as <- <- _. exists []. rewrite app_nil_r.
        split; [reflexivity|]. split; [constructor|]. split; [|split; [|split; [|split]]].
        + clear Hall Hf. induction ds; constructor; auto using fixed_by_refl.
        + intros e He. now apply elem_of_nil in He.
        + intros i j e1 e2 Hi. now rewrite lookup_nil in Hi.
        + intros e d c He. now apply elem_of_nil in He.
        + exact Hall. }
    apply list_find_Some in Hf as (Hi & Hunit & _).
    unfold is_unit_domain in Hunit. apply andb_true_iff in Hunit as [Hnf Hone].
    apply negb_true_iff in Hnf. apply N.eqb_eq in Hone.
    set (current := {| pattern_vertex := v d;
                       target_vertex :=
                         default SVOBitset.npos (SVOBitset.find_first (values d)) |}) in *.
    assert (entry_of d (propagated_entry current)) as Hentry.
    { split; [reflexivity|]. simpl. apply unit_domain_entry; [|exact Hone].
      eapply Forall_lookup_1 in Hall; eauto. }
    assert (Forall (fun d => fixed d = true -> count_matches d)
              (<[i := set_fixed true d]> ds)) as H0.
    { apply Forall_insert.
      - eapply Forall_impl; [exact Hall|]. auto.
      - intros _. eapply Forall_lookup_1 in Hall; [|exact Hi]. exact Hall. }
    destruct (propagate_watches _ _ _ _ _ _) as [watched st1] eqn:Hw.
    destruct (propagate_constraints _ _ _ _ _ _) as [[ok2 ds2] st2] eqn:Hc.
    destruct ok2; simpl in H; [|discriminate].
    destruct (propagate_round _ _ _ _ _ _ _ _ H0 Hw Hc) as (Hn & Hcounts & Hagree).
    destruct (IH _ _ _ _ _ _ Hcounts H)
      as (pushed & -> & Hprop & Hfixed & Horigin & Hlater & Hrespects & Hcounts').
    exists (propagated_entry current :: pushed). rewrite <- app_assoc.
    split; [reflexivity|]. split; [constructor; [repeat split|exact Hprop]|].
    (* the domains of the round, position by position *)
    assert (Forall2
              (fun d0 d1 =>
                 v d1 = v d0
                 /\ (forall c, test (values d1) c = true -> test (values d0) c = true)
                 /\ (fixed d0 = true -> fixed d1 = true)
                 /\ (fixed d1 = true ->
                     fixed d0 = true \/ entry_of d0 (propagated_entry current)))
              ds ds2) as Hround.
    { assert (Forall2
                (fun d0 da =>
                   v da = v d0 /\ values da = values d0
                   /\ (fixed d0 = true -> fixed da = true)
                   /\ (fixed da = true ->
                       fixed d0 = true \/ entry_of d0 (propagated_entry current)))
                ds (<[i := set_fixed true d]> ds)) as Hins.
      { eapply Forall2_insert_at; [exact Hi| |]; simpl; auto 6. }
      clear - Hins Hn. unfold narrows in Hn. revert ds2 Hn.
      induction Hins as [|d0 da ds dsa (Hv & Hvalues & Hf1 & Hf2) _ IH]; intros ds2 Hn.
      - inversion Hn. constructor.
      - inversion Hn as [|? d1 ? ds2' (Hv' & Hf' & Hvalues') Hrest]; subst.
        constructor; [|now apply IH].
        split; [congruence|]. split; [intros c Hc; rewrite <- Hvalues; auto|].
        split; [intros Hd0; rewrite Hf'; auto|]. intros Hd1. apply Hf2. congruence. }
    split; [|split; [|split; [|split]]].
    + (* fixed_by *)
      clear - Hround Hfixed. revert ds' Hfixed.
      induction Hround as [|d0 d1 ds ds2 (Hv & Hvalues & Hf1 & Hf2) _ IH]; intros ds' Hfixed.
      * inversion Hfixed. constructor.
      * inversion Hfixed as [|? d' ? ds'' (Hv' & Hvalues' & Hf1' & Hf2') Hrest]; subst.
        constructor; [|now apply IH].
        split; [congruence|]. split; [auto|]. split; [auto|].
        intros Hd'. destruct (Hf2' Hd') as [Hd1|(e & He & Hdec & Hpv & Htv)].
        -- destruct (Hf2 Hd1) as [Hd0|Hent]; [now left|].
           right. exists (propagated_entry current).
           split; [apply list_elem_of_here|]. split; [reflexivity|exact Hent].
        -- right. exists e. split; [now apply list_elem_of_further|].
           split; [exact Hdec|]. split; [congruence|auto].
    + (* where the entries come from *)
      intros e He. apply elem_of_cons in He as [->|He].
      * exists d. split; [eapply list_elem_of_lookup_2; exact Hi|]. auto.
      * destruct (Horigin e He) as (d1 & Hd1 & Hfd1 & Hpv & Htv).
        apply list_elem_of_lookup in Hd1 as [j Hj].
        destruct (Forall2_lookup_r _ _ _ _ _ Hround Hj) as (d0 & Hj0 & Hv & Hvalues & Hf1 & _).
        exists d0. split; [eapply list_elem_of_lookup_2; exact Hj0|].
        split; [destruct (fixed d0); [rewrite Hf1 in Hfd1; congruence|reflexivity]|].
        split; [congruence|auto].
    + (* later entries agree with earlier ones *)
      intros j k e1 e2 Hj Hk Hlt Hd1 Hd2.
      destruct k as [|k]; [lia|]. simpl in Hk.
      destruct j as [|j]; simpl in Hj.
      * injection Hj as <-.
        destruct (Horigin e2 (list_elem_of_lookup_2 _ _ _ Hk))
          as (d1 & Hin & Hfd1 & Hpv & Htv).
        rewrite Hpv. now apply Hagree.
      * eapply Hlater; eauto. lia.
    + (* the values that are left agree with every entry *)
      intros e d' c He Hdec Hd' Hfd' Hc'. apply elem_of_cons in He as [->|He].
      * apply list_elem_of_lookup in Hd' as [j Hj].
        destruct (Forall2_lookup_r _ _ _ _ _ Hfixed Hj) as (d1 & Hj1 & Hv & Hvalues & Hf1 & _).
        rewrite Hv. apply Hagree; [eapply list_elem_of_lookup_2; exact Hj1| |auto].
        destruct (fixed d1); [rewrite Hf1 in Hfd'; congruence|reflexivity].
      * eapply Hrespects; eauto.
    + exact Hcounts'.
Qed.

(** [propagate] in a call that does not propagate with the lackey. *)
Lemma propagate_solution (new_domains : Domains) assignments (st : State)
    new_domains' assignments' st' :
  Forall count_matches new_domains ->
  propagate model params env new_domains assignments false st
  = Some (true, new_domains', assignments', st') ->
  exists pushed,
    assignments' = assignments ++ pushed
    /\ Forall is_propagated pushed
    /\ Forall2 (fixed_by pushed) new_domains new_domains'
    /\ (forall e, e ∈ pushed -> exists d, d ∈ new_domains /\ fixed d = false /\ entry_of d e)
    /\ later_agree model params pushed
    /\ respects model params pushed new_domains'
    /\ Forall count_matches new_domains'.
Proof.
  unfold propagate. intros Hall H.
  destruct (propagate_units _ _ _ _ _ _ _) as [[[[ok1 ds1] a1] st1]|] eqn:Hu;
    [|discriminate].
  destruct ok1; [|discriminate].
  assert (new_domains' = ds1 /\ assignments' = a1) as [-> ->].
  { unfold propagate_lackey in H. destruct (lackey st1) as [l|]; [|split; congruence].
    simpl in H. destruct (send_partials_to_lackey params); [|split; congruence].
    destruct (check_solution _ _ _ _ _). split; congruence. }
  eapply propagate_units_solution; eauto.
Qed.

(** Lackey propagation is switched off. *)
Hypothesis no_lackey_propagation : propagate_using_lackey params = Never.

(** The ordering of the candidates hands back the candidates it was
    given. *)
Hypothesis ordering_permutes :
  forall branch_v rand ordered rand',
    order_values model (random env) (value_ordering_heuristic params) branch_v rand
    = Some (ordered, rand') ->
    ordered ≡ₚ branch_v.

Section Frame.

Variable restarting_search_ :
  HomomorphismAssignments -> Domains -> Z -> State ->
  option (SearchResult * HomomorphismAssignments * State).

Hypothesis recursive_call_keeps_trail : keeps_trail restarting_search_.

Hypothesis recursive_call_cause :
  forall assignments domains depth st result assignments' st',
    restarting_search_ assignments domains depth st = Some (result, assignments', st') ->
    answer_cause params env result.

Variable domains : Domains.
Variable branch_domain : HomomorphismDomain.
Variable branch_v_end : nat.
Variable depth : Z.

(** A loop over the candidates that answers [Satisfiable] has found a
    candidate whose propagation succeeded and below which the search
    answered [Satisfiable]. *)
Lemma try_values_satisfiable remaining : forall tried locals assignments (st : State)
    assignments' st',
  Locals.use_lackey_for_propagation locals = false ->
  try_values model params env restarting_search_ domains branch_domain branch_v_end depth
    tried remaining locals assignments st = Some (Satisfiable, assignments', st') ->
  exists f_v discrepancy_count_ new_domains assignments1 st0 st1 st2,
    f_v ∈ remaining
    /\ propagate model params env
         (copy_nonfixed_domains_and_make_assignment domains (v branch_domain) f_v)
         (assignments ++ [decision_entry branch_domain f_v discrepancy_count_ branch_v_end])
         false st0
       = Some (true, new_domains, assignments1, st1)
    /\ restarting_search_ assignments1 new_domains (int (depth + 1)) st2
       = Some (Satisfiable, assignments', st').
Proof.
  induction remaining as [|f_v rest IH]; intros tried locals a st a' st' Hlocals H;
    simpl in H.
  - exfalso. unfold out_of_values in H.
    destruct (should_restart _ _) as [[|] schedule]; [discriminate|].
    now destruct (Locals.use_lackey_for_propagation locals).
  - destruct (try_value _ _ _ _ _ _ _ _ _ _ _ _ _) as [[[round a1] st1]|] eqn:Ht;
      [|discriminate].
    destruct round as [r1|locals1].
    + injection H as -> -> ->. unfold try_value in Ht.
      destruct (decide_and_propagate _ _ _ _ _ _ _ _ _ _ _) as [[[[ok nd] a2] st2]|] eqn:Hp;
        [|discriminate].
      destruct ok; [|discriminate].
      destruct (restarting_search_ _ _ _ _) as [[[r a3] st3]|] eqn:Hr; [|discriminate].
      destruct r; simpl in Ht; try discriminate.
      * injection Ht as <- <-. unfold decide_and_propagate in Hp.
        rewrite Hlocals, no_lackey_propagation in Hp. simpl in Hp.
        eexists f_v, _, nd, a2, _, st2, _.
        split; [apply list_elem_of_here|]. split; [exact Hp|exact Hr].
      * destruct (post_nogoods_for_tried _ _ _ _ _ _). discriminate.
    + pose proof Ht as Htrail. apply try_value_trail in Htrail;
        [|exact recursive_call_keeps_trail]. subst a1.
      eapply try_value_cause in Ht; [|exact recursive_call_cause|].
      * assert (Locals.use_lackey_for_propagation locals1 = false) as Hlocals1.
        { destruct (Locals.use_lackey_for_propagation locals1); [|reflexivity].
          specialize (Ht eq_refl). rewrite no_lackey_propagation in Ht. discriminate. }
        destruct (IH _ _ _ _ _ _ Hlocals1 H)
          as (g & dc & nd & a2 & s0 & s1 & s2 & Hg & Hp & Hr).
        exists g, dc, nd, a2, s0, s1, s2. split; [now apply list_elem_of_further|auto].
      * intros Hl. congruence.
Qed.

End Frame.

Lemma NoDup_map_v_eq (domains : Domains) d e :
  NoDup (map v domains) -> d ∈ domains -> e ∈ domains -> v d = v e -> d = e.
Proof.
  intros Hnodup Hd He Hv.
  apply list_elem_of_lookup in Hd as [i Hi]. apply list_elem_of_lookup in He as [j Hj].
  assert (i = j) as ->; [|congruence].
  eapply NoDup_lookup; [exact Hnodup| |].
  - change (map v domains) with (v <$> domains). rewrite list_lookup_fmap, Hi. reflexivity.
  - change (map v domains) with (v <$> domains). rewrite list_lookup_fmap, Hj. simpl.
    now rewrite Hv.
Qed.

Lemma fixed_by_map_v pushed (new_domains new_domains' : Domains) :
  Forall2 (fixed_by pushed) new_domains new_domains' ->
  map v new_domains' = map v new_domains.
Proof. induction 1 as [|d d' ds ds' [Hv _] _ IH]; simpl; [reflexivity|]. now rewrite Hv, IH. Qed.

Lemma copy_nonfixed_map_v (domains : Domains) branch_v f_v :
  map v (copy_nonfixed_domains_and_make_assignment domains branch_v f_v)
  = map v (filter (fun d => fixed d = false) domains).
Proof.
  pose proof (copy_nonfixed_relates domains branch_v f_v) as H.
  induction H as [|d d' ds ds' [Hv _] _ IH]; simpl; [reflexivity|]. now rewrite Hv, IH.
Qed.

(** A search that answers [Satisfiable] has extended its trail so that
    every domain that was not fixed has an entry, with one of its values;
    every propagated entry it has pushed is such an entry, and the later
    ones agree with the earlier ones. *)
Lemma restarting_search_solution frames : forall assignments (domains : Domains) depth
    (st : State) assignments' st',
  NoDup (map v domains) -> Forall count_matches domains ->
  respects model params assignments domains ->
  restarting_search model params env frames assignments domains depth st
  = Some (Satisfiable, assignments', st') ->
  exists extra,
    assignments' = assignments ++ extra
    /\ (forall d, d ∈ domains -> fixed d = false ->
          exists e, e ∈ extra /\ is_decision e = false /\ entry_of d e)
    /\ (forall e, e ∈ extra -> is_decision e = false ->
          exists d, d ∈ domains /\ fixed d = false /\ entry_of d e)
    /\ later_agree model params extra.
Proof.
  induction frames as [|frames IH]; intros a ds depth st a' st' Hnodup Hcounts Hresp H;
    simpl in H; [discriminate|].
  destruct (should_abort env (timeout st)) as [abort t]. destruct abort; [discriminate|].
  pose proof (find_branch_domain_from_scanned model ds [] None (Forall_nil_2 _)) as Hscan.
  simpl in Hscan. fold (find_branch_domain model ds) in Hscan.
  destruct (find_branch_domain model ds) as [[i bd]|] eqn:Hb.
  - (* a branch *)
    destruct Hscan as (Hi & Hfbd & _).
    assert (bd ∈ ds) as Hbd by (eapply list_elem_of_lookup_2; exact Hi).
    destruct (order_values _ _ _ _ _) as [[branch_v rand]|] eqn:Ho; [|discriminate].
    apply ordering_permutes in Ho.
    eapply try_values_satisfiable in H; cycle 1.
    + apply restarting_search_keeps_trail.
    + intros a0 ds0 depth0 st0 r0 a0' st0' H0.
      now apply (restarting_search_cause model params env) in H0.
    + reflexivity.
    + destruct H as (f_v & dc & nd & a1 & s0 & s1 & s2 & Hf_v & Hp & Hr).
      assert (test (values bd) f_v = true) as Hvalue
        by (apply remaining_values_elem; now rewrite <- Ho).
      set (copied := copy_nonfixed_domains_and_make_assignment ds (v bd) f_v) in *.
      (* the copy, domain by domain *)
      assert (Forall2
                (fun d d0 =>
                   v d0 = v d /\ fixed d0 = false
                   /\ forall c, test (values d0) c = true -> test (values d) c = true)
                (filter (fun d => fixed d = false) ds) copied) as Hcopy.
      { pose proof (copy_nonfixed_relates ds (v bd) f_v) as Hrel. fold copied in Hrel.
        assert (Forall (fun d => d ∈ ds) (filter (fun d => fixed d = false) ds)) as Hin
          by (apply Forall_forall; intros d Hd; now apply list_elem_of_filter in Hd).
        clear - Hrel Hin Hnodup Hbd Hvalue.
        induction Hrel as [|d d0 l k (Hv & Hf & Hc) _ IH]; [constructor|].
        apply Forall_cons in Hin as [Hd Hin]. constructor; [|now apply IH].
        split; [exact Hv|]. split; [exact Hf|]. intros c Hc0.
        destruct (N.eqb_spec (v d) (v bd)) as [E|_]; [|now subst d0].
        destruct Hc as [_ Hc]. rewrite Hc in Hc0. apply N.eqb_eq in Hc0. subst c.
        now rewrite (NoDup_map_v_eq ds d bd Hnodup Hd Hbd E). }
      destruct (propagate_solution _ _ _ _ _ _ (copy_nonfixed_counts ds (v bd) f_v Hcounts) Hp)
        as (pushed & -> & Hprop & Hfixed & Horigin & Hlater & Hrespects & Hcounts').
      (* the call below *)
      assert (NoDup (map v nd)) as Hnodup'.
      { rewrite (fixed_by_map_v _ _ _ Hfixed). unfold copied. rewrite copy_nonfixed_map_v.
        eapply sublist_NoDup; [exact Hnodup|].
        change (map v) with (fmap (M := list) v). apply fmap_sublist, sublist_filter. }
      assert (respects model params
                ((a ++ [decision_entry bd f_v dc (length branch_v)]) ++ pushed) nd) as Hresp'.
      { intros e d' c He Hdec Hd' Hfd' Hc'.
        apply elem_of_app in He as [He|He]; [|eapply Hrespects; eauto].
        apply elem_of_app in He as [He|He];
          [|apply list_elem_of_singleton in He; subst e; discriminate].
        apply list_elem_of_lookup in Hd' as [j Hj].
        destruct (Forall2_lookup_r _ _ _ _ _ Hfixed Hj) as (d0 & Hj0 & Hv0 & Hvalues0 & _).
        destruct (Forall2_lookup_r _ _ _ _ _ Hcopy Hj0) as (d & Hjd & Hv & _ & Hvalues).
        apply list_elem_of_lookup_2, list_elem_of_filter in Hjd as [Hfd Hd].
        rewrite Hv0, Hv. eapply Hresp; eauto. }
      destruct (IH _ _ _ _ _ _ Hnodup' Hcounts' Hresp' Hr)
        as (extra & -> & Hall & Hfrom & Hlater').
      exists (decision_entry bd f_v dc (length branch_v) :: pushed ++ extra).
      split; [now rewrite <- !app_assoc|].
      assert (forall e d', e ∈ extra -> is_decision e = false -> d' ∈ nd ->
                fixed d' = false -> entry_of d' e ->
                exists d, d ∈ ds /\ fixed d = false /\ entry_of d e) as Hup.
      { intros e d' He Hdec Hd' Hfd' [Hpv Htv].
        apply list_elem_of_lookup in Hd' as [j Hj].
        destruct (Forall2_lookup_r _ _ _ _ _ Hfixed Hj) as (d0 & Hj0 & Hv0 & Hvalues0 & _).
        destruct (Forall2_lookup_r _ _ _ _ _ Hcopy Hj0) as (d & Hjd & Hv & _ & Hvalues).
        apply list_elem_of_lookup_2, list_elem_of_filter in Hjd as [Hfd Hd].
        exists d. split; [exact Hd|]. split; [exact Hfd|]. split; [congruence|auto]. }
      assert (forall e, e ∈ pushed ->
                exists d, d ∈ ds /\ fixed d = false /\ entry_of d e) as Horigin'.
      { intros e He. destruct (Horigin e He) as (d0 & Hd0 & _ & Hpv & Htv).
        apply list_elem_of_lookup in Hd0 as [j Hj0].
        destruct (Forall2_lookup_r _ _ _ _ _ Hcopy Hj0) as (d & Hjd & Hv & _ & Hvalues).
        apply list_elem_of_lookup_2, list_elem_of_filter in Hjd as [Hfd Hd].
        exists d. split; [exact Hd|]. split; [exact Hfd|]. split; [congruence|auto]. }
      split; [|split].
      * (* every domain that was not fixed has its entry *)
        intros d Hd Hfd.
        assert (d ∈ filter (fun d => fixed d = false) ds) as Hdf
          by now apply list_elem_of_filter.
        apply list_elem_of_lookup in Hdf as [j Hj].
        destruct (Forall2_lookup_l _ _ _ _ _ Hcopy Hj) as (d0 & Hj0 & Hv & Hf0 & Hvalues).
        destruct (Forall2_lookup_l _ _ _ _ _ Hfixed Hj0)
          as (d' & Hj' & Hv' & Hvalues' & _ & Hwhy).
        destruct (fixed d') eqn:Hfd'.
        -- destruct (Hwhy eq_refl) as [Hcontra|(e & He & Hdec & Hpv & Htv)]; [congruence|].
           exists e. split; [apply list_elem_of_further, elem_of_app; now left|].
           split; [exact Hdec|]. split; [congruence|auto].
        -- destruct (Hall d' (list_elem_of_lookup_2 _ _ _ Hj') Hfd')
             as (e & He & Hdec & Hpv & Htv).
           exists e. split; [apply list_elem_of_further, elem_of_app; now right|].
           split; [exact Hdec|]. split; [congruence|auto].
      * (* every propagated entry is the entry of a domain *)
        intros e He Hdec. apply elem_of_cons in He as [->|He]; [discriminate|].
        apply elem_of_app in He as [He|He]; [now apply Horigin'|].
        destruct (Hfrom e He Hdec) as (d' & Hd' & Hfd' & Hent). eapply Hup; eauto.
      * (* later entries agree with earlier ones *)
        intros j k e1 e2 Hj Hk Hlt Hd1 Hd2.
        destruct k as [|k]; [lia|]. simpl in Hk.
        destruct j as [|j]; simpl in Hj; [injection Hj as <-; discriminate|].
        apply lookup_app_Some in Hk as [Hk|[Hlen Hk]].
        -- apply lookup_app_Some in Hj as [Hj|[Hlen' _]].
           ++ eapply Hlater; eauto. lia.
           ++ apply lookup_lt_Some in Hk. lia.
        -- apply lookup_app_Some in Hj as [Hj|[Hlen' Hj]].
           ++ destruct (Hfrom e2 (list_elem_of_lookup_2 _ _ _ Hk) Hd2)
                as (d' & Hd' & Hfd' & Hpv & Htv).
              rewrite Hpv. eapply Hrespects; eauto.
              eapply list_elem_of_lookup_2; exact Hj.
           ++ eapply Hlater'; eauto. lia.
  - (* all domains are fixed *)
    destruct (solution_found _ _ _ _ _) as [r1 st1].
    injection H as -> <- <-. exists []. rewrite app_nil_r.
    split; [reflexivity|]. split; [|split].
    + intros d Hd Hfd. simpl in Hscan. rewrite Forall_forall in Hscan.
      rewrite (Hscan d Hd) in Hfd.
      discriminate.
    + intros e He. now apply elem_of_nil in He.
    + intros j k e1 e2 Hj. now rewrite lookup_nil in Hj.
Qed.

(** X18: the trail of a solution.  When a search without lackey
    propagation, started on an empty trail with domains of distinct pattern
    vertices whose counts are in step, answers [Satisfiable], then the
    trail it hands back assigns to every pattern vertex whose domain was
    not fixed one of the values of that domain, every propagated entry on
    it is such an assignment, and among these every later one agrees with
    every earlier one: under the injectivity asked for, and on adjacency
    and edge labels.  The ordering of the candidates is taken to hand back
    the candidates it was given, and the all-different propagator only to
    take values away. *)
Theorem satisfiable_trail_is_consistent frames (domains : Domains) depth (st : State)
    assignments' st' :
  NoDup (map v domains) -> Forall count_matches domains ->
  restarting_search model params env frames [] domains depth st
  = Some (Satisfiable, assignments', st') ->
  (forall d, d ∈ domains -> fixed d = false ->
     exists e, e ∈ assignments' /\ is_decision e = false /\ entry_of d e)
  /\ (forall e, e ∈ assignments' -> is_decision e = false ->
        exists d, d ∈ domains /\ fixed d = false /\ entry_of d e)
  /\ later_agree model params assignments'.
Proof.
  intros Hnodup Hcounts H.
  apply restarting_search_solution in H as (extra & -> & H); auto.
  intros e d c He. now apply elem_of_nil in He.
Qed.

End SolutionTrail.

(** ** The line of statistics of a saved result *)

Lemma string_app_cons c (s1 s2 : string) : String c s1 +:+ s2 = String c (s1 +:+ s2).
Proof. reflexivity. Qed.

Lemma string_app_nil_l (s : string) : EmptyString +:+ s = s.
Proof. reflexivity. Qed.

Lemma string_app_assoc (s1 s2 s3 : string) : (s1 +:+ s2) +:+ s3 = s1 +:+ (s2 +:+ s3).
Proof.
  induction s1 as [|c s1 IH]; [reflexivity|]. now rewrite !string_app_cons, IH.
Qed.

Lemma string_app_nil_r (s : string) : s +:+ EmptyString = s.
Proof. induction s as [|c s IH]; [reflexivity|]. now rewrite string_app_cons, IH. Qed.

Lemma all_chars_app P (s1 s2 : string) :
  all_chars P s1 -> all_chars P s2 -> all_chars P (s1 +:+ s2).
Proof.
  induction s1 as [|c s1 IH]; [now rewrite string_app_nil_l|].
  rewrite string_app_cons. simpl. tauto.
Qed.

Lemma pretty_N_char_numeral x : numeral_char (pretty_N_char x).
Proof. unfold pretty_N_char. repeat case_match; split; discriminate. Qed.

Lemma pretty_N_go_numeral x : forall s,
  all_chars numeral_char s -> all_chars numeral_char (pretty_N_go x s).
Proof.
  induction (N.lt_wf_0 x) as [x _ IH]. intros s Hs.
  destruct (N.eq_dec x 0) as [->|Hx]; [now rewrite pretty_N_go_0|].
  rewrite pretty_N_go_step by lia. apply IH.
  - apply N.div_lt; lia.
  - split; [apply pretty_N_char_numeral|exact Hs].
Qed.

Lemma pretty_N_numeral (x : N) : all_chars numeral_char (pretty x).
Proof.
  unfold pretty, pretty_N. destruct (decide (x = 0)).
  - repeat split; discriminate.
  - now apply pretty_N_go_numeral.
Qed.

(** A rendered number holds neither a space nor a slash. *)

Lemma to_string_numeral z : all_chars numeral_char (to_string z).
Proof.
  unfold to_string, pretty, pretty_Z. destruct z as [|p|p].
  - repeat split; discriminate.
  - apply (pretty_N_numeral (N.pos p)).
  - split; [split; discriminate|]. apply (pretty_N_numeral (N.pos p)).
Qed.

(** Two strings without [c], each followed by the end or by [c], are told
    apart by what they are followed by. *)

Lemma split_at_stop c (s1 : string) : forall (s2 r1 r2 : string),
  all_chars (fun x => x <> c) s1 -> all_chars (fun x => x <> c) s2 ->
  stops_at c r1 -> stops_at c r2 ->
  s1 +:+ r1 = s2 +:+ r2 -> s1 = s2 /\ r1 = r2.
Proof.
  induction s1 as [|a s1 IH]; intros s2 r1 r2 H1 H2 Hr1 Hr2 Heq.
  - rewrite string_app_nil_l in Heq.
    destruct s2 as [|b s2]; [now split|]. exfalso.
    rewrite string_app_cons in Heq. simpl in H2.
    destruct Hr1 as [->|[rest ->]]; [discriminate|].
    injection Heq as <- _. now destruct H2.
  - rewrite string_app_cons in Heq. destruct s2 as [|b s2].
    + exfalso. rewrite string_app_nil_l in Heq. simpl in H1.
      destruct Hr2 as [->|[rest ->]]; [discriminate|].
      injection Heq as -> _. now destruct H1.
    + rewrite string_app_cons in Heq. simpl in H1, H2. injection Heq as -> Heq.
      destruct (IH s2 r1 r2) as [-> ->]; tauto.
Qed.

Lemma all_chars_impl (P Q : ascii -> Prop) (s : string) :
  (forall c, P c -> Q c) -> all_chars P s -> all_chars Q s.
Proof. intros HPQ. induction s as [|c s IH]; simpl; [tauto|]. intros [? ?]. auto. Qed.

Lemma where_line_pieces assignments :
  where_line assignments = "where =" +:+ where_pieces assignments.
Proof.
  unfold where_line. generalize "where =" as start.
  induction assignments as [|a rest IH]; intros start; simpl.
  - now rewrite string_app_nil_r.
  - rewrite IH. fold (where_piece a). apply string_app_assoc.
Qed.

Lemma where_pieces_stop assignments : stops_at " " (where_pieces assignments).
Proof. destruct assignments as [|a rest]; [now left|right]. simpl. eauto. Qed.

(** The pieces of two trails are the same string only when the trails have
    the same counts. *)

Lemma where_pieces_inj (a1 : HomomorphismAssignments) : forall a2,
  where_pieces a1 = where_pieces a2 ->
  map (fun a => (discrepancy_count a, choice_count a)) a1
  = map (fun a => (discrepancy_count a, choice_count a)) a2.
Proof.
  induction a1 as [|e1 a1 IH]; intros [|e2 a2] Heq; [reflexivity|discriminate..|].
  cbn [where_pieces foldr] in Heq. fold (where_pieces a1) (where_pieces a2) in Heq.
  unfold where_piece in Heq.
  rewrite !string_app_assoc, !string_app_cons, !string_app_nil_l in Heq.
  injection Heq as Heq.
  destruct (split_at_stop "/" (to_string (discrepancy_count e1))
              (to_string (discrepancy_count e2)) _ _
              (all_chars_impl _ _ _ (fun c H => proj2 H) (to_string_numeral _))
              (all_chars_impl _ _ _ (fun c H => proj2 H) (to_string_numeral _))
              (or_intror (ex_intro _ _ eq_refl)) (or_intror (ex_intro _ _ eq_refl)) Heq)
    as [Hd Hrest].
  injection Hrest as Hrest.
  destruct (split_at_stop " " (to_string (choice_count e1)) (to_string (choice_count e2))
              _ _
              (all_chars_impl _ _ _ (fun c H => proj1 H) (to_string_numeral _))
              (all_chars_impl _ _ _ (fun c H => proj1 H) (to_string_numeral _))
              (where_pieces_stop a1) (where_pieces_stop a2) Hrest)
    as [Hc Hpieces].
  simpl. rewrite (IH a2 Hpieces). f_equal. f_equal.
  - exact (inj pretty _ _ Hd).
  - exact (inj pretty _ _ Hc).
Qed.

(** X19: [save_result] never overwrites an entry of the mapping or a line
    of statistics that the result holds already: it expands the mapping
    from the trail and adds one line.  That line tells the counts of the
    trail: two saved results whose last lines are the same come from trails
    with the same discrepancy and choice counts, entry by entry. *)
Theorem save_result_line_tells_the_counts a1 a2 (r1 r2 : HomomorphismResult) :
  (forall key t,
     mapping r1 !! key = Some t -> mapping (save_result a1 r1) !! key = Some t)
  /\ (exists line, extra_stats (save_result a1 r1) = extra_stats r1 ++ [line])
  /\ (last (extra_stats (save_result a1 r1)) = last (extra_stats (save_result a2 r2)) ->
      map (fun a => (discrepancy_count a, choice_count a)) a1
      = map (fun a => (discrepancy_count a, choice_count a)) a2).
Proof.
  split; [|split].
  - intros key t Ht. unfold save_result. cbn [mapping].
    now rewrite expand_to_full_result_first, Ht.
  - now exists (where_line a1).
  - unfold save_result. cbn [extra_stats]. rewrite !last_snoc, !where_line_pieces.
    intros Heq. injection Heq as Heq. apply where_pieces_inj. exact Heq.
Qed.

(** ** The entries that propagation pushes *)

Lemma same_flags_lookup (domains domains' : Domains) j d :
  map fixed domains = map fixed domains' ->
  domains !! j = Some d ->
  exists d', domains' !! j = Some d' /\ fixed d' = fixed d.
Proof.
  intros H Hj.
  assert (map fixed domains' !! j = Some (fixed d)) as Hj'.
  { rewrite <- H. change (map fixed) with (fmap (M := list) fixed).
    now rewrite list_lookup_fmap, Hj. }
  change (map fixed) with (fmap (M := list) fixed) in Hj'.
  rewrite list_lookup_fmap in Hj'.
  destruct (domains' !! j) as [d'|]; [|discriminate].
  exists d'. split; [reflexivity|]. now injection Hj' as ->.
Qed.

Lemma shrinks_lookup (domains domains' : Domains) j d' :
  shrinks domains domains' ->
  domains' !! j = Some d' ->
  exists d,
    domains !! j = Some d /\ v d' = v d
    /\ forall c, SVOBitset.test (values d') c = true -> SVOBitset.test (values d) c = true.
Proof.
  intros H Hj. destruct (Forall2_lookup_r _ _ _ _ _ H Hj) as (d & Hd & Hv & Hvalues).
  exists d. auto.
Qed.

(** The entry pushed for a unit domain assigns its pattern vertex its first
    value. *)
Lemma first_value_entry d :
  SVOBitset.test (values d)
    (default SVOBitset.npos (SVOBitset.find_first (values d))) = true
  \/ default SVOBitset.npos (SVOBitset.find_first (values d)) = SVOBitset.npos.
Proof.
  destruct (SVOBitset.find_first (values d)) as [t|] eqn:Hf; [left|right; reflexivity].
  now apply SVOBitsetFacts.find_first_Some in Hf as [Hf _].
Qed.

Lemma committed_first (new_domains new_domains' : Domains) i d d' :
  new_domains !! i = Some d -> new_domains' !! i = Some d' ->
  fixed d = false -> fixed d' = true ->
  committed new_domains new_domains'
    (propagated_entry
       {| pattern_vertex := v d;
          target_vertex := default SVOBitset.npos (SVOBitset.find_first (values d)) |})
    i.
Proof.
  intros Hi Hi' Hd Hd'. exists d, d'.
  split; [exact Hi|]. split; [exact Hi'|]. split; [exact Hd|]. split; [exact Hd'|].
  split; [repeat split|]. split; [reflexivity|]. apply first_value_entry.
Qed.

Section CommitFacts.

Context {TimeoutT RestartsT LackeyT WatchesT ProofT RandT : Type}.

Local Abbreviation State := (SearchState TimeoutT RestartsT LackeyT WatchesT ProofT RandT).

Variable model : HomomorphismModel.
Variable params : HomomorphismParams.
Variable env : Collaborators TimeoutT RestartsT LackeyT WatchesT ProofT RandT.

(** The all-different propagator takes values away; it changes neither
    which domains are fixed nor their pattern vertices. *)
Hypothesis cheap_all_different_flags : forall n (new_domains : Domains) p,
  map fixed (cheap_all_different env n new_domains p).1.2 = map fixed new_domains.

Hypothesis cheap_all_different_shrinks : forall n (new_domains : Domains) p,
  shrinks new_domains (cheap_all_different env n new_domains p).1.2.

(** One round of the loop fixes the unit domain and leaves the flags of the
    other domains alone; the filters that follow take values away. *)
Lemma commit_round (new_domains : Domains) i d assignments (st : State) :
  new_domains !! i = Some d -> fixed d = false ->
  let current_assignment :=
    {| pattern_vertex := v d;
       target_vertex := default SVOBitset.npos (SVOBitset.find_first (values d)) |} in
  let watched :=
    propagate_watches params env current_assignment
      (<[i := set_fixed true d]> new_domains) assignments st in
  let filtered :=
    (propagate_constraints model params env current_assignment watched.1 watched.2).1.2 in
  length filtered = length new_domains
  /\ fixed_count filtered = S (fixed_count new_domains)
  /\ (exists d3, filtered !! i = Some d3 /\ fixed d3 = true)
  /\ (forall j y, filtered !! j = Some y -> fixed y = false ->
        exists x,
          new_domains !! j = Some x /\ fixed x = false /\ v y = v x
          /\ forall c,
               SVOBitset.test (values y) c = true -> SVOBitset.test (values x) c = true)
  /\ (forall j x, new_domains !! j = Some x ->
        exists y, filtered !! j = Some y /\ (j <> i -> fixed y = fixed x)
                  /\ (fixed x = true -> fixed y = true)).
Proof.
  intros Hi Hd c watched filtered.
  assert (map fixed filtered = map fixed (<[i := set_fixed true d]> new_domains)) as Hflags.
  { unfold filtered, watched.
    rewrite (propagate_constraints_flags model params env cheap_all_different_flags).
    apply propagate_watches_flags. }
  assert (shrinks (<[i := set_fixed true d]> new_domains) filtered) as Hshrinks.
  { unfold filtered, watched. eapply shrinks_trans.
    - apply (propagate_watches_shrinks params env c
               (<[i := set_fixed true d]> new_domains) assignments st).
    - now apply propagate_constraints_shrinks. }
  assert (length filtered = length new_domains) as Hlen.
  { rewrite <- (length_map fixed filtered), Hflags, length_map. apply length_insert. }
  split; [exact Hlen|]. split; [|split; [|split]].
  - rewrite (fixed_count_same_flags _ _ Hflags). now apply fixed_count_insert.
  - destruct (same_flags_lookup (<[i := set_fixed true d]> new_domains) filtered i
                (set_fixed true d) (eq_sym Hflags)) as (d3 & Hd3 & Hf3).
    { apply list_lookup_insert_eq. now apply lookup_lt_Some in Hi. }
    exists d3. split; [exact Hd3|]. now rewrite Hf3.
  - intros j y Hy Hfy.
    destruct (same_flags_lookup _ _ j y Hflags Hy) as (x1 & Hx1 & Hfx1).
    destruct (shrinks_lookup _ _ j y Hshrinks Hy) as (x1' & Hx1' & Hv & Hvalues).
    rewrite Hx1 in Hx1'. injection Hx1' as <-.
    destruct (decide (j = i)) as [->|Hne].
    + rewrite list_lookup_insert_eq in Hx1 by now apply lookup_lt_Some in Hi.
      injection Hx1 as <-. simpl in Hfx1. congruence.
    + rewrite list_lookup_insert_ne in Hx1 by congruence.
      exists x1. split; [exact Hx1|]. split; [congruence|]. split; [exact Hv|exact Hvalues].
  - intros j x Hx.
    destruct (decide (j = i)) as [->|Hne].
    + rewrite Hi in Hx. injection Hx as <-.
      destruct (same_flags_lookup (<[i := set_fixed true d]> new_domains) filtered i
                  (set_fixed true d) (eq_sym Hflags)) as (d3 & Hd3 & Hf3).
      { apply list_lookup_insert_eq. now apply lookup_lt_Some in Hi. }
      exists d3. split; [exact Hd3|]. split; [congruence|]. intros _. now rewrite Hf3.
    + destruct (same_flags_lookup (<[i := set_fixed true d]> new_domains) filtered j x
                  (eq_sym Hflags)) as (y & Hy & Hfy).
      { rewrite list_lookup_insert_ne by congruence. exact Hx. }
      exists y. split; [exact Hy|]. split; [intros _; exact Hfy|]. intros Hfx. congruence.
Qed.

(** What the unit-propagation loop pushes: one entry for each domain it
    fixes, in the order in which it fixes them. *)
Lemma propagate_units_commits rounds : forall (new_domains : Domains) assignments
    (st : State),
  (length new_domains - fixed_count new_domains <= rounds)%nat ->
  exists ok new_domains' pushed st' positions,
    propagate_units model params env rounds new_domains assignments st
    = Some (ok, new_domains', assignments ++ pushed, st')
    /\ Forall2 (committed new_domains new_domains') pushed positions
    /\ NoDup positions
    /\ (forall j d d',
          new_domains !! j = Some d -> new_domains' !! j = Some d' ->
          fixed d = false -> fixed d' = true -> j ∈ positions)
    /\ (forall j d,
          new_domains !! j = Some d -> fixed d = true ->
          exists d', new_domains' !! j = Some d' /\ fixed d' = true)
    /\ length new_domains' = length new_domains
    /\ (forall i d,
          find_unit_domain new_domains = Some (i, d) ->
          exists rest,
            pushed
            = propagated_entry
                {| pattern_vertex := v d;
                   target_vertex :=
                     default SVOBitset.npos (SVOBitset.find_first (values d)) |}
              :: rest)
    /\ (find_unit_domain new_domains = None -> pushed = []).
Proof.
  assert (forall (ds : Domains) a (st : State),
            exists ok ds' pushed st' positions,
              Some (true, ds, a, st) = Some (ok, ds', a ++ pushed, st')
              /\ Forall2 (committed ds ds') pushed positions
              /\ NoDup positions
              /\ (forall j d d',
                    ds !! j = Some d -> ds' !! j = Some d' ->
                    fixed d = false -> fixed d' = true -> j ∈ positions)
              /\ (forall j d,
                    ds !! j = Some d -> fixed d = true ->
                    exists d', ds' !! j = Some d' /\ fixed d' = true)
              /\ length ds' = length ds
              /\ pushed = []) as Hdone.
  { intros ds a st. exists true, ds, [], st, []. rewrite app_nil_r.
    split; [reflexivity|]. split; [constructor|]. split; [constructor|].
    split; [intros j d d' Hj Hj'; congruence|]. split; [eauto|]. split; reflexivity. }
  induction rounds as [|rounds IH]; intros ds a st Hle; simpl.
  - destruct (find_unit_domain ds) as [[i d]|] eqn:Hf.
    + apply find_unit_domain_Some in Hf as [Hi Hd].
      pose proof (fixed_count_lt _ _ _ Hi Hd). lia.
    + destruct (Hdone ds a st)
        as (ok & ds' & pushed & st' & positions & H & H1 & H2 & H3 & H4 & H5 & ->).
      exists ok, ds', [], st', positions.
      repeat (split; [assumption|]). split; [discriminate|reflexivity].
  - destruct (find_unit_domain ds) as [[i d]|] eqn:Hf.
    + apply find_unit_domain_Some in Hf as [Hi Hd].
      destruct (commit_round ds i d
                  (a ++ [propagated_entry
                           {| pattern_vertex := v d;
                              target_vertex :=
                                default SVOBitset.npos
                                  (SVOBitset.find_first (values d)) |}])
                  (proof_log env
                     (unit_propagating (pattern_vertex_for_proof model (v d))
                        (target_vertex_for_proof model
                           (default SVOBitset.npos (SVOBitset.find_first (values d)))))
                     st) Hi Hd)
        as (Hlen & Hcount & (d3 & Hd3 & Hfd3) & Hback & Hforth).
      cbn [pattern_vertex target_vertex] in *.
      destruct (propagate_watches _ _ _ _ _ _) as [ds2 st2]. cbn [fst snd] in *.
      destruct (propagate_constraints _ _ _ _ _ _) as [[ok3 ds3] st3]. cbn [fst snd] in *.
      destruct ok3; cbn [negb].
      * destruct (IH ds3
                    (a ++ [propagated_entry
                             {| pattern_vertex := v d;
                                target_vertex :=
                                  default SVOBitset.npos
                                    (SVOBitset.find_first (values d)) |}]) st3)
          as (ok & ds' & pushed & st' & positions & Hrun & Hall & Hnodup & Hcomplete
              & Hmono & Hlen' & _ & _); [lia|].
        rewrite Hrun, <- app_assoc. cbn [app].
        destruct (Hmono i d3 Hd3 Hfd3) as (d' & Hd' & Hfd').
        eexists ok, ds', (_ :: pushed), st', (i :: positions).
        split; [reflexivity|]. split; [|split; [|split; [|split; [|split; [|split]]]]].
        -- constructor.
           ++ now apply (committed_first ds ds' i d d').
           ++ eapply Forall2_impl; [exact Hall|].
              intros e j (y & y' & Hy & Hy' & Hfy & Hfy' & He & Hv & Ht).
              destruct (Hback j y Hy Hfy) as (x & Hx & Hfx & Hvx & Hvalues).
              exists x, y'. split; [exact Hx|]. split; [exact Hy'|].
              split; [exact Hfx|]. split; [exact Hfy'|]. split; [exact He|].
              split; [congruence|].
              destruct Ht as [Ht|Ht]; [left; now apply Hvalues|right; exact Ht].
        -- apply NoDup_cons. split; [|exact Hnodup].
           intros Hin. apply list_elem_of_lookup in Hin as [n Hn].
           destruct (Forall2_lookup_r _ _ _ _ _ Hall Hn)
             as (e & _ & y & y' & Hy & _ & Hfy & _).
           congruence.
        -- intros j x x' Hx Hx' Hfx Hfx'.
           destruct (decide (j = i)) as [->|Hne]; [apply list_elem_of_here|].
           apply list_elem_of_further.
           destruct (Hforth j x Hx) as (y & Hy & Hsame & _).
           apply (Hcomplete j y x' Hy Hx'); [|exact Hfx'].
           rewrite (Hsame Hne). exact Hfx.
        -- intros j x Hx Hfx.
           destruct (Hforth j x Hx) as (y & Hy & _ & Hfy).
           apply (Hmono j y Hy (Hfy Hfx)).
        -- lia.
        -- intros i0 d0 [= <- <-]. eexists. reflexivity.
        -- discriminate.
      * eexists false, ds3, [_], st3, [i].
        split; [reflexivity|]. split; [|split; [|split; [|split; [|split; [|split]]]]].
        -- constructor; [|constructor].
           now apply (committed_first ds ds3 i d d3).
        -- apply NoDup_singleton.
        -- intros j x x' Hx Hx' Hfx Hfx'.
           destruct (decide (j = i)) as [->|Hne]; [apply list_elem_of_here|].
           destruct (Hforth j x Hx) as (y & Hy & Hsame & _).
           rewrite Hx' in Hy. injection Hy as <-. rewrite (Hsame Hne) in Hfx'. congruence.
        -- intros j x Hx Hfx.
           destruct (Hforth j x Hx) as (y & Hy & _ & Hfy). eauto.
        -- exact Hlen.
        -- intros i0 d0 [= <- <-]. eexists. reflexivity.
        -- discriminate.
    + destruct (Hdone ds a st)
        as (ok & ds' & pushed & st' & positions & H & H1 & H2 & H3 & H4 & H5 & ->).
      exists ok, ds', [], st', positions.
      repeat (split; [assumption|]). split; [discriminate|reflexivity].
Qed.

(** The same for [propagate]: the lackey pushes nothing and fixes
    nothing. *)
Lemma propagate_commits (new_domains : Domains) assignments propagate_using_lackey_
    (st : State) :
  exists ok new_domains' pushed st' positions,
    propagate model params env new_domains assignments propagate_using_lackey_ st
    = Some (ok, new_domains', assignments ++ pushed, st')
    /\ Forall2 (committed new_domains new_domains') pushed positions
    /\ NoDup positions
    /\ (forall j d d',
          new_domains !! j = Some d -> new_domains' !! j = Some d' ->
          fixed d = false -> fixed d' = true -> j ∈ positions)
    /\ (forall i d,
          find_unit_domain new_domains = Some (i, d) ->
          exists rest,
            pushed
            = propagated_entry
                {| pattern_vertex := v d;
                   target_vertex :=
                     default SVOBitset.npos (SVOBitset.find_first (values d)) |}
              :: rest)
    /\ (find_unit_domain new_domains = None -> pushed = []).
Proof.
  unfold propagate.
  destruct (propagate_units_commits (length new_domains) new_domains assignments st)
    as (ok & ds1 & pushed & st1 & positions & -> & Hall & Hnodup & Hcomplete & _ & _
        & Hfirst & Hnone); [lia|].
  destruct ok.
  - pose proof (propagate_lackey_flags params env ds1 (assignments ++ pushed)
                  propagate_using_lackey_ st1) as Hl.
    destruct (propagate_lackey _ _ _ _ _ _) as [[ok2 ds2] st2]. simpl in Hl.
    exists ok2, ds2, pushed, st2, positions. split; [reflexivity|].
    split; [|split; [exact Hnodup|split; [|split; [exact Hfirst|exact Hnone]]]].
    + eapply Forall2_impl; [exact Hall|].
      intros e j (x & y & Hx & Hy & Hfx & Hfy & He).
      destruct (same_flags_lookup ds1 ds2 j y (eq_sym Hl) Hy) as (y2 & Hy2 & Hfy2).
      exists x, y2. split; [exact Hx|]. split; [exact Hy2|]. split; [exact Hfx|].
      split; [congruence|]. exact He.
    + intros j x y2 Hx Hy2 Hfx Hfy2.
      destruct (same_flags_lookup ds2 ds1 j y2 Hl Hy2) as (y & Hy & Hfy).
      apply (Hcomplete j x y Hx Hy Hfx). congruence.
  - exists false, ds1, pushed, st1, positions. auto 10.
Qed.

(** C9: [propagate] answers, and whether it answers true or false, the
    trail it leaves is the trail it was given followed by the entries it
    pushed, none removed.  It pushes one entry for each unit assignment it
    commits: the entries correspond one to one to the domains it marked as
    fixed, each is a non-decision with both counts -1 that assigns the
    pattern vertex of its domain a value of that domain, and when there is
    a unit domain to start from, its entry is the first one pushed, also
    when the propagation then fails.  When the propagation of a candidate
    fails, the trail that [propagate] leaves holds the decision and at
    least one entry of unit propagation after it; it is the round of
    [restarting_search] that takes the trail back to the length it had
    before the decision, and goes on to the next candidate.  The
    all-different propagator is taken to remove values only. *)
Theorem propagate_pushes_and_leaves_entries :
  (forall (new_domains : Domains) assignments propagate_using_lackey_ (st : State),
     exists ok new_domains' pushed st' positions,
       propagate model params env new_domains assignments propagate_using_lackey_ st
       = Some (ok, new_domains', assignments ++ pushed, st')
       /\ Forall2 (committed new_domains new_domains') pushed positions
       /\ NoDup positions
       /\ (forall j d d',
             new_domains !! j = Some d -> new_domains' !! j = Some d' ->
             fixed d = false -> fixed d' = true -> j ∈ positions)
       /\ fixed_count new_domains' = (fixed_count new_domains + length pushed)%nat
       /\ (forall i d,
             find_unit_domain new_domains = Some (i, d) ->
             exists rest,
               pushed
               = {| assignment :=
                      {| pattern_vertex := v d;
                         target_vertex :=
                           default SVOBitset.npos (SVOBitset.find_first (values d)) |};
                    is_decision := false;
                    discrepancy_count := -1;
                    choice_count := -1 |}
                 :: rest)
       /\ (find_unit_domain new_domains = None -> pushed = []))
  /\ (forall restarting_search_ (domains : Domains) i branch_domain branch_v_end depth
        tried f_v locals assignments (st : State) new_domains assignments1 st1,
        find_branch_domain model domains = Some (i, branch_domain) ->
        decide_and_propagate model params env domains branch_domain branch_v_end depth
          f_v locals assignments st = Some (false, new_domains, assignments1, st1) ->
        exists pushed,
          assignments1
          = assignments
            ++ decision_entry branch_domain f_v (Locals.discrepancy_count locals)
                 branch_v_end
               :: pushed
          /\ pushed <> []
          /\ Forall is_propagated pushed
          /\ exists st2,
               try_value model params env restarting_search_ domains branch_domain
                 branch_v_end depth tried f_v locals assignments st
               = Some (NextValue
                         {| Locals.discrepancy_count := Locals.discrepancy_count locals;
                            Locals.actually_hit_a_failure := true;
                            Locals.use_lackey_for_propagation :=
                              Locals.use_lackey_for_propagation locals |},
                       assignments, st2)).
Proof.
  split.
  - intros ds a pul st.
    destruct (propagate_commits ds a pul st)
      as (ok & ds' & pushed & st' & positions & H & Hall & Hnodup & Hcomplete & Hfirst
          & Hnone).
    exists ok, ds', pushed, st', positions.
    split; [exact H|]. split; [exact Hall|]. split; [exact Hnodup|].
    split; [exact Hcomplete|]. split; [|split; [exact Hfirst|exact Hnone]].
    destruct (propagate_total model params env cheap_all_different_flags ds a pul st)
      as (ok0 & ds0 & pushed0 & st0 & H0 & _ & Hcount & _).
    rewrite H in H0. injection H0 as _ <- Hp _.
    apply app_inv_head in Hp. now subst pushed0.
  - intros rec ds i bd n depth tried f_v locals a st nd a1 st1 Hb H.
    pose proof (find_branch_domain_from_scanned model ds [] None (Forall_nil_2 _)) as Hs.
    simpl in Hs. fold (find_branch_domain model ds) in Hs. rewrite Hb in Hs.
    destruct Hs as (Hi & Hfixed & _).
    destruct (copy_nonfixed_unit ds f_v bd (list_elem_of_lookup_2 _ _ _ Hi) Hfixed)
      as [[k u] Hunit].
    unfold try_value. rewrite H. unfold decide_and_propagate in H.
    match type of H with context [propagate _ _ _ ?nd0 ?a0 ?pul ?s] =>
      destruct (propagate_commits nd0 a0 pul s)
        as (ok & ds' & pushed & st' & positions & Hrun & Hall & _ & _ & Hfirst & _)
    end.
    rewrite Hrun in H. injection H as -> -> <- ->.
    destruct (Hfirst k u Hunit) as (rest & ->).
    eexists. rewrite <- app_assoc. split; [reflexivity|]. split; [discriminate|].
    split.
    + clear -Hall. induction Hall as [|e j pushed positions He _ IH]; constructor; auto.
      destruct He as (d & d' & _ & _ & _ & _ & He & _). exact He.
    + eexists. cbn [app]. rewrite resize_app. reflexivity.
Qed.

End CommitFacts.

(** ** The properties on the small instances *)

Section Instances.

Import Scenario.

Local Abbreviation adjacent_model := (model true []).
Local Abbreviation free_model := (model false []).
Local Abbreviation once := (params false false).
Local Abbreviation counting := (params true false).

(** *** An abort below leaves the trail grown *)

(** C1 (as stated, refuted): the timeout says abort in the second call.  The
    first call has pushed the decision 0 -> 1, and propagation two entries;
    it passes [Aborted] on with those three entries on the trail that it
    received empty. *)
Lemma aborted_search_leaves_entries :
  restarting_search adjacent_model once (env 1 1000 (Verdict true tt))
    3 [] edge_domains 0 (state None)
  = Some (Aborted,
          [decided 0 1 0 2; propagated 0 1; propagated 1 2],
          state_with None 2 (0%nat, 0%nat) [] 1 2 0)
  /\ length [decided 0 1 0 2; propagated 0 1; propagated 1 2]
     <> length (@nil HomomorphismAssignmentInformation).
Proof. split; [vm_compute; reflexivity|discriminate]. Qed.

(** A search that ends in [Restart]: solutions are counted, and the restarts
    schedule says restart when it is asked the second time. *)
Lemma restarting_run :
  restarting_search free_model counting (env 1000 1 (Verdict true tt))
    4 [] free_domains 0 (state None)
  = Some (Restart, [],
          state_with None 8 (0%nat, 2%nat)
            [nogood [(0, 0); (1, 1)]; nogood [(0, 0); (1, 0)]] 8 7 4).
Proof. vm_compute. reflexivity. Qed.

(** The run above answers [Restart], and hands back the empty trail it was
    given. *)
Lemma restarting_search_restores_trail_witness :
  restarting_search free_model counting (env 1000 1 (Verdict true tt))
    4 [] free_domains 0 (state None)
  = Some (Restart, [],
          state_with None 8 (0%nat, 2%nat)
            [nogood [(0, 0); (1, 1)]; nogood [(0, 0); (1, 0)]] 8 7 4)
  /\ Restart <> Satisfiable /\ Restart <> Aborted
  /\ length (@nil HomomorphismAssignmentInformation)
     = length (@nil HomomorphismAssignmentInformation)
  /\ @nil HomomorphismAssignmentInformation = [].
Proof.
  split; [vm_compute; reflexivity|]. split; [discriminate|]. split; [discriminate|].
  refine (restarting_search_restores_trail free_model counting
            (env 1000 1 (Verdict true tt)) 4 [] free_domains 0 (state None)
            Restart [] _ _ _ _); [vm_compute; reflexivity|discriminate|discriminate].
Defined.

(** *** The nogoods of a restart carry the decisions above the branch *)

(** C2 (as stated, refuted): in the run above, the call for pattern vertex 1
    gets [Restart] from below while it tries its second value, 1, and posts
    the nogood for the value 0 that it tried before.  That nogood, the
    second in the table, is not the single literal (1, 0): it holds the
    decision 0 -> 0 of the call above as well. *)
Lemma restart_nogood_holds_earlier_decisions :
  restarting_search free_model counting (env 1000 1 (Verdict true tt))
    4 [] free_domains 0 (state None)
  = Some (Restart, [],
          state_with None 8 (0%nat, 2%nat)
            [nogood [(0, 0); (1, 1)]; nogood [(0, 0); (1, 0)]] 8 7 4)
  /\ nogood [(1, 0)] ∉ [nogood [(0, 0); (1, 1)]; nogood [(0, 0); (1, 0)]].
Proof.
  split; [exact restarting_run|].
  intros H. apply elem_of_cons in H as [H1|H1]; [discriminate|].
  apply elem_of_cons in H1 as [H2|H2]; [discriminate|].
  now apply elem_of_nil in H2.
Qed.

(** The call for pattern vertex 1 in that run: it receives the trail of the
    decision 0 -> 0, goes through its candidate 0, and gets [Restart] from
    below for its candidate 1.  It answers [Restart] with the trail it
    received, and the one nogood it adds to the one posted below is that of
    the candidate 0. *)
Lemma restart_posts_nogoods_for_tried_witness :
  round_reached free_model counting (env 1000 1 (Verdict true tt))
    (restarting_search free_model counting (env 1000 1 (Verdict true tt)) 2)
    [domain 1 3; domain 2 3] (domain 1 3) (length [0; 1]) 1
    [decided 0 0 0 2; propagated 0 0]
    (loop_entry (env 1000 1 (Verdict true tt)) (state None) tt)
    [0] 1 (locals 1 true) [decided 0 0 0 2; propagated 0 0]
    (state_with None 4 (0%nat, 1%nat) [] 4 3 2)
  /\ exists st3,
       restarting_search free_model counting (env 1000 1 (Verdict true tt)) 3
         [decided 0 0 0 2; propagated 0 0] [domain 1 3; domain 2 3] 1 (state None)
       = Some (Restart, [decided 0 0 0 2; propagated 0 0], st3)
       /\ watches st3 = [nogood [(0, 0); (1, 1)]; nogood [(0, 0); (1, 0)]].
Proof.
  assert (round_reached free_model counting (env 1000 1 (Verdict true tt))
            (restarting_search free_model counting (env 1000 1 (Verdict true tt)) 2)
            [domain 1 3; domain 2 3] (domain 1 3) (length [0; 1]) 1
            [decided 0 0 0 2; propagated 0 0]
            (loop_entry (env 1000 1 (Verdict true tt)) (state None) tt)
            [0] 1 (locals 1 true) [decided 0 0 0 2; propagated 0 0]
            (state_with None 4 (0%nat, 1%nat) [] 4 3 2)) as H.
  { refine (reached_next _ _ _ _ _ _ _ _ _ _ [] 0%nat _ _ _ 0 true _ _ _ _ _ _
              (reached_first _ _ _ _ _ _ _ _ _ _) _ _); vm_compute; reflexivity. }
  split; [exact H|].
  refine (restart_posts_nogoods_for_tried free_model counting
            (env 1000 1 (Verdict true tt)) 2 [decided 0 0 0 2; propagated 0 0]
            [domain 1 3; domain 2 3] 1 (state None) 0%nat (domain 1 3) [0; 1] tt
            [0] 1 [] 1%nat (locals 1 true) [decided 0 0 0 2; propagated 0 0]
            (state_with None 4 (0%nat, 1%nat) [] 4 3 2)
            [{| v := 1; values := 2; count := 1; fixed := true |}; domain 2 3]
            [decided 0 0 0 2; propagated 0 0; decided 1 1 1 2; propagated 1 1]
            (state_with None 4 (0%nat, 1%nat) [] 4 4 2)
            [decided 0 0 0 2; propagated 0 0; decided 1 1 1 2; propagated 1 1]
            (state_with None 7 (0%nat, 2%nat) [nogood [(0, 0); (1, 1)]] 7 6 4)
            _ _ _ _ H _ _); vm_compute; reflexivity.
Defined.

(** *** A candidate whose propagation fails is not counted *)

(** C3 (as stated, refuted): the candidates of pattern vertex 0 are 0 and 1,
    in this order.  Propagation fails for 0; the decision then pushed for 1,
    which is at position 1, carries [discrepancy_count] 0, as the trail of
    the solution shows. *)
Lemma discrepancy_count_below_position :
  order_values adjacent_model (random quiet) (value_ordering_heuristic once)
    (remaining_values (domain 0 3)) tt = Some ([0; 1], tt)
  /\ restarting_search adjacent_model once quiet 3 [] edge_domains 0 (state None)
     = Some (Satisfiable,
             [decided 0 1 0 2; propagated 0 1; propagated 1 2],
             state_with None 2 (0%nat, 0%nat) [] 2 2 0)
  /\ discrepancy_count (decided 0 1 0 2) <> 1%Z.
Proof. split; [|split]; [vm_compute; reflexivity..|discriminate]. Qed.

(** The call of that run: after the failed candidate 0, the decision for
    the candidate 1 goes on the trail with the counts 0 and 2, and it is on
    the trail of the solution that the call hands back. *)
Lemma decision_counts_recursed_values_witness :
  round_reached adjacent_model once quiet (restarting_search adjacent_model once quiet 2)
    edge_domains (domain 0 3) (length [0; 1]) 0 [] (loop_entry quiet (state None) tt)
    [0] 0 (locals 0 true) [] (state_with None 1 (0%nat, 0%nat) [] 1 1 0)
  /\ (Z.of_nat (length [0; 1]) < 2 ^ 31)%Z
  /\ restarting_search adjacent_model once quiet 3 [] edge_domains 0 (state None)
     = Some (Satisfiable,
             [decided 0 1 0 2; propagated 0 1; propagated 1 2],
             state_with None 2 (0%nat, 0%nat) [] 2 2 0).
Proof.
  assert (round_reached adjacent_model once quiet
            (restarting_search adjacent_model once quiet 2)
            edge_domains (domain 0 3) (length [0; 1]) 0 []
            (loop_entry quiet (state None) tt)
            [0] 0 (locals 0 true) [] (state_with None 1 (0%nat, 0%nat) [] 1 1 0)) as H.
  { refine (reached_next _ _ _ _ _ _ _ _ _ _ [] 0%nat _ _ _ 0 false _ _ _ _ _ _
              (reached_first _ _ _ _ _ _ _ _ _ _) _ _); vm_compute; reflexivity. }
  split; [exact H|]. split; [reflexivity|].
  assert (decide_and_propagate adjacent_model once quiet edge_domains (domain 0 3)
            (length [0; 1]) 0 1 (locals 0 true) []
            (state_with None 1 (0%nat, 0%nat) [] 1 1 0)
          = Some (true,
                  [{| v := 0; values := 2; count := 1; fixed := true |};
                   {| v := 1; values := 4; count := 1; fixed := true |}],
                  [decided 0 1 0 2; propagated 0 1; propagated 1 2],
                  state_with None 1 (0%nat, 0%nat) [] 1 2 0)) as Hp
    by (vm_compute; reflexivity).
  destruct (decision_counts_recursed_values adjacent_model once quiet 2 [] edge_domains 0
              (state None) 0%nat (domain 0 3) [0; 1] tt [0] 1 [] 0%nat (locals 0 true) []
              (state_with None 1 (0%nat, 0%nat) [] 1 1 0) true
              [{| v := 0; values := 2; count := 1; fixed := true |};
               {| v := 1; values := 4; count := 1; fixed := true |}]
              [decided 0 1 0 2; propagated 0 1; propagated 1 2]
              (state_with None 1 (0%nat, 0%nat) [] 1 2 0)
              eq_refl eq_refl eq_refl eq_refl H Hp eq_refl)
    as (_ & pushed & _ & _ & Hup).
  refine (proj1 (Hup Satisfiable [decided 0 1 0 2; propagated 0 1; propagated 1 2]
                   (state_with None 2 (0%nat, 0%nat) [] 2 2 0) eq_refl _
                   (or_introl eq_refl))).
  vm_compute. reflexivity.
Defined.

(** *** Partials sent to the lackey come without the deletion function *)

(** C5 (as stated, refuted): partials are sent to the lackey, but this frame
    did not ask for lackey propagation.  The lackey would delete target 1
    from pattern vertex 0 if it were handed the deletion function, as the
    specification has it; [propagate] hands it the empty function, and the
    domain keeps both values. *)
Lemma partials_sent_without_deletion :
  propagate free_model (params false true) (env 1000 1000 deleting_script)
    [domain 0 3] [] false (state (Some tt))
  = Some (true, [domain 0 3], [], state (Some tt))
  /\ propagate_lackey_as_specified (params false true) (env 1000 1000 deleting_script)
       [domain 0 3] [] false (state (Some tt))
     = (true, [domain 0 1], state (Some tt))
  /\ [domain 0 3] <> [domain 0 1].
Proof. split; [|split]; [vm_compute; reflexivity..|discriminate]. Qed.

(** *** Less-than propagation on two domains *)

(** Pattern vertex 0 below pattern vertex 1, each with the candidates 0, 1
    and 2: the loops of the code and the two passes of the specification
    agree on them. *)
Lemma propagate_less_thans_two_passes_witness :
  well_formed (model false [(0, 1)]) [domain 0 7; domain 1 7]
  /\ (propagate_less_thans (model false [(0, 1)]) [domain 0 7; domain 1 7]).1
     = (propagate_less_thans_as_specified (model false [(0, 1)])
          [domain 0 7; domain 1 7]).1
  /\ ((propagate_less_thans (model false [(0, 1)]) [domain 0 7; domain 1 7]).1 = true ->
      (propagate_less_thans (model false [(0, 1)]) [domain 0 7; domain 1 7]).2
      = (propagate_less_thans_as_specified (model false [(0, 1)])
           [domain 0 7; domain 1 7]).2).
Proof.
  assert (well_formed (model false [(0, 1)]) [domain 0 7; domain 1 7]) as H.
  { split; [|split].
    - simpl. apply NoDup_cons. split; [|apply NoDup_singleton].
      rewrite list_elem_of_singleton. discriminate.
    - repeat constructor.
    - repeat constructor. }
  split; [exact H|].
  exact (propagate_less_thans_two_passes (model false [(0, 1)])
           [domain 0 7; domain 1 7] H).
Defined.

(** The two passes on these domains: 1 loses the value 0, then 0 loses the
    value 2. *)
Lemma propagate_less_thans_tightens :
  propagate_less_thans (model false [(0, 1)]) [domain 0 7; domain 1 7]
  = (true, [domain 0 3; domain 1 6]).
Proof. vm_compute. reflexivity. Qed.

(** *** The empty pattern *)

(** C8 (as stated, refuted): with no domains at all, a search that counts
    solutions answers [SatisfiableButKeepGoing], not [Satisfiable]. *)
Lemma empty_pattern_when_counting :
  restarting_search free_model counting quiet 1 [] [] 0 (state None)
  = Some (SatisfiableButKeepGoing, [], state_with None 1 (0%nat, 0%nat) [] 1 0 1)
  /\ SatisfiableButKeepGoing <> Satisfiable.
Proof. split; [vm_compute; reflexivity|discriminate]. Qed.

(** Without counting, and with nothing to say abort or to reject, the
    answer for no domains is [Satisfiable]. *)
Lemma empty_pattern_answers_at_once_witness :
  (should_abort quiet (timeout (state None))).1 = false
  /\ exists st',
       restarting_search free_model once quiet 1 [] [] 0 (state None)
       = Some (Satisfiable, [], st')
       /\ nodes st' = increment_counter (nodes (state None))
       /\ propagations st' = propagations (state None)
       /\ (@nil HomomorphismAssignmentInformation = [] ->
           expand_to_full_result [] ∅ = ∅).
Proof.
  split; [reflexivity|].
  refine (empty_pattern_answers_at_once free_model once quiet 0 [] 0 (state None)
            _ _ _).
  - reflexivity.
  - discriminate.
  - discriminate.
Defined.

(** *** Propagation on the instances *)

(** The candidate 0 of pattern vertex 0 leaves pattern vertex 1 without a
    candidate: propagation fails with the decision and one entry of unit
    propagation on the trail, and the round of the search takes them off
    again. *)
Lemma propagate_pushes_and_leaves_entries_witness :
  (forall n (new_domains : Domains) p,
     map fixed (cheap_all_different quiet n new_domains p).1.2 = map fixed new_domains)
  /\ (forall n (new_domains : Domains) p,
        shrinks new_domains (cheap_all_different quiet n new_domains p).1.2)
  /\ find_branch_domain adjacent_model edge_domains = Some (0%nat, domain 0 3)
  /\ decide_and_propagate adjacent_model once quiet edge_domains (domain 0 3) 2 0 0
       (locals 0 false) [] (state None)
     = Some (false,
             [{| v := 0; values := 1; count := 1; fixed := true |};
              {| v := 1; values := 0; count := 0; fixed := false |}],
             [decided 0 0 0 2; propagated 0 0],
             state_with None 0 (0%nat, 0%nat) [] 0 1 0)
  /\ exists pushed,
       [decided 0 0 0 2; propagated 0 0]
       = [] ++ decision_entry (domain 0 3) 0 (Locals.discrepancy_count (locals 0 false)) 2
               :: pushed
       /\ pushed <> []
       /\ Forall is_propagated pushed
       /\ exists st2,
            try_value adjacent_model once quiet
              (restarting_search adjacent_model once quiet 2) edge_domains (domain 0 3) 2 0
              [] 0 (locals 0 false) [] (state None)
            = Some (NextValue (locals 0 true), [], st2).
Proof.
  assert (forall n (new_domains : Domains) p,
            shrinks new_domains (cheap_all_different quiet n new_domains p).1.2) as Hcad
    by (intros n ds p; apply shrinks_refl).
  assert (decide_and_propagate adjacent_model once quiet edge_domains (domain 0 3) 2 0 0
            (locals 0 false) [] (state None)
          = Some (false,
                  [{| v := 0; values := 1; count := 1; fixed := true |};
                   {| v := 1; values := 0; count := 0; fixed := false |}],
                  [decided 0 0 0 2; propagated 0 0],
                  state_with None 0 (0%nat, 0%nat) [] 0 1 0)) as Hp
    by (vm_compute; reflexivity).
  split; [reflexivity|]. split; [exact Hcad|]. split; [reflexivity|]. split; [exact Hp|].
  exact (proj2 (propagate_pushes_and_leaves_entries adjacent_model once quiet
                  (fun _ _ _ => eq_refl) Hcad)
           (restarting_search adjacent_model once quiet 2) edge_domains 0%nat (domain 0 3)
           2%nat 0%Z [] 0 (locals 0 false) [] (state None)
           [{| v := 0; values := 1; count := 1; fixed := true |};
            {| v := 1; values := 0; count := 0; fixed := false |}]
           [decided 0 0 0 2; propagated 0 0]
           (state_with None 0 (0%nat, 0%nat) [] 0 1 0) eq_refl Hp).
Defined.

(** A failed propagation: the decision and the entry of the unit propagation
    before the failure are still on the trail that [propagate] leaves. *)
Lemma failed_propagation_leaves_entries :
  propagate adjacent_model once quiet
    [{| v := 0; values := 1; count := 1; fixed := false |}; domain 1 6]
    [decided 0 0 0 2] false (state None)
  = Some (false,
          [{| v := 0; values := 1; count := 1; fixed := true |};
           {| v := 1; values := 0; count := 0; fixed := false |}],
          [decided 0 0 0 2; propagated 0 0], state None).
Proof. vm_compute. reflexivity. Qed.

(** *** The orderings *)

(** The failing input of C4: the target vertices 1 and 2 have the same
    degree; under [Degree] they come out as 2, 1, while [AntiDegree] keeps
    them as 1, 2. *)
Lemma degree_sort_swaps_equal_degrees :
  target_degree adjacent_model 0 1 = target_degree adjacent_model 0 2
  /\ degree_sort adjacent_model [1; 2] false = [2; 1]
  /\ degree_sort adjacent_model [1; 2] true = [1; 2].
Proof. repeat split. Qed.

(** The candidates of the cycle and their weights. *)
Lemma vertices_from_length n : forall first, length (vertices_from n first) = n.
Proof. induction n as [|n IH]; intros first; simpl; [reflexivity|now rewrite IH]. Qed.

Lemma cycle_sum_of_weights n : forall first,
  sum_of_weights cycle (vertices_from n first) = (2 ^ 45 * Z.of_nat n)%Z.
Proof.
  induction n as [|n IH]; intros first; [reflexivity|].
  cbn [vertices_from sum_of_weights fold_right].
  fold (sum_of_weights cycle (vertices_from n (N.succ first))). rewrite IH.
  change (weight cycle first) with (2 ^ 45)%Z. lia.
Qed.

(** C10 (as stated, refuted): the [2 ^ 18] vertices of a cycle are all
    candidates, each of the largest degree and so of weight [2 ^ 45].  Their
    total is [2 ^ 63], which a [long long] holds as [- 2 ^ 63]: the range
    [1 .. total] of the first round is empty, and the shuffle is not
    defined. *)
Lemma softmax_shuffle_undefined_at_2_18 :
  length cycle_vertices = N.to_nat 262144
  /\ degrees_bounded cycle cycle_vertices
  /\ softmax_total cycle cycle_vertices = (- 2 ^ 63)%Z
  /\ softmax_shuffle cycle (random quiet) cycle_vertices tt = None.
Proof.
  assert (softmax_total cycle cycle_vertices = (- 2 ^ 63)%Z) as Htotal.
  { rewrite softmax_total_wraps. unfold cycle_vertices.
    rewrite cycle_sum_of_weights, N_nat_Z. reflexivity. }
  split; [apply vertices_from_length|]. split; [|split; [exact Htotal|]].
  - apply Forall_forall. intros x _. discriminate.
  - unfold softmax_shuffle. rewrite Htotal.
    apply softmax_rounds_empty_range; [reflexivity|].
    unfold cycle_vertices. rewrite vertices_from_length. lia.
Qed.

(** Three candidates on the small target graph are shuffled into a
    permutation of themselves. *)
Lemma softmax_shuffle_permutes_below_2_18_witness :
  largest_target_degree adjacent_model < 2 ^ 31
  /\ degrees_bounded adjacent_model [0; 1; 2]
  /\ (Z.of_nat (length [0; 1; 2]) < 2 ^ 18)%Z
  /\ exists shuffled rand,
       softmax_shuffle adjacent_model (random quiet) [0; 1; 2] tt = Some (shuffled, rand)
       /\ shuffled ≡ₚ [0; 1; 2].
Proof.
  assert (degrees_bounded adjacent_model [0; 1; 2]) as H.
  { repeat constructor; discriminate. }
  split; [reflexivity|]. split; [exact H|]. split; [reflexivity|].
  exact (proj2 (proj2 (proj2 (proj2
           (softmax_shuffle_permutes_below_2_18 adjacent_model eq_refl (random quiet)
              [0; 1; 2] tt H eq_refl))))).
Defined.

End Instances.

(** ** Further properties on the small instances *)

Section MoreInstances.

Import Scenario.

Local Abbreviation adjacent_model := (model true []).
Local Abbreviation free_model := (model false []).
Local Abbreviation once := (params false false).
Local Abbreviation counting := (params true false).

(** The domain of pattern vertex 0 with the value 1 alone, before and after
    unit propagation, and the domain of pattern vertex 1 once the value 2 is
    all that is left of it. *)
Local Abbreviation unit_0 := {| v := 0; values := 2; count := 1; fixed := false |}.
Local Abbreviation fixed_0 := {| v := 0; values := 2; count := 1; fixed := true |}.
Local Abbreviation fixed_1 := {| v := 1; values := 4; count := 1; fixed := true |}.

(** The trail of the solution 0 -> 1, 1 -> 2: one pair for each pattern
    vertex in the solution logged to the proof. *)
Lemma solution_in_proof_form_is_the_mapping_witness :
  Forall
    (fun a =>
       unsigned (pattern_vertex_for_proof adjacent_model (pattern_vertex (assignment a))).1
       = pattern_vertex (assignment a))
    [decided 0 1 0 2; propagated 0 1; propagated 1 2]
  /\ NoDup
       (map (fun t => unsigned t.1.1)
          (solution_in_proof_form adjacent_model
             [decided 0 1 0 2; propagated 0 1; propagated 1 2])).
Proof.
  assert (Forall
            (fun a =>
               unsigned
                 (pattern_vertex_for_proof adjacent_model (pattern_vertex (assignment a))).1
               = pattern_vertex (assignment a))
            [decided 0 1 0 2; propagated 0 1; propagated 1 2]) as H
    by (repeat constructor).
  split; [exact H|].
  exact (proj1 (solution_in_proof_form_is_the_mapping adjacent_model
                  [decided 0 1 0 2; propagated 0 1; propagated 1 2] H)).
Defined.

(** Pattern vertex 0 goes to target 1; of the values 1 and 2 of pattern
    vertex 1, which is adjacent to 0, only the neighbour 2 of target 1
    stays. *)
Lemma propagate_simple_constraints_keeps_consistent_witness :
  propagate_simple_constraints adjacent_model once [fixed_0; domain 1 6]
    {| pattern_vertex := 0; target_vertex := 1 |}
  = (true, [fixed_0; domain 1 4])
  /\ length [fixed_0; domain 1 4] = length [fixed_0; domain 1 6]
  /\ forall i d,
       [fixed_0; domain 1 6] !! i = Some d ->
       exists d',
         [fixed_0; domain 1 4] !! i = Some d'
         /\ if fixed d then d' = d
            else
              v d' = v d /\ fixed d' = false
              /\ count d' = SVOBitset.count (values d') /\ count d' <> 0
              /\ forall c,
                   SVOBitset.test (values d') c = true
                   <-> SVOBitset.test (values d) c = true
                       /\ simple_consistent adjacent_model once
                            {| pattern_vertex := 0; target_vertex := 1 |} (v d) c.
Proof.
  split; [reflexivity|].
  exact (propagate_simple_constraints_keeps_consistent adjacent_model once
           [fixed_0; domain 1 6] {| pattern_vertex := 0; target_vertex := 1 |}
           [fixed_0; domain 1 4] eq_refl).
Defined.

(** The run that ends in [Restart]: its restarts schedule does say
    restart. *)
Lemma restarting_search_answer_has_a_cause_witness :
  restarting_search free_model counting (env 1000 1 (Verdict true tt))
    4 [] free_domains 0 (state None)
  = Some (Restart, [],
          state_with None 8 (0%nat, 2%nat)
            [nogood [(0, 0); (1, 1)]; nogood [(0, 0); (1, 0)]] 8 7 4)
  /\ exists s, (should_restart (env 1000 1 (Verdict true tt)) s).1 = true.
Proof.
  assert (restarting_search free_model counting (env 1000 1 (Verdict true tt))
            4 [] free_domains 0 (state None)
          = Some (Restart, [],
                  state_with None 8 (0%nat, 2%nat)
                    [nogood [(0, 0); (1, 1)]; nogood [(0, 0); (1, 0)]] 8 7 4)) as H
    by (vm_compute; reflexivity).
  split; [exact H|].
  exact (restarting_search_answer_has_a_cause free_model counting
           (env 1000 1 (Verdict true tt)) 4 [] free_domains 0 (state None) Restart []
           (state_with None 8 (0%nat, 2%nat)
              [nogood [(0, 0); (1, 1)]; nogood [(0, 0); (1, 0)]] 8 7 4) H).
Defined.

(** The same run has counted four solutions; there is no enumeration
    callback. *)
Lemma restarting_search_counts_what_it_enumerates_witness :
  restarting_search free_model counting (env 1000 1 (Verdict true tt))
    4 [] free_domains 0 (state None)
  = Some (Restart, [],
          state_with None 8 (0%nat, 2%nat)
            [nogood [(0, 0); (1, 1)]; nogood [(0, 0); (1, 0)]] 8 7 4)
  /\ exists n new,
       (4 = 0 + Z.of_nat n)%Z
       /\ @nil VertexToVertexMapping = [] ++ new
       /\ length new = 0%nat
       /\ (true = false -> n = 0%nat)
       /\ (Restart = SatisfiableButKeepGoing -> n = 1%nat).
Proof.
  assert (restarting_search free_model counting (env 1000 1 (Verdict true tt))
            4 [] free_domains 0 (state None)
          = Some (Restart, [],
                  state_with None 8 (0%nat, 2%nat)
                    [nogood [(0, 0); (1, 1)]; nogood [(0, 0); (1, 0)]] 8 7 4)) as H
    by (vm_compute; reflexivity).
  split; [exact H|].
  exact (restarting_search_counts_what_it_enumerates free_model counting
           (env 1000 1 (Verdict true tt)) 4 [] free_domains 0 (state None) Restart []
           (state_with None 8 (0%nat, 2%nat)
              [nogood [(0, 0); (1, 1)]; nogood [(0, 0); (1, 0)]] 8 7 4) H).
Defined.

(** Unit propagation from 0 -> 1 fixes both domains; the second has lost
    the value 1 and kept the value 2. *)
Lemma propagate_only_takes_values_away_witness :
  (forall n (new_domains : Domains) p,
     shrinks new_domains (cheap_all_different quiet n new_domains p).1.2)
  /\ propagate adjacent_model once quiet [unit_0; domain 1 6] [decided 0 1 0 2] false
       (state None)
     = Some (true, [fixed_0; fixed_1],
             [decided 0 1 0 2; propagated 0 1; propagated 1 2], state None)
  /\ length [fixed_0; fixed_1] = length [unit_0; domain 1 6].
Proof.
  assert (forall n (new_domains : Domains) p,
            shrinks new_domains (cheap_all_different quiet n new_domains p).1.2) as Hcad
    by (intros n ds p; apply shrinks_refl).
  split; [exact Hcad|]. split; [reflexivity|].
  exact (proj1 (propagate_only_takes_values_away adjacent_model once quiet Hcad
                  [unit_0; domain 1 6] [decided 0 1 0 2] false (state None) true
                  [fixed_0; fixed_1] [decided 0 1 0 2; propagated 0 1; propagated 1 2]
                  (state None) eq_refl)).
Defined.

(** After that propagation no domain of count 1 is left that is not
    fixed. *)
Lemma propagate_leaves_no_unit_domain_witness :
  propagate adjacent_model once quiet [unit_0; domain 1 6] [decided 0 1 0 2] false
    (state None)
  = Some (true, [fixed_0; fixed_1],
          [decided 0 1 0 2; propagated 0 1; propagated 1 2], state None)
  /\ Forall (fun d => count d = 1 -> fixed d = true) [fixed_0; fixed_1].
Proof.
  split; [reflexivity|].
  exact (propagate_leaves_no_unit_domain adjacent_model once quiet
           [unit_0; domain 1 6] [decided 0 1 0 2] (state None)
           [fixed_0; fixed_1] [decided 0 1 0 2; propagated 0 1; propagated 1 2]
           (state None) eq_refl).
Defined.

(** The counts are in step with the values before and after it. *)
Lemma propagate_keeps_counts_in_step_witness :
  (forall n (new_domains : Domains) p,
     Forall count_matches new_domains ->
     Forall count_matches (cheap_all_different quiet n new_domains p).1.2)
  /\ Forall count_matches [unit_0; domain 1 6]
  /\ propagate adjacent_model once quiet [unit_0; domain 1 6] [decided 0 1 0 2] false
       (state None)
     = Some (true, [fixed_0; fixed_1],
             [decided 0 1 0 2; propagated 0 1; propagated 1 2], state None)
  /\ Forall count_matches [fixed_0; fixed_1].
Proof.
  assert (forall n (new_domains : Domains) p,
            Forall count_matches new_domains ->
            Forall count_matches (cheap_all_different quiet n new_domains p).1.2) as Hcad
    by (intros n ds p H; exact H).
  assert (Forall count_matches [unit_0; domain 1 6]) as Hall by (repeat constructor).
  split; [exact Hcad|]. split; [exact Hall|]. split; [reflexivity|].
  exact (propagate_keeps_counts_in_step adjacent_model once quiet Hcad
           [unit_0; domain 1 6] [decided 0 1 0 2] (state None)
           [fixed_0; fixed_1] [decided 0 1 0 2; propagated 0 1; propagated 1 2]
           (state None) Hall eq_refl).
Defined.

(** A single domain without values: the call answers [Unsatisfiable]
    without a guess. *)
Lemma branch_without_values_is_unsatisfiable_witness :
  (should_abort quiet (timeout (state None))).1 = false
  /\ find_branch_domain adjacent_model [domain 0 0] = Some (0%nat, domain 0 0)
  /\ values (domain 0 0) = SVOBitset.empty
  /\ value_ordering_heuristic once <> Random
  /\ exists st',
       restarting_search adjacent_model once quiet 1 [] [domain 0 0] 0 (state None)
       = Some (Unsatisfiable, [], st')
       /\ nodes st' = increment_counter (nodes (state None))
       /\ propagations st' = propagations (state None)
       /\ restarts_schedule st' = (0%nat, 1%nat).
Proof.
  assert (value_ordering_heuristic once <> Random) as H by discriminate.
  split; [reflexivity|]. split; [reflexivity|]. split; [reflexivity|]. split; [exact H|].
  exact (branch_without_values_is_unsatisfiable adjacent_model once quiet 0 []
           [domain 0 0] 0 (state None) 0%nat (domain 0 0) eq_refl eq_refl eq_refl H).
Defined.

(** Two domains that are not fixed: three frames are enough. *)
Lemma restarting_search_answers_witness :
  (forall n (new_domains : Domains) p,
     map fixed (cheap_all_different quiet n new_domains p).1.2 = map fixed new_domains)
  /\ value_ordering_heuristic once <> Biased
  /\ (length edge_domains - fixed_count edge_domains < 3)%nat
  /\ is_Some (restarting_search adjacent_model once quiet 3 [] edge_domains 0 (state None)).
Proof.
  assert (value_ordering_heuristic once <> Biased) as H by discriminate.
  assert (length edge_domains - fixed_count edge_domains < 3)%nat as Hlt
    by (apply Nat.ltb_lt; reflexivity).
  split; [reflexivity|]. split; [exact H|]. split; [exact Hlt|].
  exact (restarting_search_answers adjacent_model once quiet (fun _ _ _ => eq_refl) 3 H []
           edge_domains 0 (state None) Hlt).
Defined.

(** The search on the two adjacent pattern vertices finds the solution
    0 -> 1, 1 -> 2; on its trail the assignment of 1 agrees with that of
    0. *)
Lemma satisfiable_trail_is_consistent_witness :
  (forall n (new_domains : Domains) p,
     shrinks new_domains (cheap_all_different quiet n new_domains p).1.2)
  /\ (forall n (new_domains : Domains) p,
        map fixed (cheap_all_different quiet n new_domains p).1.2 = map fixed new_domains)
  /\ (forall n (new_domains : Domains) p,
        Forall count_matches new_domains ->
        Forall count_matches (cheap_all_different quiet n new_domains p).1.2)
  /\ propagate_using_lackey once = Never
  /\ (forall branch_v rand ordered rand',
        order_values adjacent_model (random quiet) (value_ordering_heuristic once)
          branch_v rand = Some (ordered, rand') ->
        ordered ≡ₚ branch_v)
  /\ NoDup (map v edge_domains)
  /\ Forall count_matches edge_domains
  /\ restarting_search adjacent_model once quiet 3 [] edge_domains 0 (state None)
     = Some (Satisfiable,
             [decided 0 1 0 2; propagated 0 1; propagated 1 2],
             state_with None 2 (0%nat, 0%nat) [] 2 2 0)
  /\ later_agree adjacent_model once [decided 0 1 0 2; propagated 0 1; propagated 1 2].
Proof.
  assert (forall n (new_domains : Domains) p,
            shrinks new_domains (cheap_all_different quiet n new_domains p).1.2) as H1
    by (intros n ds p; apply shrinks_refl).
  assert (forall n (new_domains : Domains) p,
            Forall count_matches new_domains ->
            Forall count_matches (cheap_all_different quiet n new_domains p).1.2) as H3
    by (intros n ds p H; exact H).
  assert (forall branch_v rand ordered rand',
            order_values adjacent_model (random quiet) (value_ordering_heuristic once)
              branch_v rand = Some (ordered, rand') ->
            ordered ≡ₚ branch_v) as H5
    by (intros l rand l' rand' [= <- _]; apply degree_sort_perm).
  assert (NoDup (map v edge_domains)) as H6.
  { apply NoDup_cons. split; [|apply NoDup_singleton].
    rewrite list_elem_of_singleton. discriminate. }
  assert (Forall count_matches edge_domains) as H7 by (repeat constructor).
  split; [exact H1|]. split; [reflexivity|]. split; [exact H3|]. split; [reflexivity|].
  split; [exact H5|]. split; [exact H6|]. split; [exact H7|]. split; [reflexivity|].
  exact (proj2 (proj2
           (satisfiable_trail_is_consistent adjacent_model once quiet H1
              (fun _ _ _ => eq_refl) H3 eq_refl H5 3 edge_domains 0 (state None)
              [decided 0 1 0 2; propagated 0 1; propagated 1 2]
              (state_with None 2 (0%nat, 0%nat) [] 2 2 0) H6 H7 eq_refl))).
Defined.

(** Two trails with different assignments and the same counts are saved
    with the same line, [where = 0/2 -1/-1], after whatever lines the
    results hold. *)
Lemma save_result_line_tells_the_counts_witness :
  last (extra_stats
          (save_result [decided 0 1 0 2; propagated 0 1]
             {| mapping := ∅; extra_stats := [] |}))
  = last (extra_stats
            (save_result [decided 1 2 0 2; propagated 1 0]
               {| mapping := ∅; extra_stats := ["nodes = 3"] |}))
  /\ map (fun a => (discrepancy_count a, choice_count a))
       [decided 0 1 0 2; propagated 0 1]
     = map (fun a => (discrepancy_count a, choice_count a))
         [decided 1 2 0 2; propagated 1 0].
Proof.
  assert (last (extra_stats
                  (save_result [decided 0 1 0 2; propagated 0 1]
                     {| mapping := ∅; extra_stats := [] |}))
          = last (extra_stats
                    (save_result [decided 1 2 0 2; propagated 1 0]
                       {| mapping := ∅; extra_stats := ["nodes = 3"] |}))) as H
    by (vm_compute; reflexivity).
  split; [exact H|].
  exact (proj2 (proj2 (save_result_line_tells_the_counts
                         [decided 0 1 0 2; propagated 0 1]
                         [decided 1 2 0 2; propagated 1 0]
                         {| mapping := ∅; extra_stats := [] |}
                         {| mapping := ∅; extra_stats := ["nodes = 3"] |})) H).
Defined.

End MoreInstances.
